(** * brain-hologram: normalization, particle sampling and animation ticks

    A shallow embedding of the two scripts of the repository,
    [viz_interactive.py] and [viz_hologram.py], and the properties of their
    documented design that can be settled on it.

    Numbers.  The scripts compute on float32 arrays.  Here every array
    element is an exact rational ([Q]): rounding is not represented, so a
    statement below speaks about the arithmetic the code writes down, not
    about its rounding error.  Where an overflow on finite data would reach
    the result, at the square of [viz_hologram.py] line 18, the model stops
    with [Overflowed] and says nothing about the values.  Equality of numbers
    is [==] ([Qeq]); equality of whole arrays that the code passes along
    untouched is Leibniz equality.

    External libraries.  What the scripts call but do not define is taken as
    an interface: the transcendental array functions ([np.log], [**]), scipy's
    [gaussian_filter], skimage's [marching_cubes], the colormaps and numpy's
    random generator.  [np.percentile], [np.clip], [np.where] and the
    elementwise arithmetic are rational and are written out. *)

From Stdlib Require Import QArith Qabs Qround Qminmax ZArith List Bool Lia Lqa.
From Stdlib Require Import Permutation Sorted.
Import ListNotations.
Open Scope Q_scope.

(** ** Python exceptions and the values a call can produce *)

Module Py.

Inductive exn : Type :=
| ValueError
| RuntimeError
| UnboundLocalError
| ZeroDivisionError
| IndexError.

Inductive result (A : Type) : Type :=
| Ok (a : A)
| Raise (e : exn).
Arguments Ok {A} a.
Arguments Raise {A} e.

Definition bind {A B} (c : result A) (k : A -> result B) : result B :=
  match c with
  | Ok a => k a
  | Raise e => Raise e
  end.

(** [for x in xs: body] where the body may raise: the first exception
    leaves the loop. *)
Fixpoint mapM {A B} (f : A -> result B) (xs : list A) : result (list B) :=
  match xs with
  | [] => Ok []
  | x :: xs' =>
      bind (f x) (fun y => bind (mapM f xs') (fun ys => Ok (y :: ys)))
  end.

(** [xs[i]] for [i >= 0]. *)
Definition getitem {A} (xs : list A) (i : nat) : result A :=
  match nth_error xs i with
  | Some x => Ok x
  | None => Raise IndexError
  end.

(** Python's [int(x)] on a float: truncation toward zero. *)
Definition int (x : Q) : Z :=
  if Qle_bool 0 x then Qfloor x else Qceiling x.

End Py.

Notation "x <- c ;; k" := (Py.bind c (fun x => k))
  (at level 61, c at next level, right associativity).

(** ** The numpy operations the scripts use *)

Module Np.
Import Py.

(** One frame: a 3-D array indexed [x][y][z]; a series: frames in time. *)
Definition volume : Type := list (list (list Q)).
Definition series : Type := list volume.

(** Elementwise application (broadcast of a scalar function). *)
Definition vmap (f : Q -> Q) (v : volume) : volume :=
  map (map (map f)) v.

(** C-order flattening, as [np.percentile] does on an n-d array. *)
Definition ravel (v : volume) : list Q :=
  concat (map (@concat Q) v).

(** Every frame of the series holds at least one element. *)
Definition has_voxels (v : series) : Prop :=
  Forall (fun frame => ravel frame <> []) v.

(** [arr.shape] of a rectangular 3-D array. *)
Definition shape (v : volume) : nat * nat * nat :=
  (length v, length (hd [] v), length (hd [] (hd [] v))).

Definition Qltb (x y : Q) : bool := negb (Qle_bool y x).

(** [np.clip(x, lo, hi)] is [minimum(maximum(x, lo), hi)]. *)
Definition clip (x lo hi : Q) : Q := Qmin (Qmax x lo) hi.

Fixpoint insert_sorted (x : Q) (l : list Q) : list Q :=
  match l with
  | [] => [x]
  | y :: l' => if Qle_bool x y then x :: l else y :: insert_sorted x l'
  end.

Definition sort (l : list Q) : list Q := fold_right insert_sorted [] l.

(** [np.percentile(a, q)] with the default linear method.  A percentile
    outside [0,100] raises [ValueError]; this is checked first.  On an array
    without elements the lookup of the neighbours then raises [IndexError].
    Otherwise the virtual index [q/100 * (n-1)] is split in its floor and
    fraction, and the two neighbours in the sorted data are interpolated; at
    or beyond the last index both neighbours are the last element. *)
Definition percentile (a : list Q) (q : Q) : result Q :=
  if negb (Qle_bool 0 q && Qle_bool q 100) then Raise ValueError
  else if Nat.eqb (length a) 0 then Raise IndexError
  else
    let s := sort a in
    let n := length s in
    let vidx := (q / 100) * (inject_Z (Z.of_nat n) - 1) in
    let lo := Qfloor vidx in
    let t := vidx - inject_Z lo in
    let last := nth (n - 1) s 0 in
    let a_lo := if Qle_bool (inject_Z (Z.of_nat n) - 1) vidx then last
                else nth (Z.to_nat lo) s 0 in
    let a_hi := if Qle_bool (inject_Z (Z.of_nat n) - 1) vidx then last
                else nth (Z.to_nat (lo + 1)) s 0 in
    Ok (a_lo + (a_hi - a_lo) * t).

(** [np.percentile(a, [q1, q2])]: one call, which checks both percentiles
    before it looks at the data. *)
Definition percentile2 (a : list Q) (q1 q2 : Q) : result (Q * Q) :=
  if negb ((Qle_bool 0 q1 && Qle_bool q1 100)
           && (Qle_bool 0 q2 && Qle_bool q2 100))
  then Raise ValueError
  else
    bind (percentile a q1) (fun v1 =>
    bind (percentile a q2) (fun v2 => Ok (v1, v2))).

End Np.

(** ** vispy's [MatrixTransform]

    A transform holds a 4x4 matrix; [reset] stores the identity and
    [translate] / [rotate] right-multiply it by an elementary matrix.  The
    matrix is represented by the sequence of elementary factors multiplied in
    since the last [reset]: equal sequences are the same floating-point
    operations on the same operands, hence the same matrix. *)

Module Vispy.

Definition vec3 : Type := (Q * Q * Q)%type.

Inductive factor : Type :=
| Translate (offset : vec3)
| Rotate (angle : Q) (axis : vec3).

Definition MatrixTransform : Type := list factor.

Definition identity : MatrixTransform := [].
Definition reset (_ : MatrixTransform) : MatrixTransform := identity.
Definition translate (offset : vec3) (m : MatrixTransform) : MatrixTransform :=
  m ++ [Translate offset].
Definition rotate (angle : Q) (axis : vec3) (m : MatrixTransform)
  : MatrixTransform :=
  m ++ [Rotate angle axis].

Definition neg3 (v : vec3) : vec3 :=
  let '(x, y, z) := v in (- x, - y, - z).

(** [np.array(arr.shape) / 2] *)
Definition half_shape (sh : nat * nat * nat) : vec3 :=
  let '(a, b, c) := sh in
  (inject_Z (Z.of_nat a) / 2, inject_Z (Z.of_nat b) / 2,
   inject_Z (Z.of_nat c) / 2).

Definition z_axis : vec3 := (0, 0, 1).

(** Two transforms with the same factors up to the value of their numbers:
    the same matrix. *)
Definition vec3_eq (a b : vec3) : Prop :=
  fst (fst a) == fst (fst b) /\ snd (fst a) == snd (fst b) /\ snd a == snd b.

Definition factor_eq (f g : factor) : Prop :=
  match f, g with
  | Translate a, Translate b => vec3_eq a b
  | Rotate x a, Rotate y b => x == y /\ vec3_eq a b
  | _, _ => False
  end.

Definition transform_eq (m n : MatrixTransform) : Prop := Forall2 factor_eq m n.

End Vispy.

(** ** viz_interactive.py *)

Module Interactive.
Import Py Np Vispy.

(** The array functions of numpy and scipy that are not rational. *)
Class ArrayLib : Type := {
  log : Q -> Q;                         (* np.log, elementwise *)
  power : Q -> Q -> Q;                  (* arr ** c, elementwise *)
  gaussian_filter : volume -> Q -> volume  (* scipy.ndimage *)
}.

(** Every element of a frame lies between [lo] and [hi]. *)
Definition within (lo hi : Q) (v : volume) : Prop :=
  Forall (Forall (Forall (fun x => lo <= x <= hi))) v.

(** What is used of [gaussian_filter]: each output element is a mean of
    input elements under non-negative weights that sum to one (the kernel is
    normalised, the border is reflected), so it stays between any two
    bounds of the input. *)
Class ArrayLibLaws (L : ArrayLib) : Prop := {
  gaussian_filter_within :
    forall v sigma lo hi,
      within lo hi v -> within lo hi (gaussian_filter v sigma)
}.

(** What is used of [**] on values of the unit interval: a positive power
    of a number of [0,1] is in [0,1], and a positive power of zero is
    zero. *)
Class PowerLaws (L : ArrayLib) : Prop := {
  power_unit : forall x c, 0 <= x <= 1 -> 0 < c -> 0 <= power x c <= 1;
  power_zero : forall x c, x == 0 -> 0 < c -> power x c == 0
}.

(** The keys of the [params] dict (and of [sliders]). *)
Inductive param_name : Type :=
| smoothing | gamma | step_size | clim_min | clim_max | contrast
| rotation_speed | brightness | percentile_min | percentile_max
| frame_skip | log_scale.

Definition param_name_eqb (a b : param_name) : bool :=
  match a, b with
  | smoothing, smoothing | gamma, gamma | step_size, step_size
  | clim_min, clim_min | clim_max, clim_max | contrast, contrast
  | rotation_speed, rotation_speed | brightness, brightness
  | percentile_min, percentile_min | percentile_max, percentile_max
  | frame_skip, frame_skip | log_scale, log_scale => true
  | _, _ => false
  end.

(** The dict itself: a total map on its fixed key set. *)
Definition params_t : Type := param_name -> Q.

Definition set_param (k : param_name) (v : Q) (p : params_t) : params_t :=
  fun k' => if param_name_eqb k k' then v else p k'.

(** [params = {...}] (lines 40-53). *)
Definition default_params : params_t := fun k =>
  match k with
  | smoothing => 15 # 10
  | gamma => 2
  | step_size => 5 # 10
  | clim_min => 0
  | clim_max => 70 # 100
  | contrast => 8 # 10
  | rotation_speed => 2
  | brightness => 1
  | percentile_min => 5
  | percentile_max => 95
  | frame_skip => 1
  | log_scale => 0
  end.

Section Pipeline.
Context {L : ArrayLib}.

(** Lines 60-63. *)
Definition log_mix (p : params_t) (v : series) : series :=
  if Qltb 0 (p log_scale) then
    map (vmap (fun x =>
           let x1 := x + (1 # 100000000) in
           (1 - p log_scale) * x1 + p log_scale * log (x1 + 1))) v
  else v.

(** Lines 67-70: one iteration of the per-frame loop.  When the guard
    [vmax > vmin] is false the frame is left as it is. *)
Definition normalize_frame (p : params_t) (frame : volume) : result volume :=
  bounds <- percentile2 (ravel frame) (p percentile_min) (p percentile_max) ;;
  let (vmin, vmax) := bounds in
  Ok (if Qltb vmin vmax
      then vmap (fun x => clip ((x - vmin) / (vmax - vmin)) 0 1) frame
      else frame).

(** Lines 72-77, elementwise on every frame. *)
Definition tone (p : params_t) (x : Q) : Q :=
  clip (power x (p contrast) * p brightness) 0 1.

(** Lines 80-82. *)
Definition smooth (p : params_t) (v : series) : series :=
  if Qltb 0 (p smoothing)
  then map (fun frame => gaussian_filter frame (p smoothing)) v
  else v.

(** What [smooth] does to one frame. *)
Definition smooth_frame (p : params_t) (frame : volume) : volume :=
  if Qltb 0 (p smoothing) then gaussian_filter frame (p smoothing) else frame.

(** [process_voxels()] (lines 56-84), reading the global [params] and
    [voxels_raw]. *)
Definition process_voxels (p : params_t) (voxels_raw : series)
  : result series :=
  voxels <- mapM (normalize_frame p) (log_mix p voxels_raw) ;;
  Ok (smooth p (map (vmap (tone p)) voxels)).

End Pipeline.

(** A [QSlider] as [create_slider] sets it up (lines 164-167, 194): integer
    range and value, and the scale that maps them back to the parameter. *)
Record slider : Type := {
  minimum : Z;
  maximum : Z;
  value : Z;
  scale : Q
}.

Definition create_slider (min_val max_val default scale : Q) : slider :=
  {| minimum := int (min_val * scale);
     maximum := int (max_val * scale);
     value := int (default * scale);
     scale := scale |}.

(** Lines 198-209. *)
Definition initial_sliders (p : params_t) : param_name -> slider := fun k =>
  match k with
  | smoothing => create_slider 0 5 (p k) 100
  | gamma => create_slider (5 # 10) 10 (p k) 100
  | step_size => create_slider (1 # 10) 2 (p k) 100
  | clim_min => create_slider 0 (5 # 10) (p k) 100
  | clim_max => create_slider (2 # 10) 1 (p k) 100
  | contrast => create_slider (3 # 10) 5 (p k) 100
  | rotation_speed => create_slider 0 10 (p k) 100
  | brightness => create_slider (1 # 10) 2 (p k) 100
  | percentile_min => create_slider 0 30 (p k) 100
  | percentile_max => create_slider 70 100 (p k) 100
  | frame_skip => create_slider 1 20 (p k) 1
  | log_scale => create_slider 0 1 (p k) 100
  end.

(** The [Volume] visual [holo]: its data buffer and live properties. *)
Record Volume : Type := {
  data : volume;
  clim : Q * Q;
  vol_gamma : Q;
  relative_step_size : Q;
  transform : MatrixTransform
}.

(** The globals of the script after set-up. *)
Record state : Type := {
  params : params_t;
  sliders : param_name -> slider;
  voxels_raw : series;
  voxels : series;
  holo : Volume;
  elecs_transform : MatrixTransform;
  center : vec3;
  current_frame : nat;
  rotation_angle : Q
}.

Definition with_params (p : params_t) (s : state) : state :=
  {| params := p; sliders := sliders s; voxels_raw := voxels_raw s;
     voxels := voxels s; holo := holo s;
     elecs_transform := elecs_transform s; center := center s;
     current_frame := current_frame s; rotation_angle := rotation_angle s |}.

Definition with_sliders (sl : param_name -> slider) (s : state) : state :=
  {| params := params s; sliders := sl; voxels_raw := voxels_raw s;
     voxels := voxels s; holo := holo s;
     elecs_transform := elecs_transform s; center := center s;
     current_frame := current_frame s; rotation_angle := rotation_angle s |}.

Definition with_voxels (v : series) (s : state) : state :=
  {| params := params s; sliders := sliders s; voxels_raw := voxels_raw s;
     voxels := v; holo := holo s;
     elecs_transform := elecs_transform s; center := center s;
     current_frame := current_frame s; rotation_angle := rotation_angle s |}.

Definition with_holo (h : Volume) (s : state) : state :=
  {| params := params s; sliders := sliders s; voxels_raw := voxels_raw s;
     voxels := voxels s; holo := h;
     elecs_transform := elecs_transform s; center := center s;
     current_frame := current_frame s; rotation_angle := rotation_angle s |}.

Definition with_elecs_transform (m : MatrixTransform) (s : state) : state :=
  {| params := params s; sliders := sliders s; voxels_raw := voxels_raw s;
     voxels := voxels s; holo := holo s;
     elecs_transform := m; center := center s;
     current_frame := current_frame s; rotation_angle := rotation_angle s |}.

Definition with_current_frame (i : nat) (s : state) : state :=
  {| params := params s; sliders := sliders s; voxels_raw := voxels_raw s;
     voxels := voxels s; holo := holo s;
     elecs_transform := elecs_transform s; center := center s;
     current_frame := i; rotation_angle := rotation_angle s |}.

Definition with_rotation_angle (a : Q) (s : state) : state :=
  {| params := params s; sliders := sliders s; voxels_raw := voxels_raw s;
     voxels := voxels s; holo := holo s;
     elecs_transform := elecs_transform s; center := center s;
     current_frame := current_frame s; rotation_angle := a |}.

Definition set_data (d : volume) (h : Volume) : Volume :=
  {| data := d; clim := clim h; vol_gamma := vol_gamma h;
     relative_step_size := relative_step_size h; transform := transform h |}.

Definition set_clim (c : Q * Q) (h : Volume) : Volume :=
  {| data := data h; clim := c; vol_gamma := vol_gamma h;
     relative_step_size := relative_step_size h; transform := transform h |}.

Definition set_gamma (g : Q) (h : Volume) : Volume :=
  {| data := data h; clim := clim h; vol_gamma := g;
     relative_step_size := relative_step_size h; transform := transform h |}.

Definition set_relative_step_size (r : Q) (h : Volume) : Volume :=
  {| data := data h; clim := clim h; vol_gamma := vol_gamma h;
     relative_step_size := r; transform := transform h |}.

Definition set_transform (m : MatrixTransform) (h : Volume) : Volume :=
  {| data := data h; clim := clim h; vol_gamma := vol_gamma h;
     relative_step_size := relative_step_size h; transform := m |}.

(** [update_param(param_name)(value)] (lines 296-309): the handler of a
    slider's [valueChanged].  The label text it also sets is not part of the
    state. *)
Definition update_param (name : param_name) (v : Z) (s : state) : state :=
  let actual_value := inject_Z v / scale (sliders s name) in
  let p := set_param name actual_value (params s) in
  let s := with_params p s in
  match name with
  | gamma => with_holo (set_gamma actual_value (holo s)) s
  | step_size => with_holo (set_relative_step_size actual_value (holo s)) s
  | clim_min | clim_max => with_holo (set_clim (p clim_min, p clim_max) (holo s)) s
  | _ => s
  end.

(** [QSlider.setValue]: the value is bounded to the slider's range, and
    [valueChanged] fires (running the handler connected at line 313) only
    when the bounded value differs from the current one.  Moving a slider by
    hand goes through the same path. *)
Definition setValue (name : param_name) (v : Z) (s : state) : state :=
  let sl := sliders s name in
  let v := Z.max (minimum sl) (Z.min (maximum sl) v) in
  if Z.eqb v (value sl) then s
  else
    let sl := {| minimum := minimum sl; maximum := maximum sl; value := v;
                 scale := scale sl |} in
    update_param name v
      (with_sliders (fun k => if param_name_eqb name k then sl else sliders s k) s).

(** [reset_defaults()] (lines 315-324); [defaults] is iterated in insertion
    order. *)
Definition defaults : list (param_name * Q) :=
  [ (smoothing, 15 # 10); (gamma, 2); (step_size, 5 # 10);
    (clim_min, 0); (clim_max, 70 # 100); (contrast, 8 # 10);
    (rotation_speed, 2); (brightness, 1);
    (percentile_min, 5); (percentile_max, 95);
    (frame_skip, 1); (log_scale, 0) ].

Definition reset_defaults (s : state) : state :=
  fold_left
    (fun s nv => setValue (fst nv) (int (snd nv * scale (sliders s (fst nv)))) s)
    defaults s.

(** The parameter store is range-checked by its sliders: every slider keeps
    the range and scale it was created with, holds a value inside the range,
    and the parameter is that value over the scale. *)
Definition range_checked (s : state) : Prop :=
  forall k,
    minimum (sliders s k) = minimum (initial_sliders default_params k)
    /\ maximum (sliders s k) = maximum (initial_sliders default_params k)
    /\ scale (sliders s k) = scale (initial_sliders default_params k)
    /\ (minimum (sliders s k) <= value (sliders s k) <= maximum (sliders s k))%Z
    /\ params s k == inject_Z (value (sliders s k)) / scale (sliders s k).

(** The series the ticks index: as long as the raw one, with the current
    frame inside. *)
Definition series_indexed (s : state) : Prop :=
  length (voxels s) = length (voxels_raw s)
  /\ (current_frame s < length (voxels s))%nat.

(** The live properties of the volume mirror the parameter store (lines
    265-269 at set-up, 303-308 in the handler). *)
Definition live_synced (s : state) : Prop :=
  vol_gamma (holo s) = params s gamma
  /\ relative_step_size (holo s) = params s step_size
  /\ clim (holo s) = (params s clim_min, params s clim_max).

(** The volume shows the current frame of the current processed series. *)
Definition showing_current_frame (s : state) : Prop :=
  nth_error (voxels s) (current_frame s) = Some (data (holo s)).

(** The [min_val] and [max_val] of the [create_slider] calls (lines
    198-209). *)
Definition declared_range (k : param_name) : Q * Q :=
  match k with
  | smoothing => (0, 5)
  | gamma => (5 # 10, 10)
  | step_size => (1 # 10, 2)
  | clim_min => (0, 5 # 10)
  | clim_max => (2 # 10, 1)
  | contrast => (3 # 10, 5)
  | rotation_speed => (0, 10)
  | brightness => (1 # 10, 2)
  | percentile_min => (0, 30)
  | percentile_max => (70, 100)
  | frame_skip => (1, 20)
  | log_scale => (0, 1)
  end.

Section Handlers.
Context {L : ArrayLib}.

(** [reprocess()] (lines 326-331).  The state returned is the one the
    globals are left in; an exception leaves the handler at the point
    where it is raised. *)
Definition reprocess (s : state) : state * option exn :=
  match process_voxels (params s) (voxels_raw s) with
  | Raise e => (s, Some e)
  | Ok v =>
      let s := with_voxels v s in
      match nth_error v (current_frame s) with
      | None => (s, Some IndexError)
      | Some frame => (with_holo (set_data frame (holo s)) s, None)
      end
  end.

(** The body of the [try] in [update(ev)] (lines 338-353); [dt] is
    [ev.dt]. *)
Definition update_body (dt : Q) (s : state) : state * option exn :=
  let skip := Z.max 1 (int (params s frame_skip)) in
  let n := length (voxels s) in
  if Nat.eqb n 0 then (s, Some ZeroDivisionError)
  else
    let i := Z.to_nat ((Z.of_nat (current_frame s) + skip) mod Z.of_nat n) in
    let s := with_current_frame i s in
    match nth_error (voxels s) i with
    | None => (s, Some IndexError)
    | Some frame_data =>
        let s := with_holo (set_data frame_data (holo s)) s in
        let s := with_rotation_angle
                   (rotation_angle s + dt * params s rotation_speed) s in
        let fresh (m : MatrixTransform) :=
          rotate (rotation_angle s) z_axis
            (translate (neg3 (center s)) (reset m)) in
        let s := with_holo (set_transform (fresh (transform (holo s))) (holo s)) s in
        let s := with_elecs_transform (fresh (elecs_transform s)) s in
        (s, None)
    end.

(** [update(ev)]: the [except] prints the error and the timer goes on. *)
Definition update (dt : Q) (s : state) : state := fst (update_body dt s).

(** The script's set-up (lines 13-16, 86, 260-293) on the array loaded
    from [voxels.npy]; [nan_to_num] has nothing to replace in exact
    arithmetic. *)
Definition setup (loaded : series) : result state :=
  let raw := map (vmap Qabs) loaded in
  voxels <- process_voxels default_params raw ;;
  match voxels with
  | [] => Raise IndexError
  | first_frame :: _ =>
      let center := half_shape (shape first_frame) in
      Ok {| params := default_params;
            sliders := initial_sliders default_params;
            voxels_raw := raw;
            voxels := voxels;
            holo := {| data := first_frame;
                       clim := (default_params clim_min, default_params clim_max);
                       vol_gamma := default_params gamma;
                       relative_step_size := default_params step_size;
                       transform := translate (neg3 center) identity |};
            elecs_transform := translate (neg3 center) identity;
            center := center;
            current_frame := 0;
            rotation_angle := 0 |}
  end.

(** What can happen between two redraws. *)
Inductive action : Type :=
| SliderMoved (name : param_name) (v : Z)
| ResetClicked
| ReprocessClicked
| Tick (dt : Q).

Definition step (a : action) (s : state) : state :=
  match a with
  | SliderMoved name v => setValue name v s
  | ResetClicked => reset_defaults s
  | ReprocessClicked => fst (reprocess s)
  | Tick dt => update dt s
  end.

Definition run (acts : list action) (s : state) : state :=
  fold_left (fun s a => step a s) acts s.

End Handlers.

End Interactive.

(** ** viz_hologram.py *)

Module Hologram.
Import Py Np Vispy.

Definition rgba : Type := (Q * Q * Q * Q)%type.

Definition alpha (c : rgba) : Q := snd c.

(** [colors[:, 3] = a] on one row. *)
Definition set_alpha (a : Q) (c : rgba) : rgba :=
  let '(r, g, b, _) := c in (r, g, b, a).

(** What [measure.marching_cubes] returns. *)
Record geometry : Type := {
  verts : list vec3;
  faces : list (nat * nat * nat);
  normals : list vec3;
  values : list Q
}.

(** skimage, matplotlib and numpy's global random generator.
    [marching_cubes] raises when the level has no surface in the volume;
    [permutation n] is [np.random.permutation(n)], threading the
    generator's state. *)
Class SceneLib : Type := {
  marching_cubes : volume -> Q -> result geometry;
  COLORMAP : Q -> rgba;
  rng : Type;
  permutation : nat -> rng -> list nat * rng
}.

(** What is used of the generator: a permutation of [0..n-1]. *)
Class SceneLibLaws (L : SceneLib) : Prop := {
  permutation_perm :
    forall n g, Permutation (fst (permutation n g)) (seq 0 n)
}.

Definition ROTATION_SPEED : Q := 2.
Definition SHOW_ELECTRODES : bool := true.
Definition NUM_LAYERS : nat := 5.

(** [np.linspace(start, stop, num)]. *)
Definition linspace (start stop : Q) (num : nat) : list Q :=
  map (fun i => start + inject_Z (Z.of_nat i)
                        * ((stop - start) / (inject_Z (Z.of_nat num) - 1)))
      (seq 0 num).

Definition iso_levels : list Q := linspace (3 # 10) (8 # 10) NUM_LAYERS.

Record Mesh : Type := {
  vertices : list vec3;
  mesh_faces : list (nat * nat * nat);
  vertex_colors : list rgba;
  transform : MatrixTransform
}.

(** Every vertex of the mesh has its own entry in [vertex_colors], with
    alpha [a]. *)
Definition every_vertex_alpha (a : Q) (m : Mesh) : Prop :=
  forall i v,
    nth_error (vertices m) i = Some v ->
    exists c, nth_error (vertex_colors m) i = Some c /\ snd c == a.

Record Markers : Type := {
  pos : list vec3;
  face_color : list rgba;
  size : list Q;
  markers_transform : MatrixTransform
}.

(** A Python value as [create_particles] returns them in a tuple. *)
Inductive value : Type :=
| PyNone
| Positions (p : list vec3)
| Colors (c : list rgba)
| Sizes (s : list Q).

(** [a, b, c = t]: a tuple of any other length raises [ValueError]. *)
Definition unpack3 (t : list value) : result (value * value * value) :=
  match t with
  | [a; b; c] => Ok (a, b, c)
  | _ => Raise ValueError
  end.

Definition positions_of (v : value) : list vec3 :=
  match v with Positions p => p | _ => [] end.
Definition colors_of (v : value) : list rgba :=
  match v with Colors c => c | _ => [] end.
Definition sizes_of (v : value) : list Q :=
  match v with Sizes s => s | _ => [] end.

(** The number of particles in a tuple returned by [create_particles];
    [None] holds none. *)
Definition count (ret : list value) : nat :=
  match ret with
  | Positions p :: _ => length p
  | _ => 0%nat
  end.

(** Reading a function-local name that has not been assigned yet. *)
Definition read_local {A} (x : option A) : result A :=
  match x with
  | Some a => Ok a
  | None => Raise UnboundLocalError
  end.

Definition enumerate {A} (l : list A) : list (nat * A) :=
  combine (seq 0 (length l)) l.

(** [np.where(volume > threshold)]: the coordinates of the matching voxels
    in C order.  numpy returns three parallel index arrays; a list of
    triples holds the same data. *)
Definition where_gt (v : volume) (threshold : Q) : list (nat * nat * nat) :=
  flat_map (fun '(x, plane) =>
    flat_map (fun '(y, row) =>
      flat_map (fun '(z, val) =>
        if Qltb threshold val then [(x, y, z)] else [])
        (enumerate row))
      (enumerate plane))
    (enumerate v).

(** [volume[x, y, z]]. *)
Definition at3 (v : volume) (c : nat * nat * nat) : Q :=
  let '(x, y, z) := c in nth z (nth y (nth x v []) []) 0.

Definition float3 (c : nat * nat * nat) : vec3 :=
  let '(x, y, z) := c in
  (inject_Z (Z.of_nat x), inject_Z (Z.of_nat y), inject_Z (Z.of_nat z)).

Definition sub3 (a b : vec3) : vec3 :=
  let '(x, y, z) := a in
  let '(x', y', z') := b in (x - x', y - y', z - z').

(** [(x, y, z)] indexes a voxel of the volume. *)
Definition in_bounds (v : volume) (c : nat * nat * nat) : Prop :=
  (fst (fst c) < length v)%nat
  /\ (snd (fst c) < length (nth (fst (fst c)) v []))%nat
  /\ (snd c < length (nth (snd (fst c)) (nth (fst (fst c)) v []) []))%nat.

(** One step of the clean-and-normalise block (lines 17-22) on one value,
    given the two percentiles of the whole array. *)
Definition rescale (vmin vmax x : Q) : Q :=
  (clip x vmin vmax - vmin) / (vmax - vmin + (1 # 100000000)).

(** The largest finite float32; [voxels] is a float32 array. *)
Definition FLOAT32_MAX : Q := 340282346638528859811704183484516925440.

(** What a float32 computation gives: finite numbers, which the rationals
    follow, or an overflow to [inf] somewhere, after which the values
    ([inf], [nan] or clipped back) are not followed any further. *)
Inductive computed (A : Type) : Type :=
| Finite (a : A)
| Overflowed.
Arguments Finite {A} a.
Arguments Overflowed {A}.

(** Lines 17-22 on the loaded array, all frames at once: squared magnitude
    (which overflows above [FLOAT32_MAX]), the 5th and 99.5th percentiles of
    the whole array (line 19 raises on an array without elements), clip,
    rescale, square root.  [nan_to_num] has nothing to replace in a finite
    array. *)
Definition normalize {A : Interactive.ArrayLib} (loaded : series)
  : result (computed series) :=
  let voxels := map (vmap (fun x => Interactive.power (Qabs x) 2)) loaded in
  let all := concat (map ravel voxels) in
  if existsb (fun x => Qltb FLOAT32_MAX x) all then Ok Overflowed
  else
    bounds <- percentile2 all 5 (995 # 10) ;;
    let (vmin, vmax) := bounds in
    Ok (Finite
          (map (vmap (fun x => Interactive.power (rescale vmin vmax x) (5 # 10)))
               voxels)).

Section Scene.
Context {L : SceneLib}.

(** [np.random.choice(n, size, replace=False)] is the first [size]
    entries of a random permutation of [0..n-1]. *)
Definition choice (n size : nat) (g : rng) : list nat * rng :=
  let (p, g) := permutation n g in (firstn size p, g).

(** [create_particles(volume, threshold, max_points)] (lines 57-82). *)
Definition create_particles (volume : volume) (threshold : Q)
    (max_points : nat) (g : rng) : list value * rng :=
  let high_intensity := where_gt volume threshold in
  if Nat.eqb (length high_intensity) 0 then ([PyNone; PyNone], g)
  else
    let (indices, g) :=
      choice (length high_intensity)
             (Nat.min (length high_intensity) max_points) g in
    let picked := map (fun i => nth i high_intensity (0, 0, 0)%nat) indices in
    let positions := map float3 picked in
    let intensities := map (at3 volume) picked in
    let colors := map (fun v => set_alpha (v * (5 # 10)) (COLORMAP v)) intensities in
    let sizes := map (fun v => 2 + v * 6) intensities in
    ([Positions positions; Colors colors; Sizes sizes], g).

(** Lines 38-40 and 124-126: the colours of layer [idx]; [zdim] is
    [voxels.shape[3]]. *)
Definition layer_alpha (idx : nat) : Q :=
  (15 # 100) + (1 # 10) * (inject_Z (Z.of_nat (idx + 1))
                           / inject_Z (Z.of_nat NUM_LAYERS)).

Definition layer_colors (zdim idx : nat) (g : geometry) : list rgba :=
  map (fun v : vec3 =>
         set_alpha (layer_alpha idx)
                   (COLORMAP (snd v / inject_Z (Z.of_nat zdim))))
      (verts g).

(** [voxels.shape[3]] of the 4-D series. *)
Definition zdim (voxels : series) : nat := snd (shape (hd [] voxels)).

(** The loop of lines 33-54, from layer [idx] on: the [try] encloses the
    whole loop, so the first exception ends it. *)
Fixpoint create_layers (voxels : series) (idx : nat) (levels : list Q)
  : list Mesh :=
  match levels with
  | [] => []
  | level :: rest =>
      match (frame <- getitem voxels 0 ;;
             g <- marching_cubes frame level ;;
             Ok (frame, g)) with
      | Raise _ => []
      | Ok (frame, g) =>
          let center := half_shape (shape frame) in
          {| vertices := verts g; mesh_faces := faces g;
             vertex_colors := layer_colors (zdim voxels) idx g;
             transform := translate (neg3 center) identity |}
          :: create_layers voxels (S idx) rest
      end
  end.

(** The globals of the script after set-up. *)
Record state : Type := {
  voxels : series;
  mesh_layers : list Mesh;
  particles : option Markers;
  elec_markers : Markers;
  current_frame : nat;
  rotation : Q;
  gen : rng
}.

Definition with_mesh_layers (m : list Mesh) (s : state) : state :=
  {| voxels := voxels s; mesh_layers := m; particles := particles s;
     elec_markers := elec_markers s; current_frame := current_frame s;
     rotation := rotation s; gen := gen s |}.

Definition with_particles (p : option Markers) (s : state) : state :=
  {| voxels := voxels s; mesh_layers := mesh_layers s; particles := p;
     elec_markers := elec_markers s; current_frame := current_frame s;
     rotation := rotation s; gen := gen s |}.

Definition with_elec_markers (e : Markers) (s : state) : state :=
  {| voxels := voxels s; mesh_layers := mesh_layers s;
     particles := particles s;
     elec_markers := e; current_frame := current_frame s;
     rotation := rotation s; gen := gen s |}.

Definition with_current_frame (i : nat) (s : state) : state :=
  {| voxels := voxels s; mesh_layers := mesh_layers s;
     particles := particles s;
     elec_markers := elec_markers s; current_frame := i;
     rotation := rotation s; gen := gen s |}.

Definition with_rotation (r : Q) (s : state) : state :=
  {| voxels := voxels s; mesh_layers := mesh_layers s;
     particles := particles s;
     elec_markers := elec_markers s; current_frame := current_frame s;
     rotation := r; gen := gen s |}.

Definition with_gen (g : rng) (s : state) : state :=
  {| voxels := voxels s; mesh_layers := mesh_layers s;
     particles := particles s;
     elec_markers := elec_markers s; current_frame := current_frame s;
     rotation := rotation s; gen := g |}.

Definition mesh_set_data (g : geometry) (colors : list rgba) (m : Mesh) : Mesh :=
  {| vertices := verts g; mesh_faces := faces g; vertex_colors := colors;
     transform := transform m |}.

(** What [set_data] replaces of a mesh. *)
Definition geometry_of (m : Mesh)
  : list vec3 * list (nat * nat * nat) * list rgba :=
  (vertices m, mesh_faces m, vertex_colors m).

Definition mesh_set_transform (t : MatrixTransform) (m : Mesh) : Mesh :=
  {| vertices := vertices m; mesh_faces := mesh_faces m;
     vertex_colors := vertex_colors m; transform := t |}.

Definition markers_set_data (p : list vec3) (c : list rgba) (sz : list Q)
    (m : Markers) : Markers :=
  {| pos := p; face_color := c; size := sz;
     markers_transform := markers_transform m |}.

Definition markers_set_transform (t : MatrixTransform) (m : Markers) : Markers :=
  {| pos := pos m; face_color := face_color m; size := size m;
     markers_transform := t |}.

(** The set-up of lines 30-112 on the normalised series [voxels] and the
    electrode positions [ch_pos].  An exception outside a [try] ends the
    script. *)
Definition setup (voxels : series) (ch_pos : list vec3) (g : rng)
  : result state :=
  let mesh_layers := create_layers voxels 0 iso_levels in
  frame0 <- getitem voxels 0 ;;
  let (ret, g) := create_particles frame0 (8 # 10) 3000 g in
  unpacked <- unpack3 ret ;;
  let '(pos, cols, szs) := unpacked in
  let center := half_shape (shape frame0) in
  let particles :=
    match pos with
    | PyNone => None
    | _ => Some {| pos := positions_of pos; face_color := colors_of cols;
                   size := sizes_of szs;
                   markers_transform := translate (neg3 center) identity |}
    end in
  let center_pos := half_shape (shape frame0) in
  Ok {| voxels := voxels;
        mesh_layers := mesh_layers;
        particles := particles;
        elec_markers :=
          {| pos := map (fun p => sub3 p center_pos) ch_pos;
             face_color := [(3 # 10, 8 # 10, 1, 4 # 10)];
             size := [4];
             markers_transform := identity |};
        current_frame := 0;
        rotation := 0;
        gen := g |}.

(** Lines 120-130: the inner [try] is per layer, and its bare [except]
    leaves the mesh as it was. *)
Fixpoint update_layers (voxels : series) (i idx : nat)
    (meshes : list Mesh) (levels : list Q) : list Mesh :=
  match meshes, levels with
  | mesh :: meshes', level :: levels' =>
      match (frame <- getitem voxels i ;; marching_cubes frame level) with
      | Ok g => mesh_set_data g (layer_colors (zdim voxels) idx g) mesh
      | Raise _ => mesh
      end :: update_layers voxels i (S idx) meshes' levels'
  | _, _ => meshes
  end.

(** Lines 132-136.  [center] is assigned further down in [update] (line
    140), which makes the name local to the function: at line 136 it has
    no value yet. *)
Definition update_particles (s : state) : state * option exn :=
  match particles s with
  | None => (s, None)
  | Some pm =>
      match getitem (voxels s) (current_frame s) with
      | Raise e => (s, Some e)
      | Ok frame =>
          let (ret, g) := create_particles frame (8 # 10) 3000 (gen s) in
          let s := with_gen g s in
          match unpack3 ret with
          | Raise e => (s, Some e)
          | Ok (PyNone, _, _) => (s, None)
          | Ok (pos, cols, szs) =>
              let center : option vec3 := None in
              match read_local center with
              | Raise e => (s, Some e)
              | Ok center =>
                  (with_particles
                     (Some (markers_set_data
                              (map (fun x => sub3 x center) (positions_of pos))
                              (colors_of cols) (sizes_of szs) pm)) s,
                   None)
              end
          end
      end
  end.

(** Lines 138-154. *)
Definition rotate_everything (dt : Q) (s : state) : state * option exn :=
  let s := with_rotation (rotation s + dt * ROTATION_SPEED) s in
  match getitem (voxels s) 0 with
  | Raise e => (s, Some e)
  | Ok frame0 =>
      let center := half_shape (shape frame0) in
      let fresh (m : MatrixTransform) :=
        rotate (rotation s) z_axis (translate (neg3 center) (reset m)) in
      let s := with_mesh_layers
                 (map (fun m => mesh_set_transform (fresh (transform m)) m)
                      (mesh_layers s)) s in
      let s := with_particles
                 (option_map
                    (fun m => markers_set_transform
                                (fresh (markers_transform m)) m)
                    (particles s)) s in
      let s := if SHOW_ELECTRODES
               then with_elec_markers
                      (markers_set_transform
                         (rotate (rotation s) z_axis
                            (reset (markers_transform (elec_markers s))))
                         (elec_markers s)) s
               else s in
      (s, None)
  end.

(** The body of the outer [try] of [update(ev)] (lines 116-154). *)
Definition update_body (dt : Q) (s : state) : state * option exn :=
  let n := length (voxels s) in
  if Nat.eqb n 0 then (s, Some ZeroDivisionError)
  else
    let i := ((current_frame s + 1) mod n)%nat in
    let s := with_current_frame i s in
    let s := with_mesh_layers
               (update_layers (voxels s) i 0 (mesh_layers s) iso_levels) s in
    match update_particles s with
    | (s, Some e) => (s, Some e)
    | (s, None) => rotate_everything dt s
    end.

(** [update(ev)]: the outer [except] passes silently. *)
Definition update (dt : Q) (s : state) : state := fst (update_body dt s).

Definition run (dts : list Q) (s : state) : state :=
  fold_left (fun s dt => update dt s) dts s.

End Scene.

End Hologram.

(** ** Concrete libraries and data for running the scripts

    Rational stand-ins for the two interfaces, used to evaluate the model on
    explicit inputs. *)

Module Samples.
Import Py Np Vispy.

(** [x ** c] is rational when [c] is an integer, which is where this
    instance is exact; a fractional exponent is rounded down.  [log] is
    exact at 1 only (first-order expansion elsewhere).  [gaussian_filter] is
    the filter of a kernel of radius 0, which is the kernel scipy builds for
    [sigma < 1/8] (radius [int(4 * sigma + 0.5)]). *)
Definition array_lib : Interactive.ArrayLib :=
  {| Interactive.log := fun x => x - 1;
     Interactive.power := fun x c => Qpower x (Qfloor c);
     Interactive.gaussian_filter := fun v _ => v |}.

(** A second stand-in for [**]: the square for exponent 2, and for every
    other exponent the identity on its base, which like a true positive
    power fixes 0 and 1 and keeps [0,1] inside [0,1]. *)
Definition unit_lib : Interactive.ArrayLib :=
  {| Interactive.log := fun x => x - 1;
     Interactive.power := fun x c => if Qeq_bool c 2 then x * x else x;
     Interactive.gaussian_filter := fun v _ => v |}.

Definition volume_min (v : volume) : Q :=
  fold_right Qmin (hd 0 (ravel v)) (ravel v).
Definition volume_max (v : volume) : Q :=
  fold_right Qmax (hd 0 (ravel v)) (ravel v).

(** skimage rejects a level outside the data range of the volume with
    [ValueError]; this instance does the same and otherwise returns the
    matching voxels as vertices of a mesh without faces.  The colormap is a
    grey ramp, the generator returns the reversed range. *)
Definition scene_lib : Hologram.SceneLib :=
  {| Hologram.marching_cubes := fun v level =>
       if Qltb level (volume_min v) || Qltb (volume_max v) level
       then Raise ValueError
       else Ok {| Hologram.verts := map Hologram.float3 (Hologram.where_gt v level);
                  Hologram.faces := [];
                  Hologram.normals := [];
                  Hologram.values := [] |};
     Hologram.COLORMAP := fun x => (x, x, x, 1);
     Hologram.rng := nat;
     Hologram.permutation := fun n g => (rev (seq 0 n), S g) |}.

(** A 2x2x2 frame filled with one value. *)
Definition flat (x : Q) : volume :=
  [ [ [x; x]; [x; x] ]; [ [x; x]; [x; x] ] ].

(** A 2x2x2 frame with values from 0.5 to 1: the two lowest levels of
    [iso_levels] are below its data range, the other three inside. *)
Definition upper : volume :=
  [ [ [5 # 10; 6 # 10]; [7 # 10; 75 # 100] ]; [ [8 # 10; 9 # 10]; [95 # 100; 1] ] ].

(** A 2x2x2 frame with values from 0 to 1. *)
Definition ramp : volume :=
  [ [ [0; 1 # 10]; [2 # 10; 4 # 10] ]; [ [6 # 10; 85 # 100]; [9 # 10; 1] ] ].

(** Parameters at which [array_lib] is exact: contrast 1, no smoothing,
    the rest at their defaults (slider positions 100 and 0). *)
Definition exact_params : Interactive.params_t :=
  Interactive.set_param Interactive.contrast 1
    (Interactive.set_param Interactive.smoothing 0 Interactive.default_params).

Definition raw2 : series := [ramp; flat (1 # 2)].

(** The interactive script on [raw2] under [exact_params]. *)
Definition interactive_state : Interactive.state :=
  {| Interactive.params := exact_params;
     Interactive.sliders := Interactive.initial_sliders exact_params;
     Interactive.voxels_raw := raw2;
     Interactive.voxels :=
       match Interactive.process_voxels (L := array_lib) exact_params raw2 with
       | Ok v => v
       | Raise _ => []
       end;
     Interactive.holo :=
       {| Interactive.data := ramp;
          Interactive.clim := (0, 70 # 100);
          Interactive.vol_gamma := 2;
          Interactive.relative_step_size := 5 # 10;
          Interactive.transform := translate (neg3 (1, 1, 1)) identity |};
     Interactive.elecs_transform := translate (neg3 (1, 1, 1)) identity;
     Interactive.center := (1, 1, 1);
     Interactive.current_frame := 0;
     Interactive.rotation_angle := 0 |}.

(** The hologram script set up on a series; the fallback is never taken on
    the two series below. *)
Definition hologram_setup (voxels : series) : Hologram.state :=
  match Hologram.setup (L := scene_lib) voxels [(1, 1, 1)] 0%nat with
  | Ok s => s
  | Raise _ =>
      {| Hologram.voxels := voxels;
         Hologram.mesh_layers := [];
         Hologram.particles := None;
         Hologram.elec_markers :=
           {| Hologram.pos := []; Hologram.face_color := [];
              Hologram.size := []; Hologram.markers_transform := identity |};
         Hologram.current_frame := 0;
         Hologram.rotation := 0;
         Hologram.gen := (0%nat : @Hologram.rng scene_lib) |}
  end.

(** Frame 0 has a surface at every level and voxels above 0.8. *)
Definition scene_state : Hologram.state := hologram_setup [ramp; flat (9 # 10)].

(** Five layers from frame 0; frame 1 has no surface at the two lowest
    levels. *)
Definition mixed_state : Hologram.state := hologram_setup [ramp; upper].

(** Frame 0 is flat at 0.9: no level of [iso_levels] lies in its data
    range, while frame 1 has a surface at each of them. *)
Definition blocked_state : Hologram.state := hologram_setup [flat (9 # 10); ramp].

(** The all-zero 4x4x4 frame. *)
Definition zeros444 : volume :=
  repeat (repeat (repeat 0 4) 4) 4.

(** The all-zero 4x4x4 frame with the voxel at (0, 0, 0) set to 1. *)
Definition one_hot444 : volume :=
  ((1 :: repeat 0 3) :: repeat (repeat 0 4) 3) :: repeat (repeat (repeat 0 4) 4) 3.

End Samples.

(** * Properties *)

(** ** numpy helpers *)

Module NpFacts.
Import Py Np.

Lemma Qltb_lt x y : Qltb x y = true <-> x < y.
Proof.
  unfold Qltb. rewrite negb_true_iff.
  destruct (Qle_bool y x) eqn:E.
  - apply Qle_bool_iff in E. split; [discriminate | intro H].
    exfalso. apply (Qlt_not_le _ _ H E).
  - split; [intros _ | reflexivity].
    apply Qnot_le_lt. intro H. apply Qle_bool_iff in H. congruence.
Qed.

Lemma Qltb_ge x y : Qltb x y = false <-> y <= x.
Proof.
  unfold Qltb. rewrite negb_false_iff. apply Qle_bool_iff.
Qed.

Lemma clip_bounds x lo hi : lo <= hi -> lo <= clip x lo hi <= hi.
Proof.
  intro H. unfold clip. split.
  - apply Q.min_glb; [apply Q.le_max_r | exact H].
  - apply Q.le_min_r.
Qed.

Lemma clip_id x lo hi : lo <= x -> x <= hi -> clip x lo hi = x.
Proof.
  intros Hlo Hhi. unfold clip.
  assert (E : Qmax x lo = x).
  { unfold Qmax, GenericMinMax.gmax.
    destruct (x ?= lo) eqn:C; try reflexivity.
    apply Qlt_alt in C. exfalso. apply (Qlt_not_le _ _ C Hlo). }
  rewrite E. unfold Qmin, GenericMinMax.gmin.
  destruct (x ?= hi) eqn:C; try reflexivity.
  apply Qgt_alt in C. exfalso. apply (Qlt_not_le _ _ C Hhi).
Qed.

Lemma Ok_inj {A} (x y : A) : Ok x = Ok y -> x = y.
Proof. intro H. injection H. trivial. Qed.

Lemma Some_inj {A} (x y : A) : Some x = Some y -> x = y.
Proof. intro H. injection H. trivial. Qed.

Lemma length_eqb_0 {A} (l : list A) : l <> [] -> Nat.eqb (length l) 0 = false.
Proof. destruct l; [congruence | reflexivity]. Qed.

Lemma percentile_ok a q :
  a <> [] -> 0 <= q -> q <= 100 -> exists v, percentile a q = Ok v.
Proof.
  intros Hne H0 H1. unfold percentile.
  apply Qle_bool_iff in H0. apply Qle_bool_iff in H1.
  rewrite H0, H1, (length_eqb_0 a Hne). cbn [andb negb]. eexists. reflexivity.
Qed.

Lemma percentile_nil q v : percentile [] q <> Ok v.
Proof.
  unfold percentile. cbn [length Nat.eqb].
  destruct (negb (Qle_bool 0 q && Qle_bool q 100)); discriminate.
Qed.

Lemma percentile_empty q :
  0 <= q -> q <= 100 -> percentile [] q = Raise IndexError.
Proof.
  intros H0 H1. unfold percentile.
  apply Qle_bool_iff in H0. apply Qle_bool_iff in H1.
  rewrite H0, H1. reflexivity.
Qed.

Lemma percentile_valid a q v :
  percentile a q = Ok v -> Qle_bool 0 q && Qle_bool q 100 = true.
Proof.
  unfold percentile. destruct (Qle_bool 0 q && Qle_bool q 100);
    [reflexivity | discriminate].
Qed.

Lemma percentile2_ok a q1 q2 v1 v2 :
  percentile a q1 = Ok v1 -> percentile a q2 = Ok v2 ->
  percentile2 a q1 q2 = Ok (v1, v2).
Proof.
  intros H1 H2. unfold percentile2.
  rewrite (percentile_valid _ _ _ H1), (percentile_valid _ _ _ H2), H1, H2.
  reflexivity.
Qed.

Lemma percentile2_inv a q1 q2 v1 v2 :
  percentile2 a q1 q2 = Ok (v1, v2) ->
  percentile a q1 = Ok v1 /\ percentile a q2 = Ok v2.
Proof.
  unfold percentile2.
  destruct (negb _); [discriminate |].
  destruct (percentile a q1) as [w1 |]; cbn [bind]; [| discriminate].
  destruct (percentile a q2) as [w2 |]; cbn [bind]; [| discriminate].
  intros H. apply Ok_inj in H. injection H as -> ->. split; reflexivity.
Qed.

Lemma percentile2_raises a q1 q2 :
  (q1 < 0 \/ 100 < q1 \/ q2 < 0 \/ 100 < q2) ->
  percentile2 a q1 q2 = Raise ValueError.
Proof.
  intros H. unfold percentile2.
  assert (E : (Qle_bool 0 q1 && Qle_bool q1 100)
              && (Qle_bool 0 q2 && Qle_bool q2 100) = false).
  { destruct (Qle_bool 0 q1) eqn:A; [| reflexivity].
    destruct (Qle_bool q1 100) eqn:B; [| reflexivity].
    destruct (Qle_bool 0 q2) eqn:C; [| reflexivity].
    destruct (Qle_bool q2 100) eqn:D; [| reflexivity].
    apply Qle_bool_iff in A, B, C, D. exfalso.
    destruct H as [H | [H | [H | H]]];
      [ exact (Qlt_not_le _ _ H A) | exact (Qlt_not_le _ _ H B)
      | exact (Qlt_not_le _ _ H C) | exact (Qlt_not_le _ _ H D) ]. }
  rewrite E. reflexivity.
Qed.

Lemma percentile2_empty q1 q2 :
  0 <= q1 -> q1 <= 100 -> 0 <= q2 -> q2 <= 100 ->
  percentile2 [] q1 q2 = Raise IndexError.
Proof.
  intros A B C D. unfold percentile2.
  rewrite (percentile_empty q1 A B).
  apply Qle_bool_iff in A, B, C, D. rewrite A, B, C, D. reflexivity.
Qed.

Lemma ravel_vmap f v : ravel (vmap f v) = map f (ravel v).
Proof.
  unfold ravel, vmap. rewrite concat_map, !map_map. f_equal.
  apply map_ext. intros plane. rewrite concat_map. reflexivity.
Qed.

Lemma ravel_vmap_nil f v : ravel (vmap f v) = [] <-> ravel v = [].
Proof.
  rewrite ravel_vmap. split; [apply map_eq_nil | intros ->; reflexivity].
Qed.

Lemma percentile_raises a q :
  (q < 0 \/ 100 < q) -> percentile a q = Raise ValueError.
Proof.
  intros H. unfold percentile.
  assert (E : Qle_bool 0 q && Qle_bool q 100 = false).
  { apply andb_false_iff. destruct H as [H | H]; [left | right];
      apply Qltb_ge in H || idtac;
      (destruct (Qle_bool _ _) eqn:E; [ | reflexivity]);
      apply Qle_bool_iff in E; exfalso; apply (Qlt_not_le _ _ H E). }
  rewrite E. reflexivity.
Qed.

Lemma mapM_ok {A B} (f : A -> result B) xs :
  (forall x, In x xs -> exists y, f x = Ok y) ->
  exists ys, mapM f xs = Ok ys.
Proof.
  induction xs as [| x xs IH]; intros H; simpl.
  - eexists. reflexivity.
  - destruct (H x (or_introl eq_refl)) as [y Hy]. rewrite Hy. simpl.
    destruct IH as [ys Hys]; [intros; apply H; right; assumption |].
    rewrite Hys. simpl. eexists. reflexivity.
Qed.

(** A successful loop ran its body on every element, in order. *)
Lemma mapM_Forall2 {A B} (f : A -> result B) xs ys :
  mapM f xs = Ok ys -> Forall2 (fun x y => f x = Ok y) xs ys.
Proof.
  revert ys. induction xs as [| x xs IH]; intros ys H; simpl in H.
  - inversion H. constructor.
  - destruct (f x) as [y |] eqn:Hy; simpl in H; [| discriminate].
    destruct (mapM f xs) as [ys' |] eqn:Hys; simpl in H; [| discriminate].
    inversion H; subst. constructor; [exact Hy | apply IH; reflexivity].
Qed.

End NpFacts.

(** ** The normalization pipeline of viz_interactive.py *)

Module InteractiveFacts.
Import Py Np Vispy Interactive NpFacts.

Section Pipeline.
Context {L : ArrayLib}.

Lemma tone_unit p x : 0 <= tone p x <= 1.
Proof. unfold tone. apply clip_bounds. discriminate. Qed.

Lemma vmap_within f lo hi v :
  (forall x, lo <= f x <= hi) -> within lo hi (vmap f v).
Proof.
  intros Hf. unfold within, vmap.
  apply Forall_map, Forall_forall. intros plane _.
  apply Forall_map, Forall_forall. intros row _.
  apply Forall_map, Forall_forall. intros x _. apply Hf.
Qed.

Lemma smooth_map p v : smooth p v = map (smooth_frame p) v.
Proof.
  unfold smooth, smooth_frame. destruct (Qltb 0 (p smoothing)).
  - reflexivity.
  - symmetry. apply map_id.
Qed.

Lemma smooth_frame_within `{!ArrayLibLaws L} p lo hi frame :
  within lo hi frame -> within lo hi (smooth_frame p frame).
Proof.
  intro H. unfold smooth_frame. destruct (Qltb 0 (p smoothing)).
  - apply gaussian_filter_within, H.
  - exact H.
Qed.

Lemma normalize_frame_ok p frame :
  ravel frame <> [] ->
  0 <= p percentile_min -> p percentile_min <= 100 ->
  0 <= p percentile_max -> p percentile_max <= 100 ->
  exists out, normalize_frame p frame = Ok out.
Proof.
  intros Hne A B C D. unfold normalize_frame.
  destruct (percentile_ok (ravel frame) _ Hne A B) as [vmin E1].
  destruct (percentile_ok (ravel frame) _ Hne C D) as [vmax E2].
  rewrite (percentile2_ok _ _ _ _ _ E1 E2). cbn [bind]. eexists. reflexivity.
Qed.

Lemma normalize_frame_has_voxels p frame base :
  normalize_frame p frame = Ok base -> ravel frame <> [].
Proof.
  unfold normalize_frame. intros H E. rewrite E in H.
  destruct (percentile2 [] (p percentile_min) (p percentile_max))
    as [[v1 v2] |] eqn:Ev; [| discriminate].
  apply percentile2_inv in Ev. exact (percentile_nil _ _ (proj1 Ev)).
Qed.

Lemma log_mix_has_voxels p raw : has_voxels (log_mix p raw) <-> has_voxels raw.
Proof.
  unfold log_mix, has_voxels. destruct (Qltb 0 (p log_scale)); [| reflexivity].
  rewrite Forall_map. split; apply Forall_impl; intros frame H E; apply H.
  - apply ravel_vmap_nil. exact E.
  - apply ravel_vmap_nil in E. exact E.
Qed.

(** The processed series, frame by frame: the output has one frame per
    input frame, each the smoothed, toned result of its own loop
    iteration. *)
Lemma process_voxels_frames p raw out :
  process_voxels p raw = Ok out ->
  Forall2 (fun frame o =>
             exists base, normalize_frame p frame = Ok base
                          /\ o = smooth_frame p (vmap (tone p) base))
          (log_mix p raw) out.
Proof.
  unfold process_voxels. intros H.
  destruct (mapM (normalize_frame p) (log_mix p raw)) as [bases |] eqn:E;
    simpl in H; [| discriminate].
  inversion H; subst; clear H.
  apply mapM_Forall2 in E. rewrite smooth_map.
  induction E as [| frame base fs bs Hb _ IH]; simpl; constructor.
  - exists base. split; [exact Hb | reflexivity].
  - exact IH.
Qed.

Lemma process_voxels_within `{!ArrayLibLaws L} p raw out :
  process_voxels p raw = Ok out -> Forall (within 0 1) out.
Proof.
  intros H. apply process_voxels_frames in H.
  induction H as [| frame o fs os [base [_ ->]] _ IH]; constructor.
  - apply smooth_frame_within, vmap_within, tone_unit.
  - exact IH.
Qed.

Lemma process_voxels_ok p raw :
  has_voxels raw ->
  0 <= p percentile_min -> p percentile_min <= 100 ->
  0 <= p percentile_max -> p percentile_max <= 100 ->
  exists out, process_voxels p raw = Ok out.
Proof.
  intros Hv A B C D. unfold process_voxels.
  apply (log_mix_has_voxels p) in Hv. unfold has_voxels in Hv.
  rewrite Forall_forall in Hv.
  destruct (mapM_ok (normalize_frame p) (log_mix p raw)) as [bases ->].
  - intros frame Hf. apply normalize_frame_ok; auto.
  - simpl. eexists. reflexivity.
Qed.

(** A series that [process_voxels] got through has a voxel in every
    frame: [np.percentile] raises on the others. *)
Lemma process_voxels_has_voxels p raw out :
  process_voxels p raw = Ok out -> has_voxels raw.
Proof.
  intros H. apply process_voxels_frames in H.
  apply (log_mix_has_voxels p). unfold has_voxels.
  induction H as [| frame o fs os [base [Hb _]] _ IH]; constructor;
    [exact (normalize_frame_has_voxels _ _ _ Hb) | exact IH].
Qed.

(** C1.  For every raw series and every parameter snapshot with
    [percentile_min < percentile_max], every value of every frame of the
    series that [process_voxels] returns lies in [0,1]; and with the two
    percentiles inside [0,100], where [np.percentile] accepts them, and a
    voxel in every frame, [process_voxels] does return a series. *)
Theorem process_voxels_unit_interval `{!ArrayLibLaws L} p raw :
  p percentile_min < p percentile_max ->
  (forall out, process_voxels p raw = Ok out -> Forall (within 0 1) out)
  /\ (0 <= p percentile_min -> p percentile_max <= 100 ->
      has_voxels raw ->
      exists out, process_voxels p raw = Ok out).
Proof.
  intros Hlt. split.
  - intros out. apply process_voxels_within.
  - intros Hmin Hmax Hv.
    apply process_voxels_ok; try assumption.
    + apply Qle_trans with (p percentile_max); [apply Qlt_le_weak |]; assumption.
    + apply Qle_trans with (p percentile_min); [| apply Qlt_le_weak]; assumption.
Qed.

End Pipeline.

Lemma array_lib_laws : ArrayLibLaws Samples.array_lib.
Proof. constructor. intros v sigma lo hi H. exact H. Qed.

Lemma process_voxels_unit_interval_witness :
  default_params percentile_min < default_params percentile_max
  /\ (forall out,
        process_voxels (L := Samples.array_lib) default_params
          [Samples.ramp; Samples.flat (1 # 2)] = Ok out ->
        Forall (within 0 1) out)
  /\ (exists out,
        process_voxels (L := Samples.array_lib) default_params
          [Samples.ramp; Samples.flat (1 # 2)] = Ok out).
Proof.
  split; [reflexivity |].
  destruct (@process_voxels_unit_interval Samples.array_lib array_lib_laws
              default_params [Samples.ramp; Samples.flat (1 # 2)] eq_refl)
    as [A B].
  split; [exact A |].
  apply B; [discriminate | discriminate |].
  repeat constructor; discriminate.
Defined.

(** *** Frames whose percentile bounds collapse *)

Lemma Forall2_nth_error {A B} (R : A -> B -> Prop) xs ys i x :
  Forall2 R xs ys -> nth_error xs i = Some x ->
  exists y, nth_error ys i = Some y /\ R x y.
Proof.
  intros H. revert i. induction H as [| x0 y0 xs ys Hxy _ IH]; intros i Hi.
  - destruct i; discriminate.
  - destruct i as [| i]; simpl in *.
    + inversion Hi; subst. exists y0. split; [reflexivity | exact Hxy].
    + apply IH, Hi.
Qed.

Lemma insert_sorted_const c l :
  Forall (eq c) l -> insert_sorted c l = c :: l.
Proof.
  intros H. destruct H as [| y l Hy Hl]; simpl; [reflexivity |].
  subst y. assert (E : Qle_bool c c = true) by (apply Qle_bool_iff, Qle_refl).
  rewrite E. reflexivity.
Qed.

Lemma sort_const c l : Forall (eq c) l -> sort l = l.
Proof.
  unfold sort. induction 1 as [| y l Hy Hl IH]; simpl; [reflexivity |].
  subst y. rewrite IH. apply insert_sorted_const, Hl.
Qed.

Lemma nth_const c (l : list Q) i d :
  Forall (eq c) l -> (i < length l)%nat -> nth i l d = c.
Proof.
  intros H Hi. rewrite Forall_forall in H. symmetry. apply H, nth_In, Hi.
Qed.

(** Any percentile of constant data is that constant. *)
Lemma percentile_const c a q v :
  Forall (eq c) a -> a <> [] -> percentile a q = Ok v -> v == c.
Proof.
  intros Hc Hne. unfold percentile.
  destruct (Qle_bool 0 q && Qle_bool q 100) eqn:Hq; cbn [negb]; [| discriminate].
  rewrite (length_eqb_0 a Hne).
  apply andb_true_iff in Hq. destruct Hq as [Hq0 Hq1].
  apply Qle_bool_iff in Hq0. apply Qle_bool_iff in Hq1.
  rewrite (sort_const c a Hc).
  assert (Hn : (0 < length a)%nat) by (destruct a; [congruence | simpl; lia]).
  set (n := length a) in *.
  set (N := inject_Z (Z.of_nat n)).
  assert (HN : 1 <= N).
  { unfold N. change 1 with (inject_Z 1). rewrite <- Zle_Qle. lia. }
  set (vidx := q / 100 * (N - 1)).
  assert (Hv0 : 0 <= vidx).
  { unfold vidx. apply Qmult_le_0_compat; [| lra].
    apply Qle_shift_div_l; [reflexivity | lra]. }
  destruct (Qle_bool (N - 1) vidx) eqn:Hlast; intros Hv;
    apply Ok_inj in Hv; rewrite <- Hv; clear Hv.
  - rewrite (nth_const c a (n - 1) 0 Hc) by lia. ring.
  - assert (Hlt : vidx < N - 1).
    { apply Qnot_le_lt. intro H. apply Qle_bool_iff in H. congruence. }
    assert (Hlo0 : (0 <= Qfloor vidx)%Z).
    { change 0%Z with (Qfloor 0). apply Qfloor_resp_le, Hv0. }
    assert (Hlo1 : (Qfloor vidx + 1 < Z.of_nat n)%Z).
    { assert (H : inject_Z (Qfloor vidx) < N - 1).
      { apply Qle_lt_trans with vidx; [apply Qfloor_le | exact Hlt]. }
      assert (H' : inject_Z (Qfloor vidx + 1) < N).
      { rewrite inject_Z_plus. change (inject_Z 1) with 1. lra. }
      unfold N in H'. rewrite <- Zlt_Qlt in H'. exact H'. }
    rewrite (nth_const c a (Z.to_nat (Qfloor vidx)) 0 Hc) by (fold n; lia).
    rewrite (nth_const c a (Z.to_nat (Qfloor vidx + 1)) 0 Hc) by (fold n; lia).
    ring.
Qed.

(** A constant-valued frame is one whose bounds collapse, whatever the two
    percentiles. *)
Lemma constant_frame_collapses c frame q1 q2 v1 v2 :
  Forall (eq c) (ravel frame) ->
  percentile (ravel frame) q1 = Ok v1 ->
  percentile (ravel frame) q2 = Ok v2 ->
  Qltb v1 v2 = false.
Proof.
  intros Hc H1 H2. apply Qltb_ge.
  destruct (ravel frame) as [| x l] eqn:E.
  - destruct (percentile_nil _ _ H1).
  - assert (A : v1 == c) by (eapply percentile_const; eauto; discriminate).
    assert (B : v2 == c) by (eapply percentile_const; eauto; discriminate).
    rewrite A, B. apply Qle_refl.
Qed.

Section Degenerate.
Context {L : ArrayLib}.

Lemma normalize_frame_cases p frame vmin vmax base :
  normalize_frame p frame = Ok base ->
  percentile (ravel frame) (p percentile_min) = Ok vmin ->
  percentile (ravel frame) (p percentile_max) = Ok vmax ->
  (vmax <= vmin -> base = frame)
  /\ (vmin < vmax ->
      base = vmap (fun x => clip ((x - vmin) / (vmax - vmin)) 0 1) frame).
Proof.
  unfold normalize_frame. intros H Hmin Hmax.
  rewrite (percentile2_ok _ _ _ _ _ Hmin Hmax) in H. cbn [bind] in H.
  apply Ok_inj in H. subst base.
  split; intros Hc.
  - apply Qltb_ge in Hc. rewrite Hc. reflexivity.
  - apply Qltb_lt in Hc. rewrite Hc. reflexivity.
Qed.

(** C2, as the code has it.  A frame whose percentile bounds collapse
    ([vmax <= vmin]; every constant-valued frame is one) is not rescaled:
    contrast, brightness, the final clip and the smoothing are applied to
    its values as they are, so its output lies in [0,1] but is not zeroed.
    Every frame with [vmin < vmax] is clipped and rescaled first. *)
Theorem collapsed_frame_left_unscaled `{!ArrayLibLaws L}
    p raw out i frame vmin vmax :
  process_voxels p raw = Ok out ->
  nth_error (log_mix p raw) i = Some frame ->
  percentile (ravel frame) (p percentile_min) = Ok vmin ->
  percentile (ravel frame) (p percentile_max) = Ok vmax ->
  exists o,
    nth_error out i = Some o
    /\ within 0 1 o
    /\ (vmax <= vmin -> o = smooth_frame p (vmap (tone p) frame))
    /\ (forall c, Forall (eq c) (ravel frame) ->
                  o = smooth_frame p (vmap (tone p) frame))
    /\ (vmin < vmax ->
        o = smooth_frame p
              (vmap (tone p)
                 (vmap (fun x => clip ((x - vmin) / (vmax - vmin)) 0 1)
                       frame))).
Proof.
  intros Hout Hi Hmin Hmax.
  destruct (Forall2_nth_error _ _ _ _ _ (process_voxels_frames _ _ _ Hout) Hi)
    as [o [Ho [base [Hbase ->]]]].
  destruct (normalize_frame_cases _ _ _ _ _ Hbase Hmin Hmax) as [Hflat Hscaled].
  exists (smooth_frame p (vmap (tone p) base)).
  split; [exact Ho |]. split; [| split; [| split]].
  - apply smooth_frame_within, vmap_within, tone_unit.
  - intros Hc. rewrite (Hflat Hc). reflexivity.
  - intros c Hconst. rewrite Hflat; [reflexivity |].
    apply Qltb_ge. eapply constant_frame_collapses; eassumption.
  - intros Hc. rewrite (Hscaled Hc). reflexivity.
Qed.

End Degenerate.

Lemma collapsed_frame_left_unscaled_witness :
  let p := set_param contrast 1 (set_param smoothing 0 default_params) in
  exists o,
    nth_error [Samples.flat (1 # 2); Samples.ramp] 0 = Some o
    /\ within 0 1 o
    /\ (400 # 800 <= 400 # 800 ->
        o = smooth_frame (L := Samples.array_lib) p
              (vmap (tone (L := Samples.array_lib) p) (Samples.flat (1 # 2))))
    /\ (forall c, Forall (eq c) (ravel (Samples.flat (1 # 2))) ->
        o = smooth_frame (L := Samples.array_lib) p
              (vmap (tone (L := Samples.array_lib) p) (Samples.flat (1 # 2))))
    /\ (400 # 800 < 400 # 800 ->
        o = smooth_frame (L := Samples.array_lib) p
              (vmap (tone (L := Samples.array_lib) p)
                 (vmap (fun x => clip ((x - (400 # 800))
                                       / ((400 # 800) - (400 # 800))) 0 1)
                       (Samples.flat (1 # 2))))).
Proof.
  intro p.
  exact (@collapsed_frame_left_unscaled Samples.array_lib array_lib_laws p
           [Samples.flat (1 # 2); Samples.ramp]
           [Samples.flat (1 # 2);
            [ [ [0; 6500000000 # 93000000000];
                [16500000000 # 93000000000; 36500000000 # 93000000000] ];
              [ [56500000000 # 93000000000; 815000000000 # 930000000000];
                [86500000000 # 93000000000; 1] ] ] ]
           0%nat (Samples.flat (1 # 2)) (400 # 800) (400 # 800)
           eq_refl eq_refl eq_refl eq_refl).
Defined.

(** C2 as stated fails: with contrast 1, brightness 1 and no smoothing, the
    constant frame of value 1/2 has collapsed bounds and comes out with all
    its values still 1/2, not zero. *)
Lemma collapsed_frame_not_zeroed :
  ~ (forall p raw out i frame vmin vmax o,
       process_voxels (L := Samples.array_lib) p raw = Ok out ->
       nth_error (log_mix (L := Samples.array_lib) p raw) i = Some frame ->
       percentile (ravel frame) (p percentile_min) = Ok vmin ->
       percentile (ravel frame) (p percentile_max) = Ok vmax ->
       vmax <= vmin ->
       nth_error out i = Some o ->
       within 0 0 o).
Proof.
  intros H.
  specialize (H (set_param contrast 1 (set_param smoothing 0 default_params))
                [Samples.flat (1 # 2)] [Samples.flat (1 # 2)] 0%nat
                (Samples.flat (1 # 2)) (400 # 800) (400 # 800)
                (Samples.flat (1 # 2))
                eq_refl eq_refl eq_refl eq_refl).
  assert (Hle : 400 # 800 <= 400 # 800) by apply Qle_refl.
  specialize (H Hle eq_refl).
  unfold within, Samples.flat in H.
  repeat match goal with
         | H : Forall _ (_ :: _) |- _ => inversion H; clear H; subst
         end.
  match goal with
  | H : _ <= 1 # 2 <= _ |- _ => destruct H as [_ Habs]
  end.
  revert Habs. apply Qlt_not_le. reflexivity.
Qed.

(** *** The handlers and the processed series *)

Lemma update_param_frame name v s :
  voxels (update_param name v s) = voxels s
  /\ voxels_raw (update_param name v s) = voxels_raw s
  /\ current_frame (update_param name v s) = current_frame s
  /\ rotation_angle (update_param name v s) = rotation_angle s
  /\ center (update_param name v s) = center s.
Proof. destruct name; repeat split. Qed.

Lemma setValue_frame name v s :
  voxels (setValue name v s) = voxels s
  /\ voxels_raw (setValue name v s) = voxels_raw s
  /\ current_frame (setValue name v s) = current_frame s
  /\ rotation_angle (setValue name v s) = rotation_angle s
  /\ center (setValue name v s) = center s.
Proof.
  unfold setValue. destruct (Z.eqb _ _); [repeat split |].
  match goal with
  | |- context [update_param name ?v ?s'] =>
      destruct (update_param_frame name v s') as (A & B & C & D & E)
  end.
  rewrite A, B, C, D, E. repeat split.
Qed.

Lemma reset_defaults_frame s :
  voxels (reset_defaults s) = voxels s
  /\ voxels_raw (reset_defaults s) = voxels_raw s
  /\ current_frame (reset_defaults s) = current_frame s
  /\ rotation_angle (reset_defaults s) = rotation_angle s
  /\ center (reset_defaults s) = center s.
Proof.
  unfold reset_defaults. generalize defaults. intros l. revert s.
  induction l as [| [name d] l IH]; intros s; simpl; [repeat split |].
  destruct (IH (setValue name (int (d * scale (sliders s name))) s))
    as (A & B & C & D & E).
  destruct (setValue_frame name (int (d * scale (sliders s name))) s)
    as (A' & B' & C' & D' & E').
  rewrite A, B, C, D, E, A', B', C', D', E'. repeat split.
Qed.

Section Handlers.
Context {L : ArrayLib}.

Lemma update_frame dt s :
  voxels (update dt s) = voxels s
  /\ voxels_raw (update dt s) = voxels_raw s
  /\ params (update dt s) = params s
  /\ center (update dt s) = center s.
Proof.
  unfold update, update_body.
  destruct (Nat.eqb (length (voxels s)) 0); [repeat split |].
  cbn [voxels with_current_frame].
  destruct (nth_error (voxels s) _); repeat split.
Qed.

Lemma reprocess_voxels_raw s : voxels_raw (fst (reprocess s)) = voxels_raw s.
Proof.
  unfold reprocess.
  destruct (process_voxels (params s) (voxels_raw s)) as [v |]; [| reflexivity].
  cbn [current_frame with_voxels].
  destruct (nth_error v (current_frame s)); reflexivity.
Qed.

Lemma reprocess_params s : params (fst (reprocess s)) = params s.
Proof.
  unfold reprocess.
  destruct (process_voxels (params s) (voxels_raw s)) as [v |]; [| reflexivity].
  cbn [current_frame with_voxels].
  destruct (nth_error v (current_frame s)); reflexivity.
Qed.

(** What [reprocess] leaves in [voxels]: the series computed from the raw
    series under the parameters of that moment, or the old series when
    [process_voxels] raises. *)
Lemma reprocess_voxels s :
  voxels (fst (reprocess s)) =
  match process_voxels (params s) (voxels_raw s) with
  | Ok v => v
  | Raise _ => voxels s
  end.
Proof.
  unfold reprocess.
  destruct (process_voxels (params s) (voxels_raw s)) as [v |]; [| reflexivity].
  cbn [current_frame with_voxels].
  destruct (nth_error v (current_frame s)); reflexivity.
Qed.

Lemma step_voxels a s :
  a <> ReprocessClicked ->
  voxels (step a s) = voxels s /\ voxels_raw (step a s) = voxels_raw s.
Proof.
  intros Ha. destruct a as [name v | | | dt]; cbn [step].
  - destruct (setValue_frame name v s) as (A & B & _). auto.
  - destruct (reset_defaults_frame s) as (A & B & _). auto.
  - congruence.
  - destruct (update_frame dt s) as (A & B & _). auto.
Qed.

Lemma run_voxels acts s :
  ~ In ReprocessClicked acts ->
  voxels (run acts s) = voxels s /\ voxels_raw (run acts s) = voxels_raw s.
Proof.
  unfold run. revert s.
  induction acts as [| a acts IH]; intros s Hn; cbn [fold_left].
  - auto.
  - destruct (IH (step a s)) as [A B]; [intro; apply Hn; right; assumption |].
    destruct (step_voxels a s) as [A' B'];
      [intro; apply Hn; left; assumption |].
    rewrite A, B, A', B'. auto.
Qed.

(** C8.  No sequence of slider moves, resets and ticks changes the
    processed series (nor the raw one): changing a batch parameter only
    writes [params].  [reprocess] alone replaces it, by
    [process_voxels] of the raw series under the parameters current at
    that moment, whatever series was there before; when [process_voxels]
    raises, the old series stays. *)
Theorem only_reprocess_recomputes (s : state) (acts : list action) :
  ~ In ReprocessClicked acts ->
  voxels (run acts s) = voxels s
  /\ (forall name v, voxels (update_param name v (run acts s)) = voxels s)
  /\ (forall v,
        process_voxels (params (run acts s)) (voxels_raw s) = Ok v ->
        voxels (run (acts ++ [ReprocessClicked]) s) = v)
  /\ (forall e,
        process_voxels (params (run acts s)) (voxels_raw s) = Raise e ->
        voxels (run (acts ++ [ReprocessClicked]) s) = voxels s).
Proof.
  intros Hn. destruct (run_voxels acts s Hn) as [A B].
  split; [exact A |]. split; [| split].
  - intros name v. destruct (update_param_frame name v (run acts s)) as (C & _).
    rewrite C. exact A.
  - intros v Hv. unfold run. rewrite fold_left_app. cbn [fold_left step].
    fold (run acts s). rewrite reprocess_voxels, B, Hv. reflexivity.
  - intros e He. unfold run. rewrite fold_left_app. cbn [fold_left step].
    fold (run acts s). rewrite reprocess_voxels, B, He. exact A.
Qed.

(** *** One tick *)

Lemma frame_index_in_range (cur : nat) (skip : Z) (n : nat) :
  n <> 0%nat ->
  (Z.to_nat ((Z.of_nat cur + skip) mod Z.of_nat n) < n)%nat.
Proof.
  intros Hn.
  assert (H : (0 <= (Z.of_nat cur + skip) mod Z.of_nat n < Z.of_nat n)%Z)
    by (apply Z.mod_pos_bound; lia).
  lia.
Qed.

(** On a non-empty series the body of the [try] runs to its end. *)
Lemma update_body_runs dt s :
  voxels s <> [] ->
  let i := Z.to_nat ((Z.of_nat (current_frame s)
                      + Z.max 1 (int (params s frame_skip)))
                     mod Z.of_nat (length (voxels s))) in
  let angle := rotation_angle s + dt * params s rotation_speed in
  let fresh := [Translate (neg3 (center s)); Rotate angle z_axis] in
  snd (update_body dt s) = None
  /\ current_frame (update dt s) = i
  /\ rotation_angle (update dt s) = angle
  /\ transform (holo (update dt s)) = fresh
  /\ elecs_transform (update dt s) = fresh
  /\ nth_error (voxels s) i = Some (data (holo (update dt s))).
Proof.
  intros Hne i angle fresh. unfold update, update_body.
  assert (Hn : length (voxels s) <> 0%nat)
    by (destruct (voxels s); [congruence | simpl; lia]).
  destruct (Nat.eqb (length (voxels s)) 0) eqn:E;
    [apply Nat.eqb_eq in E; contradiction |].
  cbn [voxels with_current_frame]. fold i.
  assert (Hi : (i < length (voxels s))%nat)
    by (apply frame_index_in_range, Hn).
  destruct (nth_error (voxels s) i) as [frame |] eqn:Hf.
  - repeat split.
  - apply nth_error_None in Hf. lia.
Qed.

End Handlers.

Lemma only_reprocess_recomputes_witness :
  let acts := [SliderMoved contrast 200; Tick (1 # 30)] in
  let s := Samples.interactive_state in
  ~ In ReprocessClicked acts
  /\ voxels (run (L := Samples.array_lib) acts s) = voxels s
  /\ (forall name v,
        voxels (update_param name v (run (L := Samples.array_lib) acts s))
        = voxels s)
  /\ (forall v,
        process_voxels (L := Samples.array_lib)
          (params (run (L := Samples.array_lib) acts s)) (voxels_raw s) = Ok v ->
        voxels (run (L := Samples.array_lib) (acts ++ [ReprocessClicked]) s) = v)
  /\ (forall e,
        process_voxels (L := Samples.array_lib)
          (params (run (L := Samples.array_lib) acts s)) (voxels_raw s) = Raise e ->
        voxels (run (L := Samples.array_lib) (acts ++ [ReprocessClicked]) s)
        = voxels s).
Proof.
  intros acts s.
  assert (Hn : ~ In ReprocessClicked acts).
  { intros [H | [H | []]]; discriminate H. }
  split; [exact Hn |].
  exact (@only_reprocess_recomputes Samples.array_lib s acts Hn).
Defined.

(** The spec's example: on a series processed with contrast 1, moving the
    contrast slider to 2.0 and reprocessing gives the square of the
    normalised values, frame by frame. *)
Example reprocess_with_contrast_2 :
  voxels (run (L := Samples.array_lib)
            [SliderMoved contrast 200; ReprocessClicked]
            Samples.interactive_state)
  = map (vmap (fun x => Qpower x 2)) (voxels Samples.interactive_state).
Proof. vm_compute. reflexivity. Qed.

(** *** States reachable from the set-up *)

Lemma param_name_eqb_eq a b : param_name_eqb a b = true <-> a = b.
Proof. destruct a, b; simpl; split; intro H; congruence. Qed.

Lemma update_param_store name v s :
  params (update_param name v s)
  = set_param name (inject_Z v / scale (sliders s name)) (params s)
  /\ sliders (update_param name v s) = sliders s.
Proof. destruct name; split; reflexivity. Qed.

Lemma setValue_range_checked name v s :
  range_checked s -> range_checked (setValue name v s).
Proof.
  intros H. unfold setValue.
  destruct (Z.eqb _ (value (sliders s name))) eqn:E; [exact H |].
  match goal with
  | |- range_checked (update_param name ?v' ?s') =>
      destruct (update_param_store name v' s') as [Hp Hs]
  end.
  intros k. rewrite Hp, Hs. cbn [sliders params with_sliders]. unfold set_param.
  destruct (H name) as (A & B & C & D & _).
  assert (Hnn : param_name_eqb name name = true) by (apply param_name_eqb_eq; reflexivity).
  rewrite Hnn. cbn [scale].
  destruct (param_name_eqb name k) eqn:Ek.
  - apply param_name_eqb_eq in Ek. subst k. cbn [minimum maximum scale value].
    repeat split; try assumption; lia.
  - apply H.
Qed.

Lemma reset_defaults_range_checked s :
  range_checked s -> range_checked (reset_defaults s).
Proof.
  unfold reset_defaults. generalize defaults. intros l. revert s.
  induction l as [| [name d] l IH]; intros s H; cbn [fold_left]; [exact H |].
  apply IH, setValue_range_checked, H.
Qed.

Lemma initial_range_checked (s : state) :
  params s = default_params ->
  sliders s = initial_sliders default_params ->
  range_checked s.
Proof.
  intros Hp Hs k. rewrite Hp, Hs.
  destruct k; vm_compute; repeat split; congruence.
Qed.

Lemma range_checked_percentiles s :
  range_checked s ->
  0 <= params s percentile_min <= 30 /\ 70 <= params s percentile_max <= 100.
Proof.
  intros H.
  destruct (H percentile_min) as (A & B & C & D & E).
  destruct (H percentile_max) as (A' & B' & C' & D' & E').
  rewrite E, E', C, C'. rewrite A, B in D. rewrite A', B' in D'.
  change (minimum (initial_sliders default_params percentile_min)) with 0%Z in D.
  change (maximum (initial_sliders default_params percentile_min)) with 3000%Z in D.
  change (minimum (initial_sliders default_params percentile_max)) with 7000%Z in D'.
  change (maximum (initial_sliders default_params percentile_max)) with 10000%Z in D'.
  change (scale (initial_sliders default_params percentile_min)) with 100.
  change (scale (initial_sliders default_params percentile_max)) with 100.
  unfold Qle, Qdiv, Qmult, Qinv, inject_Z. simpl. lia.
Qed.

Section Reachable.
Context {L : ArrayLib}.

Lemma process_voxels_length p raw out :
  process_voxels p raw = Ok out -> length out = length raw.
Proof.
  intros H. apply process_voxels_frames, Forall2_length in H.
  rewrite <- H. unfold log_mix. destruct (Qltb 0 (p log_scale)).
  - apply length_map.
  - reflexivity.
Qed.

Lemma setup_wellformed `{!ArrayLibLaws L} loaded s :
  setup loaded = Ok s ->
  range_checked s /\ series_indexed s /\ Forall (within 0 1) (voxels s).
Proof.
  unfold setup.
  destruct (process_voxels default_params (map (vmap Qabs) loaded))
    as [v |] eqn:E; cbn [bind]; [| discriminate].
  destruct v as [| first_frame rest]; [discriminate |].
  intros H. apply Ok_inj in H. subst s.
  split; [apply initial_range_checked; reflexivity |]. split.
  - split; cbn [voxels voxels_raw current_frame].
    + apply (process_voxels_length _ _ _ E).
    + simpl. lia.
  - cbn [voxels]. apply (process_voxels_within _ _ _ E).
Qed.

Lemma step_wellformed `{!ArrayLibLaws L} a s :
  range_checked s /\ series_indexed s /\ Forall (within 0 1) (voxels s) ->
  range_checked (step a s) /\ series_indexed (step a s)
  /\ Forall (within 0 1) (voxels (step a s)).
Proof.
  intros (Hr & [Hlen Hcur] & Hw). destruct a as [name v | | | dt]; cbn [step].
  - destruct (setValue_frame name v s) as (A & B & C & _).
    split; [apply setValue_range_checked, Hr |]. unfold series_indexed.
    rewrite A, B, C. auto.
  - destruct (reset_defaults_frame s) as (A & B & C & _).
    split; [apply reset_defaults_range_checked, Hr |]. unfold series_indexed.
    rewrite A, B, C. auto.
  - unfold reprocess.
    destruct (process_voxels (params s) (voxels_raw s)) as [v |] eqn:E;
      cbn [fst]; [| unfold series_indexed; auto].
    pose proof (process_voxels_length _ _ _ E) as Hv.
    pose proof (process_voxels_within _ _ _ E) as Hv'.
    cbn [current_frame with_voxels].
    destruct (nth_error v (current_frame s)); cbn [fst];
      (split; [exact Hr |]); (split; [| exact Hv']);
      split; cbn [voxels voxels_raw current_frame with_voxels with_holo];
      try exact Hv; lia.
  - assert (Hne : voxels s <> []) by (destruct (voxels s); [simpl in Hcur; lia | discriminate]).
    destruct (update_frame dt s) as (A & B & C & _).
    destruct (update_body_runs dt s Hne) as (_ & I & _).
    assert (S' : sliders (update dt s) = sliders s).
    { unfold update, update_body.
      destruct (Nat.eqb (length (voxels s)) 0); [reflexivity |].
      cbn [voxels with_current_frame].
      destruct (nth_error (voxels s) _); reflexivity. }
    split; [| split].
    + intros k. rewrite C, S'. apply Hr.
    + unfold series_indexed. rewrite A, B, I. split; [exact Hlen |].
      apply frame_index_in_range. destruct (voxels s); [congruence | simpl; lia].
    + rewrite A. exact Hw.
Qed.

(** A set-up that went through had a voxel in every frame of the raw
    series. *)
Lemma setup_has_voxels loaded s :
  setup loaded = Ok s -> has_voxels (voxels_raw s).
Proof.
  unfold setup.
  destruct (process_voxels default_params (map (vmap Qabs) loaded))
    as [v |] eqn:E; cbn [bind]; [| discriminate].
  destruct v as [| first_frame rest]; [discriminate |].
  intros H. apply Ok_inj in H. subst s. cbn [voxels_raw].
  exact (process_voxels_has_voxels _ _ _ E).
Qed.

Lemma step_voxels_raw a s : voxels_raw (step a s) = voxels_raw s.
Proof.
  destruct a as [name v | | | dt]; cbn [step].
  - apply setValue_frame.
  - apply reset_defaults_frame.
  - apply reprocess_voxels_raw.
  - apply update_frame.
Qed.

Lemma run_voxels_raw acts s : voxels_raw (run acts s) = voxels_raw s.
Proof.
  unfold run. revert s. induction acts as [| a acts IH]; intros s;
    cbn [fold_left]; [reflexivity |].
  rewrite IH. apply step_voxels_raw.
Qed.

(** In every state the interactive script can reach from its set-up, by
    any sequence of slider moves, resets, reprocess clicks and ticks: the
    processed series has all its values in [0,1]; the two percentile
    parameters are inside their slider ranges [0,30] and [70,100], so
    [percentile_min < percentile_max]; and a reprocess click returns without
    an exception. *)
Theorem reachable_state_wellformed `{!ArrayLibLaws L} loaded s0 acts :
  setup loaded = Ok s0 ->
  Forall (within 0 1) (voxels (run acts s0))
  /\ (0 <= params (run acts s0) percentile_min <= 30
      /\ 70 <= params (run acts s0) percentile_max <= 100)
  /\ params (run acts s0) percentile_min < params (run acts s0) percentile_max
  /\ snd (reprocess (run acts s0)) = None.
Proof.
  intros Hs.
  assert (Hinv : range_checked (run acts s0) /\ series_indexed (run acts s0)
                 /\ Forall (within 0 1) (voxels (run acts s0))).
  { apply setup_wellformed in Hs. unfold run. revert s0 Hs.
    induction acts as [| a acts IH]; intros s0 Hs; cbn [fold_left]; [exact Hs |].
    apply IH, step_wellformed, Hs. }
  destruct Hinv as (Hr & [Hlen Hcur] & Hw).
  pose proof (range_checked_percentiles _ Hr) as [[A B] [C D]].
  split; [exact Hw |]. split; [repeat split; assumption |]. split.
  - apply Qle_lt_trans with 30; [exact B |].
    apply Qlt_le_trans with 70; [reflexivity | exact C].
  - unfold reprocess.
    destruct (process_voxels_ok (params (run acts s0)) (voxels_raw (run acts s0)))
      as [v Hv].
    + rewrite run_voxels_raw. exact (setup_has_voxels _ _ Hs).
    + exact A.
    + apply Qle_trans with 30; [exact B | discriminate].
    + apply Qle_trans with 70; [discriminate | exact C].
    + exact D.
    + rewrite Hv. cbn [current_frame with_voxels].
      pose proof (process_voxels_length _ _ _ Hv) as Hl.
      destruct (nth_error v (current_frame (run acts s0))) eqn:E; [reflexivity |].
      apply nth_error_None in E. lia.
Qed.

End Reachable.

Lemma reachable_state_wellformed_witness :
  let acts := [SliderMoved percentile_min 99999; SliderMoved smoothing 0;
               ReprocessClicked; Tick (1 # 30); ResetClicked] in
  exists s0,
    setup (L := Samples.array_lib) Samples.raw2 = Ok s0
    /\ Forall (within 0 1) (voxels (run (L := Samples.array_lib) acts s0))
    /\ params (run (L := Samples.array_lib) acts s0) percentile_min
       < params (run (L := Samples.array_lib) acts s0) percentile_max.
Proof.
  intros acts.
  destruct (setup (L := Samples.array_lib) Samples.raw2) as [s0 |] eqn:E;
    [| discriminate E].
  exists s0. split; [reflexivity |].
  destruct (@reachable_state_wellformed Samples.array_lib array_lib_laws
              Samples.raw2 s0 acts E) as (A & _ & C & _).
  split; [exact A | exact C].
Defined.

(** The spec's end-to-end scenario: two 4x4x4 frames, frame 0 zero but for
    one voxel at 1, percentiles 5 and 95, contrast 1, brightness 1, no
    smoothing.  Both percentiles of frame 0 are 0, so the frame is not
    rescaled and comes out as it went in: the one voxel at 1, the others at
    0. *)
Example single_voxel_scenario :
  (exists vmin, percentile (ravel Samples.one_hot444) 5 = Ok vmin /\ vmin == 0)
  /\ (exists vmax, percentile (ravel Samples.one_hot444) 95 = Ok vmax /\ vmax == 0)
  /\ process_voxels (L := Samples.array_lib) Samples.exact_params
       [Samples.one_hot444; Samples.zeros444]
     = Ok [Samples.one_hot444; Samples.zeros444].
Proof.
  split; [| split].
  - eexists. split; [vm_compute; reflexivity | reflexivity].
  - eexists. split; [vm_compute; reflexivity | reflexivity].
  - vm_compute. reflexivity.
Qed.

End InteractiveFacts.

(** ** viz_hologram.py: the particle sampler *)

Module SamplerFacts.
Import Py Np Vispy Hologram.

Lemma In_firstn {A} (x : A) k l : In x (firstn k l) -> In x l.
Proof.
  revert l. induction k as [| k IH]; intros [| y l] H; simpl in *; try contradiction.
  destruct H as [H | H]; [left; exact H | right; apply IH, H].
Qed.

Lemma NoDup_firstn {A} k (l : list A) : NoDup l -> NoDup (firstn k l).
Proof.
  revert l. induction k as [| k IH]; intros [| y l] H; simpl; try constructor.
  - inversion H; subst. intro Hin. apply In_firstn in Hin. contradiction.
  - inversion H; subst. apply IH. assumption.
Qed.

Lemma map_nth_seq {A} (l : list A) d :
  map (fun i => nth i l d) (seq 0 (length l)) = l.
Proof.
  apply nth_ext with (d := d) (d' := d).
  - rewrite length_map, length_seq. reflexivity.
  - intros i Hi. rewrite length_map, length_seq in Hi.
    rewrite (nth_indep _ d (nth 0 l d)) by (rewrite length_map, length_seq; exact Hi).
    rewrite (map_nth (fun i => nth i l d) (seq 0 (length l)) 0%nat i).
    rewrite seq_nth by exact Hi. reflexivity.
Qed.

(** The coordinates listed by [np.where] are pairwise distinct. *)
Lemma NoDup_flat_map_enumerate {A B} (key : B -> nat) (f : nat * A -> list B)
    (l : list A) (start : nat) :
  (forall p, NoDup (f p)) ->
  (forall p b, In b (f p) -> key b = fst p) ->
  NoDup (flat_map f (combine (seq start (length l)) l))
  /\ (forall b, In b (flat_map f (combine (seq start (length l)) l)) ->
                (start <= key b)%nat).
Proof.
  intros Hnd Hkey. revert start.
  induction l as [| a l IH]; intros start; simpl.
  - split; [constructor | contradiction].
  - destruct (IH (S start)) as [IH1 IH2]. split.
    + apply NoDup_app; [apply Hnd | exact IH1 |].
      intros b Hb Hb'. apply Hkey in Hb. apply IH2 in Hb'. simpl in Hb. lia.
    + intros b Hb. apply in_app_or in Hb. destruct Hb as [Hb | Hb].
      * apply Hkey in Hb. simpl in Hb. lia.
      * apply IH2 in Hb. lia.
Qed.

Lemma NoDup_where_gt volume threshold : NoDup (where_gt volume threshold).
Proof.
  unfold where_gt, enumerate.
  apply (NoDup_flat_map_enumerate (fun c : nat * nat * nat => fst (fst c))).
  - intros [x plane].
    apply (NoDup_flat_map_enumerate (fun c : nat * nat * nat => snd (fst c))).
    + intros [y row].
      apply (NoDup_flat_map_enumerate (fun c : nat * nat * nat => snd c)).
      * intros [z val]. destruct (Qltb threshold val); repeat constructor.
        intros [].
      * intros [z val] b Hb. destruct (Qltb threshold val); [| contradiction].
        destruct Hb as [<- | []]. reflexivity.
    + intros [y row] b Hb. apply in_flat_map in Hb.
      destruct Hb as ([z val] & _ & Hb).
      destruct (Qltb threshold val); [| contradiction].
      destruct Hb as [<- | []]. reflexivity.
  - intros [x plane] b Hb. apply in_flat_map in Hb.
    destruct Hb as ([y row] & _ & Hb). apply in_flat_map in Hb.
    destruct Hb as ([z val] & _ & Hb).
    destruct (Qltb threshold val); [| contradiction].
    destruct Hb as [<- | []]. reflexivity.
Qed.

(** Distinct indices into a duplicate-free list pick distinct elements. *)
Lemma NoDup_map_nth {A} (l : list A) d indices :
  NoDup l -> NoDup indices ->
  Forall (fun i => (i < length l)%nat) indices ->
  NoDup (map (fun i => nth i l d) indices).
Proof.
  intros Hl Hi Hlt. apply NoDup_map_NoDup_ForallPairs; [| exact Hi].
  intros i j Hin Hjn E. rewrite Forall_forall in Hlt.
  apply (proj1 (NoDup_nth l d) Hl); auto.
Qed.

Section Sampler.
Context {L : SceneLib}.

(** [np.random.choice(n, size, replace=False)] with [size <= n]: [size]
    distinct indices below [n]; all of them when [size = n]. *)
Lemma choice_spec `{!SceneLibLaws L} n size g :
  (size <= n)%nat ->
  let indices := fst (choice n size g) in
  length indices = size
  /\ NoDup indices
  /\ Forall (fun i => (i < n)%nat) indices
  /\ (size = n -> Permutation indices (seq 0 n)).
Proof.
  intros Hsz. unfold choice.
  pose proof (permutation_perm n g) as Hp.
  destruct (permutation n g) as [p g']. simpl in *.
  assert (Hlen : length p = n).
  { rewrite (Permutation_length Hp). apply length_seq. }
  split; [| split; [| split]].
  - rewrite length_firstn. lia.
  - apply NoDup_firstn.
    apply (Permutation_NoDup (Permutation_sym Hp)), seq_NoDup.
  - apply Forall_forall. intros i Hi. apply In_firstn in Hi.
    apply (Permutation_in _ Hp), in_seq in Hi. lia.
  - intros ->. rewrite <- Hlen at 1. rewrite firstn_all. exact Hp.
Qed.

(** Without a voxel above the threshold the function returns the
    two-element tuple [(None, None)], which no caller can unpack. *)
Lemma create_particles_none volume threshold max_points g :
  where_gt volume threshold = [] ->
  create_particles volume threshold max_points g = ([PyNone; PyNone], g)
  /\ unpack3 (fst (create_particles volume threshold max_points g))
     = Raise ValueError.
Proof.
  intros H. unfold create_particles. rewrite H. simpl. split; reflexivity.
Qed.

(** C10.  [create_particles] never returns more than [max_points]
    particles.  With [n > 0] voxels above the threshold it returns
    [min n max_points] of them, pairwise distinct voxels of the match list
    (sampling without replacement), with one colour and one size each; so exactly
    [max_points] when [n] exceeds it, and otherwise every matching voxel
    once.  With [n = 0] it returns no particle. *)
Theorem create_particles_capped `{!SceneLibLaws L}
    volume threshold max_points g :
  let high_intensity := where_gt volume threshold in
  let n := length high_intensity in
  let ret := fst (create_particles volume threshold max_points g) in
  (count ret <= max_points)%nat
  /\ (n = 0%nat -> count ret = 0%nat)
  /\ (n <> 0%nat ->
      exists indices,
        let picked := map (fun i => nth i high_intensity (0, 0, 0)%nat) indices in
        let intensities := map (at3 volume) picked in
        ret = [ Positions (map float3 picked);
                Colors (map (fun v => set_alpha (v * (5 # 10)) (COLORMAP v))
                            intensities);
                Sizes (map (fun v => 2 + v * 6) intensities) ]
        /\ count ret = Nat.min n max_points
        /\ NoDup indices
        /\ Forall (fun i => (i < n)%nat) indices
        /\ NoDup picked
        /\ incl picked high_intensity
        /\ ((max_points < n)%nat -> count ret = max_points)
        /\ ((n <= max_points)%nat ->
            count ret = n /\ Permutation picked high_intensity)).
Proof.
  intros high_intensity n ret.
  assert (Hcases :
    (n = 0%nat /\ ret = [PyNone; PyNone])
    \/ (n <> 0%nat /\
        ret = (let indices := fst (choice n (Nat.min n max_points) g) in
               let picked := map (fun i => nth i high_intensity (0, 0, 0)%nat)
                                 indices in
               let intensities := map (at3 volume) picked in
               [ Positions (map float3 picked);
                 Colors (map (fun v => set_alpha (v * (5 # 10)) (COLORMAP v))
                             intensities);
                 Sizes (map (fun v => 2 + v * 6) intensities) ]))).
  { subst ret. unfold create_particles. fold high_intensity. fold n.
    destruct (Nat.eqb n 0) eqn:E.
    - left. apply Nat.eqb_eq in E. split; [exact E | reflexivity].
    - right. apply Nat.eqb_neq in E. split; [exact E |].
      destruct (choice n (Nat.min n max_points) g) as [indices g']. reflexivity. }
  destruct Hcases as [[Hn Hret] | [Hn Hret]].
  - rewrite Hret. simpl. repeat split; lia.
  - destruct (choice_spec n (Nat.min n max_points) g (Nat.le_min_l _ _))
      as (Hlen & Hnd & Hlt & Hall).
    set (indices := fst (choice n (Nat.min n max_points) g)) in *.
    assert (Hcount : count ret = Nat.min n max_points).
    { rewrite Hret. cbn [count]. rewrite !length_map. exact Hlen. }
    split; [rewrite Hcount; apply Nat.le_min_r |].
    split; [intros; contradiction |].
    intros _. exists indices. cbv zeta.
    split; [exact Hret |]. split; [exact Hcount |].
    split; [exact Hnd |]. split; [exact Hlt |].
    split; [apply NoDup_map_nth; [apply NoDup_where_gt | exact Hnd | exact Hlt] |].
    split.
    { intros c Hc. apply in_map_iff in Hc. destruct Hc as (i & <- & Hi).
      rewrite Forall_forall in Hlt. apply nth_In, Hlt, Hi. }
    split.
    + intros H. rewrite Hcount. lia.
    + intros H. split; [rewrite Hcount; lia |].
      assert (Hp : Permutation indices (seq 0 n))
        by (apply Hall; lia).
      apply Permutation_trans
        with (map (fun i => nth i high_intensity (0, 0, 0)%nat) (seq 0 n)).
      * apply Permutation_map. exact Hp.
      * unfold n. rewrite map_nth_seq. apply Permutation_refl.
Qed.

(** C4, at the spec's example.  On the all-zero 4x4x4 frame with
    threshold 0.8 [create_particles] returns the pair [(None, None)]: two
    elements, not empty positions, colours and sizes.  The three-name
    unpacking at both call sites raises [ValueError] on it, so the set-up
    on a series that starts with this frame ends the script. *)
Theorem create_particles_zero_frame (g : rng) (ch_pos : list vec3)
    (later : series) :
  create_particles Samples.zeros444 (8 # 10) 3000 g = ([PyNone; PyNone], g)
  /\ length (fst (create_particles Samples.zeros444 (8 # 10) 3000 g)) = 2%nat
  /\ unpack3 (fst (create_particles Samples.zeros444 (8 # 10) 3000 g))
     = Raise ValueError
  /\ setup (Samples.zeros444 :: later) ch_pos g = Raise ValueError.
Proof.
  assert (H : where_gt Samples.zeros444 (8 # 10) = []) by reflexivity.
  destruct (create_particles_none Samples.zeros444 (8 # 10) 3000 g H) as [A B].
  split; [exact A |]. split; [rewrite A; reflexivity |].
  split; [exact B |].
  unfold setup. cbn [getitem nth_error bind]. rewrite A. reflexivity.
Qed.

End Sampler.

Lemma scene_lib_laws : SceneLibLaws Samples.scene_lib.
Proof.
  constructor. intros n g. simpl.
  apply Permutation_sym, Permutation_rev.
Qed.

(** Three voxels of [ramp] exceed 0.8; with [max_points = 2] two of them are
    returned. *)
Lemma create_particles_capped_witness :
  (count (fst (create_particles (L := Samples.scene_lib)
                 Samples.ramp (8 # 10) 2 0%nat)) <= 2)%nat
  /\ length (where_gt Samples.ramp (8 # 10)) = 3%nat.
Proof.
  split; [| reflexivity].
  exact (proj1 (@create_particles_capped Samples.scene_lib scene_lib_laws
                  Samples.ramp (8 # 10) 2%nat 0%nat)).
Defined.

End SamplerFacts.

(** ** viz_hologram.py: layers and ticks *)

Module SceneFacts.
Import Py Np Vispy Hologram NpFacts SamplerFacts.

Lemma alpha_set_alpha a c : alpha (set_alpha a c) = a.
Proof. destruct c as [[[r g] b] a0]. reflexivity. Qed.

Lemma layer_alpha_mono i j : (i <= j)%nat -> layer_alpha i <= layer_alpha j.
Proof.
  intros H. unfold layer_alpha, NUM_LAYERS.
  assert (E : inject_Z (Z.of_nat (i + 1)) <= inject_Z (Z.of_nat (j + 1)))
    by (rewrite <- Zle_Qle; lia).
  set (a := inject_Z (Z.of_nat (i + 1))) in *.
  set (b := inject_Z (Z.of_nat (j + 1))) in *.
  change (inject_Z (Z.of_nat 5)) with 5.
  unfold Qdiv. change (/ 5) with (1 # 5). lra.
Qed.

Section Scene.
Context {L : SceneLib}.

Lemma layer_colors_alpha zd idx g :
  Forall (fun c => alpha c = layer_alpha idx) (layer_colors zd idx g).
Proof.
  unfold layer_colors. apply Forall_map, Forall_forall.
  intros v _. apply alpha_set_alpha.
Qed.

(** *** The set-up loop *)

Lemma create_layers_nth voxels idx levels k mesh :
  nth_error (create_layers voxels idx levels) k = Some mesh ->
  exists frame level g,
    getitem voxels 0 = Ok frame
    /\ nth_error levels k = Some level
    /\ marching_cubes frame level = Ok g
    /\ mesh = {| vertices := verts g; mesh_faces := faces g;
                 vertex_colors := layer_colors (zdim voxels) (idx + k) g;
                 transform := translate (neg3 (half_shape (shape frame)))
                                        identity |}.
Proof.
  revert idx k. induction levels as [| level rest IH]; intros idx k H.
  - destruct k; discriminate.
  - cbn [create_layers] in H.
    destruct (getitem voxels 0) as [frame |] eqn:Hf; cbn [bind] in H;
      [| destruct k; discriminate].
    destruct (marching_cubes frame level) as [g |] eqn:Hg; cbn [bind] in H;
      [| destruct k; discriminate].
    destruct k as [| k]; cbn [nth_error] in *.
    + apply Some_inj in H. subst mesh. exists frame, level, g.
      rewrite Nat.add_0_r. repeat split; assumption.
    + destruct (IH (S idx) k H) as (frame' & level' & g' & A & B & C & D).
      exists frame', level', g'. replace (idx + S k)%nat with (S idx + k)%nat by lia.
      repeat split; assumption.
Qed.

(** An exception at level [k] ends the loop: no layer of rank [k] or
    later is created. *)
Lemma create_layers_stops voxels idx levels k level frame0 e :
  getitem voxels 0 = Ok frame0 ->
  nth_error levels k = Some level ->
  marching_cubes frame0 level = Raise e ->
  (length (create_layers voxels idx levels) <= k)%nat.
Proof.
  intros Hf. revert idx k.
  induction levels as [| l rest IH]; intros idx k Hk He.
  - simpl. lia.
  - cbn [create_layers]. rewrite Hf. cbn [bind].
    destruct k as [| k]; cbn [nth_error] in Hk.
    + apply Some_inj in Hk. subst l. rewrite He. simpl. lia.
    + destruct (marching_cubes frame0 l); cbn [bind length]; [| lia].
      specialize (IH (S idx) k Hk He). lia.
Qed.

(** *** The per-tick loop *)

Lemma update_layers_length voxels i idx meshes levels :
  length (update_layers voxels i idx meshes levels) = length meshes.
Proof.
  revert idx levels. induction meshes as [| m ms IH]; intros idx levels.
  - destruct levels; reflexivity.
  - destruct levels as [| l ls]; [reflexivity |].
    cbn [update_layers length]. rewrite IH. reflexivity.
Qed.

Lemma update_layers_transform voxels i idx meshes levels :
  map transform (update_layers voxels i idx meshes levels)
  = map transform meshes.
Proof.
  revert idx levels. induction meshes as [| m ms IH]; intros idx levels.
  - destruct levels; reflexivity.
  - destruct levels as [| l ls]; [reflexivity |].
    cbn [update_layers map]. rewrite IH. f_equal.
    destruct (frame <- getitem voxels i ;; marching_cubes frame l); reflexivity.
Qed.

(** In [update] each layer has its own [try]: what happens to layer [k]
    depends on the extraction at level [k] alone. *)
Lemma update_layers_nth voxels i idx meshes levels k mesh level :
  nth_error meshes k = Some mesh ->
  nth_error levels k = Some level ->
  nth_error (update_layers voxels i idx meshes levels) k
  = Some match (frame <- getitem voxels i ;; marching_cubes frame level) with
         | Ok g => mesh_set_data g (layer_colors (zdim voxels) (idx + k) g) mesh
         | Raise _ => mesh
         end.
Proof.
  revert idx levels k.
  induction meshes as [| m ms IH]; intros idx levels k Hm Hl.
  - destruct k; discriminate.
  - destruct levels as [| l ls]; [destruct k; discriminate |].
    destruct k as [| k]; cbn [update_layers nth_error] in *.
    + apply Some_inj in Hm. apply Some_inj in Hl. subst.
      rewrite Nat.add_0_r. reflexivity.
    + rewrite (IH (S idx) ls k Hm Hl).
      replace (idx + S k)%nat with (S idx + k)%nat by lia. reflexivity.
Qed.

(** *** Ticks *)

Lemma create_particles_some volume threshold max_points g :
  where_gt volume threshold <> [] ->
  exists p c sz,
    fst (create_particles volume threshold max_points g)
    = [Positions p; Colors c; Sizes sz].
Proof.
  intros H. unfold create_particles.
  destruct (where_gt volume threshold) as [| x l] eqn:E; [congruence |].
  cbn [length Nat.eqb].
  destruct (choice _ _ g) as [indices g']. cbn [fst].
  eexists _, _, _. reflexivity.
Qed.

(** With a particle visual present, the particle block of [update] always
    raises: [ValueError] from the unpacking when no voxel of the frame
    exceeds 0.8, [UnboundLocalError] from reading [center] otherwise.
    Only the generator's state has changed by then. *)
Lemma update_particles_raises s pm frame :
  particles s = Some pm ->
  getitem (voxels s) (current_frame s) = Ok frame ->
  exists g,
    update_particles s
    = (with_gen g s,
       Some (if Nat.eqb (length (where_gt frame (8 # 10))) 0
             then ValueError else UnboundLocalError)).
Proof.
  intros Hp Hf. unfold update_particles. rewrite Hp, Hf.
  destruct (where_gt frame (8 # 10)) as [| x l] eqn:E.
  - destruct (create_particles_none frame (8 # 10) 3000 (gen s) E) as [A _].
    rewrite A. exists (gen s). reflexivity.
  - destruct (create_particles_some frame (8 # 10) 3000 (gen s))
      as (p & c & sz & A); [rewrite E; discriminate |].
    destruct (create_particles frame (8 # 10) 3000 (gen s)) as [ret g].
    cbn [fst] in A. subst ret. exists g. reflexivity.
Qed.

Lemma getitem_mod {A} (xs : list A) (i : nat) :
  xs <> [] -> exists x, getitem xs (i mod length xs) = Ok x.
Proof.
  intros Hne. unfold getitem.
  destruct (nth_error xs (i mod length xs)) as [x |] eqn:E.
  - exists x. reflexivity.
  - apply nth_error_None in E.
    assert (length xs <> 0%nat) by (destruct xs; [congruence | simpl; lia]).
    pose proof (Nat.mod_upper_bound i (length xs)). lia.
Qed.

(** One tick with a particle visual present: the frame index advances,
    the layers' geometry may be replaced, and the body stops in the
    particle block. *)
Lemma update_body_with_particles dt s pm :
  particles s = Some pm ->
  voxels s <> [] ->
  let i := ((current_frame s + 1) mod length (voxels s))%nat in
  exists g frame,
    getitem (voxels s) i = Ok frame
    /\ update_body dt s
       = (with_gen g
            (with_mesh_layers
               (update_layers (voxels s) i 0 (mesh_layers s) iso_levels)
               (with_current_frame i s)),
          Some (if Nat.eqb (length (where_gt frame (8 # 10))) 0
                then ValueError else UnboundLocalError)).
Proof.
  intros Hp Hne i. unfold update_body.
  assert (Hn : Nat.eqb (length (voxels s)) 0 = false).
  { apply Nat.eqb_neq. destruct (voxels s); [congruence | simpl; lia]. }
  rewrite Hn. fold i.
  destruct (getitem_mod (voxels s) (current_frame s + 1) Hne) as [frame Hf].
  fold i in Hf.
  set (s1 := with_mesh_layers _ (with_current_frame i s)).
  destruct (update_particles_raises s1 pm frame Hp Hf) as [g Hg].
  cbn [voxels current_frame with_current_frame with_mesh_layers] in Hg |- *.
  exists g, frame. split; [exact Hf |].
  fold s1. rewrite Hg. reflexivity.
Qed.

Lemma update_with_particles dt s pm :
  particles s = Some pm ->
  voxels s <> [] ->
  voxels (update dt s) = voxels s
  /\ particles (update dt s) = particles s
  /\ rotation (update dt s) = rotation s
  /\ elec_markers (update dt s) = elec_markers s
  /\ map transform (mesh_layers (update dt s)) = map transform (mesh_layers s)
  /\ length (mesh_layers (update dt s)) = length (mesh_layers s)
  /\ current_frame (update dt s)
     = ((current_frame s + 1) mod length (voxels s))%nat.
Proof.
  intros Hp Hne.
  destruct (update_body_with_particles dt s pm Hp Hne) as (g & frame & _ & E).
  unfold update. rewrite E.
  cbn [fst voxels particles rotation elec_markers mesh_layers current_frame
       with_gen with_mesh_layers with_current_frame].
  rewrite update_layers_transform, update_layers_length. repeat split.
Qed.

Lemma run_with_particles dts s pm :
  particles s = Some pm ->
  voxels s <> [] ->
  voxels (run dts s) = voxels s
  /\ particles (run dts s) = particles s
  /\ rotation (run dts s) = rotation s
  /\ elec_markers (run dts s) = elec_markers s
  /\ map transform (mesh_layers (run dts s)) = map transform (mesh_layers s)
  /\ length (mesh_layers (run dts s)) = length (mesh_layers s).
Proof.
  unfold run. revert s.
  induction dts as [| dt dts IH]; intros s Hp Hne; cbn [fold_left].
  - repeat split.
  - destruct (update_with_particles dt s pm Hp Hne) as (A & B & C & D & E & F & _).
    destruct (IH (update dt s)) as (A' & B' & C' & D' & E' & F');
      [congruence | congruence |].
    rewrite A', B', C', D', E', F', A, B, C, D, E, F. repeat split.
Qed.

(** C3.  If the particle visual exists ([particles is not None]), every
    tick raises inside the particle block, before the rotation block:
    [ValueError] from unpacking the two-element [(None, None)], or
    [UnboundLocalError] from reading [center].  The outer [except]
    swallows it, so after any number of ticks the accumulated angle is
    the one the state started with (0 after set-up) and the transform of
    every layer, of the particles and of the electrode markers is
    untouched. *)
Theorem update_never_reaches_rotation s pm (dts : list Q) :
  particles s = Some pm ->
  voxels s <> [] ->
  rotation (run dts s) = rotation s
  /\ map transform (mesh_layers (run dts s)) = map transform (mesh_layers s)
  /\ particles (run dts s) = Some pm
  /\ elec_markers (run dts s) = elec_markers s
  /\ (forall dt,
        snd (update_body dt (run dts s)) = Some ValueError
        \/ snd (update_body dt (run dts s)) = Some UnboundLocalError).
Proof.
  intros Hp Hne.
  destruct (run_with_particles dts s pm Hp Hne) as (A & B & C & D & E & _).
  split; [exact C |]. split; [exact E |].
  split; [congruence |]. split; [exact D |].
  intros dt.
  destruct (update_body_with_particles dt (run dts s) pm) as (g & frame & _ & H);
    [congruence | congruence |].
  rewrite H. cbn [snd].
  destruct (Nat.eqb _ 0); [left | right]; reflexivity.
Qed.

(** *** What the set-up leaves *)

Lemma setup_state voxels ch_pos g s :
  setup voxels ch_pos g = Ok s ->
  Hologram.voxels s = voxels
  /\ voxels <> []
  /\ mesh_layers s = create_layers voxels 0 iso_levels
  /\ rotation s = 0
  /\ current_frame s = 0%nat
  /\ exists pm, particles s = Some pm.
Proof.
  unfold setup. destruct (getitem voxels 0) as [frame0 |] eqn:Hf;
    cbn [bind]; [| discriminate].
  assert (Hne : voxels <> []) by (intros ->; discriminate).
  destruct (where_gt frame0 (8 # 10)) as [| x l] eqn:E.
  - destruct (create_particles_none frame0 (8 # 10) 3000 g E) as [A _].
    rewrite A. cbn [unpack3 bind]. discriminate.
  - destruct (create_particles_some frame0 (8 # 10) 3000 g)
      as (p & c & sz & A); [rewrite E; discriminate |].
    destruct (create_particles frame0 (8 # 10) 3000 g) as [ret g'].
    cbn [fst] in A. subst ret. cbn [unpack3 bind].
    intros H. apply Ok_inj in H. subst s.
    cbn [Hologram.voxels mesh_layers rotation current_frame particles].
    repeat split; try assumption. eexists. reflexivity.
Qed.

(** C5, where the code departs from it.  The set-up loop has one [try]
    around all levels: when the extraction on frame 0 raises at the level
    of rank [k], no layer of rank [k] or later is created, and since
    [update] only revisits the layers that exist, none is generated at
    any later tick either, whatever the extraction would give there. *)
Theorem failed_level_blocks_later_layers
    voxels ch_pos g s frame0 k level e (dts : list Q) :
  setup voxels ch_pos g = Ok s ->
  getitem voxels 0 = Ok frame0 ->
  nth_error iso_levels k = Some level ->
  marching_cubes frame0 level = Raise e ->
  (length (mesh_layers (run dts s)) <= k)%nat.
Proof.
  intros Hs Hf Hk He.
  destruct (setup_state _ _ _ _ Hs) as (Hv & Hne & Hm & _ & _ & pm & Hp).
  destruct (run_with_particles dts s pm Hp) as (_ & _ & _ & _ & _ & Hlen);
    [rewrite Hv; exact Hne |].
  rewrite Hlen, Hm. eapply create_layers_stops; eassumption.
Qed.

(** *** Ticks of a scene without a particle visual *)

Lemma map_const_length {A B C} (c : C) (l1 : list A) (l2 : list B) :
  length l1 = length l2 -> map (fun _ => c) l1 = map (fun _ => c) l2.
Proof.
  revert l2. induction l1 as [| x l1 IH]; intros [| y l2] H;
    simpl in *; try discriminate; [reflexivity |].
  f_equal. apply IH. lia.
Qed.

(** Without particles the tick runs to its end: every layer's transform is
    rebuilt from the identity. *)
Lemma update_without_particles dt s frame0 :
  particles s = None ->
  getitem (voxels s) 0 = Ok frame0 ->
  let angle := rotation s + dt * ROTATION_SPEED in
  let center := half_shape (shape frame0) in
  voxels (update dt s) = voxels s
  /\ particles (update dt s) = None
  /\ snd (update_body dt s) = None
  /\ rotation (update dt s) = angle
  /\ current_frame (update dt s)
     = ((current_frame s + 1) mod length (voxels s))%nat
  /\ length (mesh_layers (update dt s)) = length (mesh_layers s)
  /\ map transform (mesh_layers (update dt s))
     = map (fun _ => [Translate (neg3 center); Rotate angle z_axis])
           (mesh_layers s)
  /\ markers_transform (elec_markers (update dt s)) = [Rotate angle z_axis].
Proof.
  intros Hp Hf angle center. unfold update, update_body.
  assert (Hn : Nat.eqb (length (voxels s)) 0 = false).
  { apply Nat.eqb_neq. destruct (voxels s); [discriminate | simpl; lia]. }
  rewrite Hn. unfold update_particles.
  cbn [particles with_mesh_layers with_current_frame]. rewrite Hp.
  unfold rotate_everything.
  cbn [voxels rotation with_rotation with_mesh_layers with_current_frame].
  rewrite Hf.
  cbn [fst snd voxels particles rotation current_frame mesh_layers elec_markers
       with_elec_markers with_particles with_mesh_layers with_rotation
       with_current_frame SHOW_ELECTRODES markers_set_transform
       markers_transform option_map].
  rewrite Hp. cbn [option_map].
  rewrite length_map, update_layers_length, map_map.
  repeat split.
  exact (map_const_length [Translate (neg3 center); Rotate angle z_axis] _ _
           (update_layers_length _ _ _ _ _)).
Qed.

Lemma update_geometry dt s :
  voxels s <> [] ->
  map geometry_of (mesh_layers (update dt s))
  = map geometry_of
      (update_layers (voxels s)
         ((current_frame s + 1) mod length (voxels s)) 0 (mesh_layers s)
         iso_levels).
Proof.
  intros Hne. destruct (particles s) as [pm |] eqn:Hp.
  - destruct (update_body_with_particles dt s pm Hp Hne) as (g & frame & _ & E).
    unfold update. rewrite E. reflexivity.
  - unfold update, update_body.
    assert (Hn : Nat.eqb (length (voxels s)) 0 = false).
    { apply Nat.eqb_neq. destruct (voxels s); [congruence | simpl; lia]. }
    rewrite Hn. unfold update_particles.
    cbn [particles with_mesh_layers with_current_frame]. rewrite Hp.
    unfold rotate_everything.
    cbn [voxels rotation with_rotation with_mesh_layers with_current_frame].
    destruct (getitem (voxels s) 0); [| reflexivity].
    cbn [fst mesh_layers with_elec_markers with_particles with_mesh_layers
         SHOW_ELECTRODES].
    rewrite map_map. reflexivity.
Qed.

(** In [update] no layer blocks another: after the tick, layer [k] has the
    geometry extracted at its own level from the new frame when that
    extraction succeeds, and keeps the geometry it had when it raises,
    whatever happens at the other levels. *)
Theorem update_layers_independent dt s k mesh level frame :
  nth_error (mesh_layers s) k = Some mesh ->
  nth_error iso_levels k = Some level ->
  getitem (voxels s) ((current_frame s + 1) mod length (voxels s)) = Ok frame ->
  exists mesh',
    nth_error (mesh_layers (update dt s)) k = Some mesh'
    /\ geometry_of mesh'
       = match marching_cubes frame level with
         | Ok g => (verts g, faces g, layer_colors (zdim (voxels s)) k g)
         | Raise _ => geometry_of mesh
         end.
Proof.
  intros Hm Hl Hf.
  assert (Hne : voxels s <> []).
  { intros E. rewrite E in Hf.
    assert (Hnil : forall i, getitem (@nil volume) i = Raise IndexError)
      by (intros [| i]; reflexivity).
    rewrite Hnil in Hf. discriminate. }
  pose proof (f_equal (fun l => nth_error l k) (update_geometry dt s Hne)) as H.
  cbv beta in H. rewrite !nth_error_map in H.
  rewrite (update_layers_nth _ _ 0%nat _ _ _ _ _ Hm Hl), Hf in H.
  cbn [bind option_map] in H.
  destruct (nth_error (mesh_layers (update dt s)) k) as [mesh' |];
    cbn [option_map] in H; [| discriminate].
  exists mesh'. split; [reflexivity |].
  apply Some_inj in H. rewrite H.
  destruct (marching_cubes frame level); reflexivity.
Qed.

Lemma layer_colors_vertex zd idx g i v :
  nth_error (verts g) i = Some v ->
  exists c, nth_error (layer_colors zd idx g) i = Some c
            /\ alpha c = layer_alpha idx.
Proof.
  intros H. unfold layer_colors. rewrite nth_error_map, H. cbn [option_map].
  eexists. split; [reflexivity | apply alpha_set_alpha].
Qed.

Lemma layer_alpha_rank k :
  (1 <= k)%nat ->
  layer_alpha (k - 1)
  == (15 # 100) + (1 # 10) * (inject_Z (Z.of_nat k)
                              / inject_Z (Z.of_nat NUM_LAYERS)).
Proof.
  intros Hk. unfold layer_alpha.
  replace (k - 1 + 1)%nat with k by lia. reflexivity.
Qed.

(** A layer of rank [idx + 1] as the two loops colour it. *)
Lemma layer_colors_every_vertex zd idx g m t :
  vertices m = verts g ->
  vertex_colors m = layer_colors zd idx g ->
  every_vertex_alpha (layer_alpha idx) (mesh_set_transform t m).
Proof.
  intros Hv Hc i v H. cbn [mesh_set_transform vertices vertex_colors] in *.
  rewrite Hv in H. rewrite Hc.
  destruct (layer_colors_vertex zd idx g i v H) as (c & E & A).
  exists c. split; [exact E |]. unfold alpha in A. rewrite A. reflexivity.
Qed.

Lemma every_vertex_alpha_geometry a m m' :
  geometry_of m = geometry_of m' ->
  every_vertex_alpha a m -> every_vertex_alpha a m'.
Proof.
  unfold geometry_of. intros E H i v Hi.
  injection E as Ev _ Ec. rewrite <- Ev in Hi. rewrite <- Ec. exact (H i v Hi).
Qed.

Lemma create_layers_alpha voxels idx levels k mesh :
  nth_error (create_layers voxels idx levels) k = Some mesh ->
  every_vertex_alpha (layer_alpha (idx + k)) mesh.
Proof.
  intros H.
  destruct (create_layers_nth _ _ _ _ _ H) as (frame & level & g & _ & _ & _ & ->).
  apply (layer_colors_every_vertex (zdim voxels) (idx + k) g
           {| vertices := verts g; mesh_faces := faces g;
              vertex_colors := layer_colors (zdim voxels) (idx + k) g;
              transform := identity |}); reflexivity.
Qed.

(** The per-tick loop keeps every layer coloured by its own rank, whether it
    replaces the layer's data or leaves it. *)
Lemma update_layers_alpha voxels i idx meshes levels :
  (forall k mesh, nth_error meshes k = Some mesh ->
                  every_vertex_alpha (layer_alpha (idx + k)) mesh) ->
  forall k mesh,
    nth_error (update_layers voxels i idx meshes levels) k = Some mesh ->
    every_vertex_alpha (layer_alpha (idx + k)) mesh.
Proof.
  revert idx levels.
  induction meshes as [| m meshes IH]; intros idx levels Hall k mesh H;
    [cbn [update_layers] in H; destruct k; discriminate |].
  destruct levels as [| level levels]; [exact (Hall k mesh H) |].
  cbn [update_layers] in H. destruct k as [| k]; cbn [nth_error] in H.
  - apply Some_inj in H. subst mesh. rewrite Nat.add_0_r.
    destruct (frame <- getitem voxels i;; marching_cubes frame level) as [g |].
    + apply (layer_colors_every_vertex (zdim voxels) idx g
               (mesh_set_data g (layer_colors (zdim voxels) idx g) m)
               (transform m)); reflexivity.
    + specialize (Hall 0%nat m eq_refl). rewrite Nat.add_0_r in Hall. exact Hall.
  - replace (idx + S k)%nat with (S idx + k)%nat by lia.
    apply (IH (S idx) levels); [| exact H].
    intros k' mesh' H'. replace (S idx + k')%nat with (idx + S k')%nat by lia.
    apply Hall. exact H'.
Qed.

Lemma update_alpha dt s :
  (forall k mesh, nth_error (mesh_layers s) k = Some mesh ->
                  every_vertex_alpha (layer_alpha k) mesh) ->
  forall k mesh,
    nth_error (mesh_layers (update dt s)) k = Some mesh ->
    every_vertex_alpha (layer_alpha k) mesh.
Proof.
  intros Hall k mesh H.
  destruct (Hologram.voxels s) as [| frame0 rest] eqn:Ev.
  - unfold update, update_body in H. rewrite Ev in H. cbn [length Nat.eqb fst] in H.
    exact (Hall k mesh H).
  - assert (Hne : Hologram.voxels s <> []) by (rewrite Ev; discriminate).
    pose proof (update_geometry dt s Hne) as G.
    apply (f_equal (fun l => nth_error l k)) in G.
    rewrite !nth_error_map, H in G. cbn [option_map] in G.
    destruct (nth_error (update_layers (Hologram.voxels s)
                (Nat.modulo (current_frame s + 1) (length (Hologram.voxels s))) 0
                (mesh_layers s) iso_levels) k) as [m' |] eqn:E;
      cbn [option_map] in G; [| discriminate].
    apply Some_inj in G.
    apply (every_vertex_alpha_geometry _ m' mesh (eq_sym G)).
    apply (update_layers_alpha _ _ 0%nat _ _ Hall k m' E).
Qed.

(** C9.  The layer of rank [k] of [N = NUM_LAYERS] has, at every one of
    its vertices, a colour of alpha [0.15 + 0.1 * (k / N)]: as the set-up
    loop creates it, as [update] replaces its data, and in every state the
    script reaches after any number of ticks.  That alpha does not decrease
    with the rank. *)
Theorem layer_alpha_by_rank :
  (forall voxels k mesh,
      (1 <= k <= NUM_LAYERS)%nat ->
      nth_error (create_layers voxels 0 iso_levels) (k - 1) = Some mesh ->
      length (vertex_colors mesh) = length (vertices mesh)
      /\ every_vertex_alpha
           ((15 # 100) + (1 # 10) * (inject_Z (Z.of_nat k)
                                     / inject_Z (Z.of_nat NUM_LAYERS)))
           mesh)
  /\ (forall voxels i meshes k mesh level frame g,
         (1 <= k <= NUM_LAYERS)%nat ->
         nth_error meshes (k - 1) = Some mesh ->
         nth_error iso_levels (k - 1) = Some level ->
         getitem voxels i = Ok frame ->
         marching_cubes frame level = Ok g ->
         exists mesh',
           nth_error (update_layers voxels i 0 meshes iso_levels) (k - 1)
           = Some mesh'
           /\ vertices mesh' = verts g
           /\ length (vertex_colors mesh') = length (verts g)
           /\ every_vertex_alpha
                ((15 # 100) + (1 # 10) * (inject_Z (Z.of_nat k)
                                          / inject_Z (Z.of_nat NUM_LAYERS)))
                mesh')
  /\ (forall voxels ch_pos gen0 s dts k mesh,
         setup voxels ch_pos gen0 = Ok s ->
         (1 <= k <= NUM_LAYERS)%nat ->
         nth_error (mesh_layers (run dts s)) (k - 1) = Some mesh ->
         every_vertex_alpha
           ((15 # 100) + (1 # 10) * (inject_Z (Z.of_nat k)
                                     / inject_Z (Z.of_nat NUM_LAYERS)))
           mesh)
  /\ (forall j k : nat,
         (1 <= j <= k)%nat ->
         (15 # 100) + (1 # 10) * (inject_Z (Z.of_nat j)
                                  / inject_Z (Z.of_nat NUM_LAYERS))
         <= (15 # 100) + (1 # 10) * (inject_Z (Z.of_nat k)
                                     / inject_Z (Z.of_nat NUM_LAYERS))).
Proof.
  assert (Hrank : forall k mesh,
            (1 <= k)%nat ->
            every_vertex_alpha (layer_alpha (k - 1)) mesh ->
            every_vertex_alpha
              ((15 # 100) + (1 # 10) * (inject_Z (Z.of_nat k)
                                        / inject_Z (Z.of_nat NUM_LAYERS)))
              mesh).
  { intros k mesh Hk H i v Hi. destruct (H i v Hi) as (c & E & A).
    exists c. split; [exact E |]. rewrite A. apply layer_alpha_rank, Hk. }
  split; [| split; [| split]].
  - intros voxels k mesh Hk H. split.
    + destruct (create_layers_nth _ _ _ _ _ H)
        as (frame & level & g & _ & _ & _ & ->).
      cbn [vertex_colors vertices]. unfold layer_colors. apply length_map.
    + apply Hrank; [lia |]. apply (create_layers_alpha voxels 0 iso_levels), H.
  - intros voxels i meshes k mesh level frame g Hk Hm Hl Hf Hg.
    eexists. split; [apply (update_layers_nth _ _ 0%nat _ _ _ _ _ Hm Hl) |].
    rewrite Hf. cbn [bind]. rewrite Hg. cbn [mesh_set_data vertices vertex_colors].
    split; [reflexivity |].
    split; [unfold layer_colors; apply length_map |].
    apply Hrank; [lia |]. cbn [Nat.add].
    apply (layer_colors_every_vertex (zdim voxels) (k - 1) g
             (mesh_set_data g (layer_colors (zdim voxels) (k - 1) g) mesh)
             (transform mesh)); reflexivity.
  - intros voxels ch_pos gen0 s dts k mesh Hs Hk H.
    apply Hrank; [lia |].
    destruct (setup_state _ _ _ _ Hs) as (_ & _ & Hm & _).
    assert (Hinv : forall k mesh,
              nth_error (mesh_layers (run dts s)) k = Some mesh ->
              every_vertex_alpha (layer_alpha k) mesh).
    { clear k mesh Hk H. unfold run.
      assert (H0 : forall k mesh, nth_error (mesh_layers s) k = Some mesh ->
                                  every_vertex_alpha (layer_alpha k) mesh).
      { intros k mesh H. rewrite Hm in H.
        exact (create_layers_alpha voxels 0 iso_levels k mesh H). }
      clear Hm Hs. revert s H0.
      induction dts as [| dt dts IH]; intros s H0; cbn [fold_left];
        [exact H0 |].
      apply IH. apply update_alpha. exact H0. }
    exact (Hinv _ _ H).
  - intros j k Hjk.
    assert (H : inject_Z (Z.of_nat j) <= inject_Z (Z.of_nat k))
      by (rewrite <- Zle_Qle; lia).
    unfold NUM_LAYERS. change (inject_Z (Z.of_nat 5)) with 5.
    unfold Qdiv. change (/ 5) with (1 # 5). lra.
Qed.

Lemma run_without_particles dts s :
  particles s = None ->
  voxels s <> [] ->
  voxels (run dts s) = voxels s
  /\ particles (run dts s) = None
  /\ length (mesh_layers (run dts s)) = length (mesh_layers s).
Proof.
  unfold run. revert s.
  induction dts as [| dt dts IH]; intros s Hp Hne; cbn [fold_left].
  - repeat split. exact Hp.
  - destruct (getitem_mod (voxels s) 0 Hne) as [frame0 Hf].
    rewrite Nat.Div0.mod_0_l in Hf.
    destruct (update_without_particles dt s frame0 Hp Hf)
      as (A & B & _ & _ & _ & C & _).
    destruct (IH (update dt s)) as (A' & B' & C'); [exact B | congruence |].
    rewrite A', C', A, C. repeat split. exact B'.
Qed.

Lemma run_snoc dts dt s : run (dts ++ [dt]) s = update dt (run dts s).
Proof. unfold run. rewrite fold_left_app. reflexivity. Qed.

Lemma run_ends_fresh_without_particles dts s frame0 :
  particles s = None ->
  getitem (voxels s) 0 = Ok frame0 ->
  dts <> [] ->
  particles (run dts s) = None
  /\ map transform (mesh_layers (run dts s))
     = map (fun _ => [Translate (neg3 (half_shape (shape frame0)));
                      Rotate (rotation (run dts s)) z_axis])
           (mesh_layers s)
  /\ markers_transform (elec_markers (run dts s))
     = [Rotate (rotation (run dts s)) z_axis].
Proof.
  intros Hp Hf Hd.
  destruct (exists_last Hd) as (dts' & dt & ->).
  assert (Hne : voxels s <> []) by (intros E; rewrite E in Hf; discriminate).
  destruct (run_without_particles dts' s Hp Hne) as (A & B & C).
  rewrite run_snoc.
  destruct (update_without_particles dt (run dts' s) frame0 B)
    as (_ & P & _ & R & _ & _ & T & E); [rewrite A; exact Hf |].
  cbv zeta in R, T, E.
  split; [exact P |]. split.
  - rewrite T, R. apply map_const_length, C.
  - rewrite E, R. reflexivity.
Qed.

End Scene.

(** In viz_hologram nothing ever rotates.  The set-up only succeeds with a
    particle visual (without one, the unpacking at line 85 has ended the
    script), so from the state it leaves every tick stops before the rotation
    block: the angle stays 0 and every transform stays the one given at
    set-up. *)
Theorem hologram_never_rotates {L : SceneLib} voxels ch_pos g s (dts : list Q) :
  setup voxels ch_pos g = Ok s ->
  rotation (run dts s) = 0
  /\ map transform (mesh_layers (run dts s)) = map transform (mesh_layers s)
  /\ option_map markers_transform (particles (run dts s))
     = option_map markers_transform (particles s)
  /\ markers_transform (elec_markers (run dts s)) = identity.
Proof.
  intros Hs.
  destruct (setup_state _ _ _ _ Hs) as (Hv & Hne & _ & Hr & _ & pm & Hp).
  destruct (run_with_particles dts s pm Hp) as (_ & P & R & E & T & _);
    [rewrite Hv; exact Hne |].
  rewrite R, P, E, T, Hr. repeat split.
  unfold setup in Hs. destruct (getitem voxels 0); cbn [bind] in Hs; [| discriminate].
  destruct (create_particles _ _ _ g) as [ret g'].
  destruct (unpack3 ret) as [[[u1 u2] u3] |]; cbn [bind] in Hs; [| discriminate].
  apply Ok_inj in Hs. subst s. reflexivity.
Qed.

Lemma hologram_never_rotates_witness :
  rotation (run (L := Samples.scene_lib) [1 # 30; 1 # 30] Samples.scene_state) = 0
  /\ current_frame (run (L := Samples.scene_lib) [1 # 30; 1 # 30] Samples.scene_state)
     = 0%nat.
Proof.
  split; [| reflexivity].
  exact (proj1 (@hologram_never_rotates Samples.scene_lib
                  [Samples.ramp; Samples.flat (9 # 10)] [(1, 1, 1)] 0%nat
                  Samples.scene_state [1 # 30; 1 # 30] eq_refl)).
Defined.

Lemma create_layers_length {L : SceneLib} voxels idx levels :
  (length (create_layers voxels idx levels) <= length levels)%nat.
Proof.
  revert idx. induction levels as [| level rest IH]; intros idx; simpl; [lia |].
  destruct (frame <- getitem voxels 0 ;; g <- marching_cubes frame level ;; Ok (frame, g))
    as [[frame g] |]; simpl; [| lia].
  specialize (IH (S idx)). lia.
Qed.

(** The thresholds are [NUM_LAYERS] values strictly between 0 and 1 in
    strictly increasing order, and at no tick are there more layers than
    thresholds. *)
Theorem layers_bounded_by_levels {L : SceneLib} voxels ch_pos g s (dts : list Q) :
  setup voxels ch_pos g = Ok s ->
  length iso_levels = NUM_LAYERS
  /\ Sorted.StronglySorted Qlt iso_levels
  /\ Forall (fun level => 0 < level < 1) iso_levels
  /\ (length (mesh_layers (run dts s)) <= NUM_LAYERS)%nat.
Proof.
  intros Hs.
  split; [reflexivity |].
  split; [repeat constructor |].
  split; [repeat constructor |].
  destruct (setup_state _ _ _ _ Hs) as (Hv & Hne & Hm & _ & _ & pm & Hp).
  destruct (run_with_particles dts s pm Hp) as (_ & _ & _ & _ & _ & Hlen);
    [rewrite Hv; exact Hne |].
  rewrite Hlen, Hm. apply (create_layers_length voxels 0 iso_levels).
Qed.

Lemma layers_bounded_by_levels_witness :
  length (mesh_layers (run (L := Samples.scene_lib) [1 # 30] Samples.scene_state))
  = 5%nat
  /\ (length (mesh_layers (run (L := Samples.scene_lib) [1 # 30] Samples.scene_state))
      <= NUM_LAYERS)%nat.
Proof.
  split; [reflexivity |].
  exact (proj2 (proj2 (proj2
           (@layers_bounded_by_levels Samples.scene_lib
              [Samples.ramp; Samples.flat (9 # 10)] [(1, 1, 1)] 0%nat
              Samples.scene_state [1 # 30] eq_refl)))).
Defined.

Lemma update_layers_independent_witness :
  let s := Samples.mixed_state in
  (exists mesh',
      nth_error (mesh_layers (update (L := Samples.scene_lib) (1 # 30) s)) 0
      = Some mesh'
      /\ option_map geometry_of (nth_error (mesh_layers s) 0)
         = Some (geometry_of mesh'))
  /\ (exists mesh',
         nth_error (mesh_layers (update (L := Samples.scene_lib) (1 # 30) s)) 2
         = Some mesh'
         /\ vertices mesh'
            = map float3 (where_gt Samples.upper (55 # 100))).
Proof.
  intros s. split.
  - destruct (nth_error (mesh_layers s) 0) as [mesh |] eqn:Hm; [| discriminate Hm].
    destruct (@update_layers_independent Samples.scene_lib (1 # 30) s 0%nat
                mesh _ Samples.upper Hm eq_refl eq_refl) as (mesh' & A & B).
    exists mesh'. split; [exact A |].
    cbn [option_map]. rewrite B. reflexivity.
  - destruct (nth_error (mesh_layers s) 2) as [mesh |] eqn:Hm; [| discriminate Hm].
    destruct (@update_layers_independent Samples.scene_lib (1 # 30) s 2%nat
                mesh _ Samples.upper Hm eq_refl eq_refl) as (mesh' & A & B).
    exists mesh'. split; [exact A |].
    change (vertices mesh') with (fst (fst (geometry_of mesh'))).
    rewrite B. vm_compute. reflexivity.
Defined.

Lemma layer_alpha_by_rank_witness :
  exists mesh,
    nth_error (mesh_layers (run (L := Samples.scene_lib) [1 # 30]
                              Samples.scene_state)) 2
    = Some mesh
    /\ vertices mesh <> []
    /\ length (vertex_colors mesh) = length (vertices mesh)
    /\ every_vertex_alpha
         ((15 # 100) + (1 # 10) * (inject_Z (Z.of_nat 3)
                                   / inject_Z (Z.of_nat NUM_LAYERS)))
         mesh.
Proof.
  destruct (nth_error (mesh_layers (run (L := Samples.scene_lib) [1 # 30]
                                      Samples.scene_state)) 2)
    as [mesh |] eqn:E; [| vm_compute in E; discriminate].
  exists mesh. split; [reflexivity |].
  assert (Hs : setup (L := Samples.scene_lib)
                 [Samples.ramp; Samples.flat (9 # 10)] [(1, 1, 1)] 0%nat
               = Ok Samples.scene_state) by (vm_compute; reflexivity).
  pose proof (proj1 (proj2 (proj2 (@layer_alpha_by_rank Samples.scene_lib)))
                _ _ _ _ [1 # 30] 3%nat mesh Hs ltac:(vm_compute; lia) E) as A.
  vm_compute in E. apply Some_inj in E. subst mesh.
  split; [discriminate |]. split; [reflexivity | exact A].
Defined.

Lemma update_never_reaches_rotation_witness :
  let s := Samples.scene_state in
  let dts := [1 # 30; 1 # 30; 1 # 30] in
  length (mesh_layers s) = 5%nat
  /\ rotation (run (L := Samples.scene_lib) dts s) = rotation s
  /\ map transform (mesh_layers (run (L := Samples.scene_lib) dts s))
     = map transform (mesh_layers s)
  /\ elec_markers (run (L := Samples.scene_lib) dts s) = elec_markers s.
Proof.
  intros s dts. split; [reflexivity |].
  destruct (particles s) as [pm |] eqn:Hp; [| discriminate Hp].
  assert (Hne : voxels s <> []) by discriminate.
  destruct (@update_never_reaches_rotation Samples.scene_lib s pm dts Hp Hne)
    as (A & B & _ & D & _).
  split; [exact A |]. split; [exact B | exact D].
Defined.

Lemma failed_level_blocks_later_layers_witness :
  let dts := [1 # 30; 1 # 30] in
  (length (mesh_layers (run (L := Samples.scene_lib) dts Samples.blocked_state))
   <= 0)%nat.
Proof.
  intros dts.
  exact (@failed_level_blocks_later_layers Samples.scene_lib
           [Samples.flat (9 # 10); Samples.ramp] [(1, 1, 1)] 0%nat
           Samples.blocked_state (Samples.flat (9 # 10)) 0%nat _ ValueError dts
           eq_refl eq_refl eq_refl eq_refl).
Defined.

(** The run behind the witness: frame 1 has a surface at each of the five
    levels, yet after the tick that shows it there is still no layer. *)
Example blocked_state_tick :
  Forall (fun level =>
            exists g, marching_cubes (SceneLib := Samples.scene_lib)
                        Samples.ramp level = Ok g)
         iso_levels
  /\ current_frame (update (L := Samples.scene_lib) (1 # 30) Samples.blocked_state)
     = 1%nat
  /\ mesh_layers (update (L := Samples.scene_lib) (1 # 30) Samples.blocked_state)
     = [].
Proof.
  split; [| split; reflexivity].
  repeat constructor; eexists; reflexivity.
Qed.

End SceneFacts.

(** ** The animation loop of both scripts *)

Module Animation.
Import Py Np Vispy NpFacts.

Lemma int_inject_Z x k : x == inject_Z k -> int x = k.
Proof.
  intros H. unfold int.
  rewrite (Qfloor_comp _ _ H), (Qceiling_comp _ _ H), Qfloor_Z, Qceiling_Z.
  destruct (Qle_bool 0 x); reflexivity.
Qed.

Lemma interactive_update_index (s : Interactive.state) dt k :
  Interactive.voxels s <> [] ->
  Interactive.params s Interactive.frame_skip == inject_Z k ->
  (1 <= k)%Z ->
  Interactive.current_frame (Interactive.update dt s)
  = Z.to_nat ((Z.of_nat (Interactive.current_frame s) + k)
              mod Z.of_nat (length (Interactive.voxels s))).
Proof.
  intros Hne Hk H1.
  destruct (InteractiveFacts.update_body_runs dt s Hne) as (_ & A & _).
  rewrite A, (int_inject_Z _ _ Hk). rewrite Z.max_r by exact H1. reflexivity.
Qed.

Lemma hologram_update_index {LS : Hologram.SceneLib} (s : Hologram.state) dt :
  Hologram.voxels s <> [] ->
  Hologram.current_frame (Hologram.update dt s)
  = ((Hologram.current_frame s + 1) mod length (Hologram.voxels s))%nat.
Proof.
  intros Hne. destruct (Hologram.particles s) as [pm |] eqn:Hp.
  - apply (SceneFacts.update_with_particles dt s pm Hp Hne).
  - destruct (SceneFacts.getitem_mod (Hologram.voxels s) 0 Hne) as [frame0 Hf].
    rewrite Nat.Div0.mod_0_l in Hf.
    apply (SceneFacts.update_without_particles dt s frame0 Hp Hf).
Qed.

(** C7.  A tick of the interactive script moves the frame index forward by
    [frame_skip] (a whole number from 1 up, as its slider delivers it) modulo
    the length of the series; with [frame_skip = 2] on five frames, from
    index 0, the indices after the successive ticks are 2, 4, 1, 3, 0.  The
    hologram script has no [frame_skip]: its tick moves the index by one
    modulo the length, and does so before any extraction and whatever
    [marching_cubes] returns or raises. *)
Theorem frame_index_advances :
  (forall (s : Interactive.state) dt k,
      Interactive.voxels s <> [] ->
      Interactive.params s Interactive.frame_skip == inject_Z k ->
      (1 <= k)%Z ->
      Interactive.current_frame (Interactive.update dt s)
      = Z.to_nat ((Z.of_nat (Interactive.current_frame s) + k)
                  mod Z.of_nat (length (Interactive.voxels s))))
  /\ (forall (LA : Interactive.ArrayLib) (s : Interactive.state) d1 d2 d3 d4 d5,
         length (Interactive.voxels s) = 5%nat ->
         Interactive.current_frame s = 0%nat ->
         Interactive.params s Interactive.frame_skip == 2 ->
         map (fun dts =>
                Interactive.current_frame
                  (Interactive.run (map Interactive.Tick dts) s))
             [ []; [d1]; [d1; d2]; [d1; d2; d3]; [d1; d2; d3; d4];
               [d1; d2; d3; d4; d5] ]
         = [0; 2; 4; 1; 3; 0]%nat)
  /\ (forall (LS : Hologram.SceneLib) (s : Hologram.state) dt,
         Hologram.voxels s <> [] ->
         Hologram.current_frame (Hologram.update dt s)
         = ((Hologram.current_frame s + 1)
            mod length (Hologram.voxels s))%nat).
Proof.
  split; [| split].
  - intros s dt k. apply interactive_update_index.
  - intros LA s d1 d2 d3 d4 d5 Hlen H0 Hskip.
    assert (Hstep : forall s' dt,
               length (Interactive.voxels s') = 5%nat ->
               Interactive.params s' Interactive.frame_skip == 2 ->
               let s'' := Interactive.update dt s' in
               length (Interactive.voxels s'') = 5%nat
               /\ Interactive.params s'' Interactive.frame_skip == 2
               /\ Interactive.current_frame s''
                  = Z.to_nat ((Z.of_nat (Interactive.current_frame s') + 2) mod 5)).
    { intros s' dt Hl Hp s''. subst s''.
      destruct (InteractiveFacts.update_frame dt s') as (A & _ & B & _).
      rewrite A, B. split; [exact Hl |]. split; [exact Hp |].
      rewrite (interactive_update_index s' dt 2); [ | | exact Hp | lia].
      - rewrite Hl. reflexivity.
      - intros E. rewrite E in Hl. discriminate. }
    cbn [map Interactive.run fold_left Interactive.step].
    destruct (Hstep s d1 Hlen Hskip) as (L1 & P1 & C1).
    destruct (Hstep _ d2 L1 P1) as (L2 & P2 & C2).
    destruct (Hstep _ d3 L2 P2) as (L3 & P3 & C3).
    destruct (Hstep _ d4 L3 P3) as (L4 & P4 & C4).
    destruct (Hstep _ d5 L4 P4) as (_ & _ & C5).
    rewrite C5, C4, C3, C2, C1, H0. reflexivity.
  - intros LS s dt. apply hologram_update_index.
Qed.

Lemma frame_index_advances_witness :
  let s := Samples.interactive_state in
  Interactive.voxels s <> []
  /\ Interactive.params s Interactive.frame_skip == inject_Z 1
  /\ Interactive.current_frame
       (Interactive.update (1 # 30) s)
     = Z.to_nat ((Z.of_nat (Interactive.current_frame s) + 1)
                 mod Z.of_nat (length (Interactive.voxels s))).
Proof.
  intros s.
  assert (Hne : Interactive.voxels s <> []) by discriminate.
  assert (Hk : Interactive.params s Interactive.frame_skip == inject_Z 1)
    by reflexivity.
  split; [exact Hne |]. split; [exact Hk |].
  apply (proj1 frame_index_advances s (1 # 30) 1%Z Hne Hk).
  lia.
Defined.

Lemma vec3_eq_refl a : vec3_eq a a.
Proof. unfold vec3_eq. repeat split; reflexivity. Qed.


Lemma transform_eq_refl m : transform_eq m m.
Proof.
  induction m as [| f m IH]; constructor; [| exact IH].
  destruct f; simpl; [apply vec3_eq_refl | split; [reflexivity | apply vec3_eq_refl]].
Qed.





End Animation.

(** ** The parameter store of viz_interactive.py *)

Module StoreFacts.
Import Py Np Vispy Interactive NpFacts InteractiveFacts.

Lemma param_name_eqb_refl k : param_name_eqb k k = true.
Proof. apply param_name_eqb_eq. reflexivity. Qed.

Lemma param_name_eqb_neq a b : a <> b -> param_name_eqb a b = false.
Proof.
  intros H. destruct (param_name_eqb a b) eqn:E; [| reflexivity].
  apply param_name_eqb_eq in E. contradiction.
Qed.

(** What one [setValue] does to the store: the slider takes the bounded
    value, the other sliders and parameters are untouched. *)
Lemma setValue_store name v s :
  value (sliders (setValue name v s) name)
  = Z.max (minimum (sliders s name)) (Z.min (maximum (sliders s name)) v)
  /\ (forall k, k <> name ->
        sliders (setValue name v s) k = sliders s k
        /\ params (setValue name v s) k = params s k).
Proof.
  unfold setValue.
  destruct (Z.eqb _ (value (sliders s name))) eqn:E.
  - apply Z.eqb_eq in E. split; [symmetry; exact E | intros; split; reflexivity].
  - match goal with
    | |- context [update_param name ?v' ?s'] =>
        destruct (update_param_store name v' s') as [Hp Hs]
    end.
    rewrite Hp, Hs. cbn [sliders params with_sliders]. unfold set_param.
    rewrite param_name_eqb_refl. cbn [value]. split; [reflexivity |].
    intros k Hk. rewrite (param_name_eqb_neq name k) by congruence.
    split; reflexivity.
Qed.

Lemma update_param_live name v s :
  live_synced s -> live_synced (update_param name v s).
Proof.
  unfold live_synced. intros (A & B & C).
  destruct name; cbn; rewrite ?A, ?B, ?C; repeat split; reflexivity.
Qed.

Lemma setValue_live name v s : live_synced s -> live_synced (setValue name v s).
Proof.
  intros H. unfold setValue. destruct (Z.eqb _ _); [exact H |].
  apply update_param_live. exact H.
Qed.

Lemma reset_defaults_live s : live_synced s -> live_synced (reset_defaults s).
Proof.
  unfold reset_defaults. generalize defaults. intros l. revert s.
  induction l as [| [name d] l IH]; intros s H; cbn [fold_left]; [exact H |].
  apply IH, setValue_live, H.
Qed.

Lemma update_param_data name v s :
  data (holo (update_param name v s)) = data (holo s).
Proof. destruct name; reflexivity. Qed.

Lemma setValue_data name v s : data (holo (setValue name v s)) = data (holo s).
Proof.
  unfold setValue. destruct (Z.eqb _ _); [reflexivity |].
  rewrite update_param_data. reflexivity.
Qed.

Lemma reset_defaults_data s : data (holo (reset_defaults s)) = data (holo s).
Proof.
  unfold reset_defaults. generalize defaults. intros l. revert s.
  induction l as [| [name d] l IH]; intros s; cbn [fold_left]; [reflexivity |].
  rewrite IH. apply setValue_data.
Qed.

(** *** Declared ranges *)

Lemma scaled_between (v a b : Z) (sc lo hi : Q) :
  0 < sc -> lo * sc <= inject_Z a -> inject_Z b <= hi * sc ->
  (a <= v <= b)%Z -> lo <= inject_Z v / sc <= hi.
Proof.
  intros Hsc Ha Hb [H1 H2]. split.
  - apply Qle_shift_div_l; [exact Hsc |].
    apply Qle_trans with (inject_Z a); [exact Ha |]. rewrite <- Zle_Qle. exact H1.
  - apply Qle_shift_div_r; [exact Hsc |].
    apply Qle_trans with (inject_Z b); [| exact Hb]. rewrite <- Zle_Qle. exact H2.
Qed.

Lemma range_checked_declared s k :
  range_checked s ->
  fst (declared_range k) <= params s k <= snd (declared_range k).
Proof.
  intros H. destruct (H k) as (A & B & C & D & E).
  rewrite E, C. rewrite A, B in D.
  apply (scaled_between _ _ _ _ _ _ ) with (4 := D);
    destruct k; vm_compute; congruence.
Qed.

(** *** Reset *)

(** Running [setValue] over a list of (name, default) pairs with distinct
    names, each default landing on the position the slider was created
    with. *)
Lemma fold_setValue_positions (l : list (param_name * Q)) s :
  range_checked s ->
  NoDup (map fst l) ->
  (forall name d, In (name, d) l ->
     let sl := initial_sliders default_params name in
     Z.max (minimum sl) (Z.min (maximum sl) (int (d * scale sl))) = value sl) ->
  let s' := fold_left
              (fun s nv => setValue (fst nv) (int (snd nv * scale (sliders s (fst nv)))) s)
              l s in
  range_checked s'
  /\ (forall name, In name (map fst l) ->
        value (sliders s' name) = value (initial_sliders default_params name))
  /\ (forall k, ~ In k (map fst l) ->
        sliders s' k = sliders s k /\ params s' k = params s k).
Proof.
  revert s. induction l as [| [name d] l IH]; intros s Hr Hnd Hpos; cbn [fold_left].
  - split; [exact Hr |]. split; [intros name [] | intros; split; reflexivity].
  - cbn [map fst snd] in *. apply NoDup_cons_iff in Hnd. destruct Hnd as [Hnot Hnd].
    set (s1 := setValue name (int (d * scale (sliders s name))) s).
    assert (Hr1 : range_checked s1) by (apply setValue_range_checked, Hr).
    destruct (setValue_store name (int (d * scale (sliders s name))) s) as [Hv Hoth].
    fold s1 in Hv, Hoth.
    destruct (IH s1 Hr1 Hnd) as (R & P & O).
    { intros n d' Hin. apply Hpos. right. exact Hin. }
    split; [exact R |]. split.
    + intros n [<- | Hin].
      * destruct (O name Hnot) as [Os _]. rewrite Os, Hv.
        destruct (Hr name) as (A & B & C & _). rewrite A, B, C.
        apply Hpos. left. reflexivity.
      * apply P, Hin.
    + intros k Hk. destruct (O k) as [Os Op]; [intro; apply Hk; right; assumption |].
      destruct (Hoth k) as [Hs Hp]; [intros ->; apply Hk; left; reflexivity |].
      rewrite Os, Op, Hs, Hp. split; reflexivity.
Qed.

Lemma defaults_cover k : In k (map fst defaults).
Proof. destruct k; simpl; tauto. Qed.

Lemma defaults_positions name d :
  In (name, d) defaults ->
  let sl := initial_sliders default_params name in
  Z.max (minimum sl) (Z.min (maximum sl) (int (d * scale sl))) = value sl.
Proof.
  unfold defaults. cbn [In]. intros H.
  repeat (destruct H as [H | H]; [injection H as <- <-; vm_compute; reflexivity |]).
  contradiction.
Qed.

Lemma defaults_NoDup : NoDup (map fst defaults).
Proof.
  unfold defaults. cbn [map fst].
  repeat (constructor; [cbn [In]; intuition discriminate |]). constructor.
Qed.

(** A run of [setValue] in which every slider is already at its target is
    no run at all: no handler fires. *)
Lemma fold_setValue_fixed (l : list (param_name * Q)) s :
  (forall name d, In (name, d) l ->
     Z.max (minimum (sliders s name))
           (Z.min (maximum (sliders s name)) (int (d * scale (sliders s name))))
     = value (sliders s name)) ->
  fold_left
    (fun s nv => setValue (fst nv) (int (snd nv * scale (sliders s (fst nv)))) s)
    l s = s.
Proof.
  induction l as [| [name d] l IH]; intros H; cbn [fold_left fst snd]; [reflexivity |].
  assert (E : setValue name (int (d * scale (sliders s name))) s = s).
  { unfold setValue. rewrite (H name d (or_introl eq_refl)), Z.eqb_refl. reflexivity. }
  rewrite E. apply IH. intros n d' Hin. apply H. right. exact Hin.
Qed.

Lemma reset_defaults_positions s :
  range_checked s ->
  range_checked (reset_defaults s)
  /\ (forall name, In name (map fst defaults) ->
        value (sliders (reset_defaults s) name)
        = value (initial_sliders default_params name)).
Proof.
  intros Hr.
  pose proof (fold_setValue_positions defaults s Hr defaults_NoDup defaults_positions)
    as H.
  cbv zeta in H. destruct H as (R & P & _). split; [exact R | exact P].
Qed.

(** [reset_defaults] on a range-checked store puts every slider back on the
    position it was created with and every parameter back on its default
    (the live properties of the volume with them); it leaves the processed
    series alone; and a second reset finds nothing to do. *)
Theorem reset_restores_defaults s :
  range_checked s ->
  live_synced s ->
  (forall k, value (sliders (reset_defaults s) k)
             = value (initial_sliders default_params k)
             /\ params (reset_defaults s) k == default_params k)
  /\ vol_gamma (holo (reset_defaults s)) == default_params gamma
  /\ relative_step_size (holo (reset_defaults s)) == default_params step_size
  /\ (fst (clim (holo (reset_defaults s))) == default_params clim_min
      /\ snd (clim (holo (reset_defaults s))) == default_params clim_max)
  /\ voxels (reset_defaults s) = voxels s
  /\ reset_defaults (reset_defaults s) = reset_defaults s.
Proof.
  intros Hr Hl.
  destruct (reset_defaults_positions s Hr) as (R & P).
  assert (Hk : forall k, value (sliders (reset_defaults s) k)
                         = value (initial_sliders default_params k)
                         /\ params (reset_defaults s) k == default_params k).
  { intros k. pose proof (P k (defaults_cover k)) as Pk. split; [exact Pk |].
    destruct (R k) as (_ & _ & C & _ & E). rewrite E, Pk, C.
    destruct k; reflexivity. }
  destruct (reset_defaults_live s Hl) as (G & St & Cl).
  split; [exact Hk |].
  split; [rewrite G; apply Hk |].
  split; [rewrite St; apply Hk |].
  split; [rewrite Cl; split; apply Hk |].
  split; [apply (reset_defaults_frame s) |].
  unfold reset_defaults at 1. apply fold_setValue_fixed.
  intros name d Hin. destruct (R name) as (A & B & C & _).
  rewrite A, B, C, (P name (defaults_cover name)).
  apply defaults_positions, Hin.
Qed.

(** *** What every reachable state keeps *)

Section Reachable.
Context {L : ArrayLib}.

Lemma update_store dt s :
  params (update dt s) = params s /\ sliders (update dt s) = sliders s.
Proof.
  unfold update, update_body.
  destruct (Nat.eqb (length (voxels s)) 0); [split; reflexivity |].
  cbn [voxels with_current_frame].
  destruct (nth_error (voxels s) _); split; reflexivity.
Qed.

Lemma reprocess_store s :
  params (fst (reprocess s)) = params s
  /\ sliders (fst (reprocess s)) = sliders s.
Proof.
  unfold reprocess.
  destruct (process_voxels (params s) (voxels_raw s)) as [v |]; [| split; reflexivity].
  cbn [current_frame with_voxels].
  destruct (nth_error v (current_frame s)); split; reflexivity.
Qed.

Lemma step_store a s :
  range_checked s /\ series_indexed s /\ live_synced s /\ showing_current_frame s ->
  range_checked (step a s) /\ series_indexed (step a s)
  /\ live_synced (step a s) /\ showing_current_frame (step a s).
Proof.
  intros (Hr & [Hlen Hcur] & Hl & Hsh).
  destruct a as [name v | | | dt]; cbn [step].
  - destruct (setValue_frame name v s) as (A & B & C & _).
    split; [apply setValue_range_checked, Hr |].
    unfold series_indexed, showing_current_frame.
    rewrite A, B, C, setValue_data.
    split; [split; assumption |]. split; [apply setValue_live, Hl | exact Hsh].
  - destruct (reset_defaults_frame s) as (A & B & C & _).
    split; [apply reset_defaults_range_checked, Hr |].
    unfold series_indexed, showing_current_frame.
    rewrite A, B, C, reset_defaults_data.
    split; [split; assumption |]. split; [apply reset_defaults_live, Hl | exact Hsh].
  - destruct (reprocess_store s) as [Pp Ps].
    split; [intros k; rewrite Pp, Ps; apply Hr |].
    unfold reprocess in *.
    destruct (process_voxels (params s) (voxels_raw s)) as [v |] eqn:E;
      cbn [fst]; [| split; [split; assumption | split; assumption]].
    pose proof (process_voxels_length _ _ _ E) as Hv.
    cbn [current_frame with_voxels].
    destruct (nth_error v (current_frame s)) as [frame |] eqn:Hf; cbn [fst].
    + split; [split; cbn; [exact Hv | lia] |]. split; [exact Hl | exact Hf].
    + apply nth_error_None in Hf. lia.
  - assert (Hne : voxels s <> [])
      by (destruct (voxels s); [simpl in Hcur; lia | discriminate]).
    destruct (update_frame dt s) as (A & B & _).
    destruct (update_store dt s) as [Pp Ps].
    destruct (update_body_runs dt s Hne) as (_ & I & _ & _ & _ & D).
    split; [intros k; rewrite Pp, Ps; apply Hr |].
    unfold series_indexed, showing_current_frame. rewrite A, B, I.
    split; [split; [exact Hlen |] |].
    + apply frame_index_in_range. destruct (voxels s); [congruence | simpl; lia].
    + split; [| exact D].
      unfold live_synced in *. rewrite Pp. clear - Hl Hne.
      unfold update, update_body.
      destruct (Nat.eqb (length (voxels s)) 0); [exact Hl |].
      cbn [voxels with_current_frame].
      destruct (nth_error (voxels s) _); exact Hl.
Qed.

Lemma setup_store loaded s :
  setup loaded = Ok s ->
  range_checked s /\ series_indexed s /\ live_synced s /\ showing_current_frame s.
Proof.
  unfold setup.
  destruct (process_voxels default_params (map (vmap Qabs) loaded))
    as [v |] eqn:E; cbn [bind]; [| discriminate].
  destruct v as [| first_frame rest]; [discriminate |].
  intros H. apply Ok_inj in H. subst s.
  split; [apply initial_range_checked; reflexivity |].
  split; [split; cbn; [apply (process_voxels_length _ _ _ E) | lia] |].
  split; [repeat split | reflexivity].
Qed.

Lemma run_store loaded s0 acts :
  setup loaded = Ok s0 ->
  range_checked (run acts s0) /\ series_indexed (run acts s0)
  /\ live_synced (run acts s0) /\ showing_current_frame (run acts s0).
Proof.
  intros Hs. apply setup_store in Hs. unfold run. revert s0 Hs.
  induction acts as [| a acts IH]; intros s0 Hs; cbn [fold_left]; [exact Hs |].
  apply IH, step_store, Hs.
Qed.

(** In every state the interactive script can reach, each parameter lies in
    the range its slider declares; [frame_skip] is a whole number from 1 to
    20, and the next tick moves the frame index forward by exactly that
    number modulo the length of the series. *)
Theorem reachable_parameters_in_range loaded s0 acts :
  setup loaded = Ok s0 ->
  (forall k, fst (declared_range k) <= params (run acts s0) k
             <= snd (declared_range k))
  /\ exists n : Z,
       (1 <= n <= 20)%Z
       /\ params (run acts s0) frame_skip == inject_Z n
       /\ forall dt,
            current_frame (update dt (run acts s0))
            = Z.to_nat ((Z.of_nat (current_frame (run acts s0)) + n)
                        mod Z.of_nat (length (voxels (run acts s0)))).
Proof.
  intros Hs. destruct (run_store loaded s0 acts Hs) as (Hr & [Hlen Hcur] & _ & _).
  split; [intros k; apply range_checked_declared, Hr |].
  destruct (Hr frame_skip) as (A & B & C & D & E).
  exists (value (sliders (run acts s0) frame_skip)).
  rewrite A, B in D. split; [exact D |].
  assert (E' : params (run acts s0) frame_skip
               == inject_Z (value (sliders (run acts s0) frame_skip))).
  { rewrite E, C. change (scale (initial_sliders default_params frame_skip)) with 1.
    field. }
  split; [exact E' |]. intros dt.
  apply Animation.interactive_update_index; [| exact E' | apply D].
  destruct (voxels (run acts s0)); [simpl in Hcur; lia | discriminate].
Qed.

(** In every reachable state the volume's gamma, step size and colour
    limits are the ones in the parameter store, and its data buffer is the
    current frame of the current processed series: neither a slider move nor
    a reprocess leaves the display behind. *)
Theorem display_follows_store loaded s0 acts :
  setup loaded = Ok s0 ->
  vol_gamma (holo (run acts s0)) = params (run acts s0) gamma
  /\ relative_step_size (holo (run acts s0)) = params (run acts s0) step_size
  /\ clim (holo (run acts s0))
     = (params (run acts s0) clim_min, params (run acts s0) clim_max)
  /\ nth_error (voxels (run acts s0)) (current_frame (run acts s0))
     = Some (data (holo (run acts s0))).
Proof.
  intros Hs. destruct (run_store loaded s0 acts Hs) as (_ & _ & (A & B & C) & D).
  repeat split; assumption.
Qed.

(** The colour window is not kept in order: the two sliders overlap
    ([clim_min] goes up to 0.5, [clim_max] down to 0.2), and from any
    reachable state moving the first to 0.5 and the second to 0.2 leaves the
    volume with [clim = (0.5, 0.2)], its lower limit above the upper one. *)
Theorem clim_window_can_invert loaded s0 acts :
  setup loaded = Ok s0 ->
  let s := run (acts ++ [SliderMoved clim_min 50; SliderMoved clim_max 20]) s0 in
  fst (clim (holo s)) == 5 # 10
  /\ snd (clim (holo s)) == 2 # 10
  /\ snd (clim (holo s)) < fst (clim (holo s)).
Proof.
  intros Hs s.
  destruct (run_store loaded s0 (acts ++ [SliderMoved clim_min 50; SliderMoved clim_max 20]) Hs)
    as (Hr & _ & (_ & _ & C) & _).
  fold s in Hr, C.
  destruct (run_store loaded s0 acts Hs) as (Hr0 & _).
  assert (Es : s = setValue clim_max 20 (setValue clim_min 50 (run acts s0))).
  { unfold s, run. rewrite fold_left_app. reflexivity. }
  set (s1 := setValue clim_min 50 (run acts s0)) in *.
  assert (Hr1 : range_checked s1) by (apply setValue_range_checked, Hr0).
  destruct (setValue_store clim_min 50 (run acts s0)) as [V1 _]. fold s1 in V1.
  destruct (setValue_store clim_max 20 s1) as [V2 O2]. rewrite <- Es in V2, O2.
  destruct (O2 clim_min) as [S2 _]; [discriminate |].
  destruct (Hr0 clim_min) as (A0 & B0 & _).
  destruct (Hr1 clim_max) as (A1 & B1 & _).
  rewrite A0, B0 in V1. rewrite A1, B1 in V2.
  change (Z.max _ _) with 50%Z in V1. change (Z.max _ _) with 20%Z in V2.
  destruct (Hr clim_min) as (_ & _ & Cm & _ & Em).
  destruct (Hr clim_max) as (_ & _ & CM & _ & EM).
  rewrite Cm, S2, V1 in Em. rewrite V2, CM in EM.
  rewrite C. cbn [fst snd]. rewrite Em, EM.
  repeat split; reflexivity.
Qed.

End Reachable.

Lemma interactive_state_range_checked : range_checked Samples.interactive_state.
Proof. intros k. destruct k; vm_compute; repeat split; congruence. Qed.

Lemma interactive_state_live_synced : live_synced Samples.interactive_state.
Proof. repeat split. Qed.

Lemma reset_restores_defaults_witness :
  let s := setValue brightness 150 Samples.interactive_state in
  params s brightness == 15 # 10
  /\ params s contrast == 1
  /\ params (reset_defaults s) brightness == 1
  /\ params (reset_defaults s) contrast == 8 # 10
  /\ reset_defaults (reset_defaults s) = reset_defaults s.
Proof.
  intros s.
  assert (Hr : range_checked s)
    by (apply setValue_range_checked, interactive_state_range_checked).
  assert (Hl : live_synced s)
    by (apply setValue_live, interactive_state_live_synced).
  destruct (reset_restores_defaults s Hr Hl) as (K & _ & _ & _ & _ & I).
  split; [reflexivity |]. split; [reflexivity |].
  split; [apply (K brightness) |]. split; [apply (K contrast) | exact I].
Defined.

Lemma reachable_parameters_in_range_witness :
  let acts := [SliderMoved frame_skip 7; SliderMoved contrast 99999;
               Tick (1 # 30)] in
  exists s0,
    setup (L := Samples.array_lib) Samples.raw2 = Ok s0
    /\ params (run (L := Samples.array_lib) acts s0) contrast <= 5
    /\ 1 <= params (run (L := Samples.array_lib) acts s0) frame_skip.
Proof.
  intros acts.
  destruct (setup (L := Samples.array_lib) Samples.raw2) as [s0 |] eqn:E;
    [| discriminate E].
  exists s0. split; [reflexivity |].
  destruct (@reachable_parameters_in_range Samples.array_lib Samples.raw2 s0 acts E)
    as (A & _).
  split; [apply (A contrast) | apply (A frame_skip)].
Defined.

Lemma display_follows_store_witness :
  let acts := [SliderMoved gamma 350; Tick (1 # 30); SliderMoved smoothing 0;
               ReprocessClicked] in
  exists s0,
    setup (L := Samples.array_lib) Samples.raw2 = Ok s0
    /\ vol_gamma (holo (run (L := Samples.array_lib) acts s0))
       = params (run (L := Samples.array_lib) acts s0) gamma
    /\ nth_error (voxels (run (L := Samples.array_lib) acts s0))
                 (current_frame (run (L := Samples.array_lib) acts s0))
       = Some (data (holo (run (L := Samples.array_lib) acts s0))).
Proof.
  intros acts.
  destruct (setup (L := Samples.array_lib) Samples.raw2) as [s0 |] eqn:E;
    [| discriminate E].
  exists s0. split; [reflexivity |].
  destruct (@display_follows_store Samples.array_lib Samples.raw2 s0 acts E)
    as (A & _ & _ & D).
  split; [exact A | exact D].
Defined.

Lemma clim_window_can_invert_witness :
  exists s0,
    setup (L := Samples.array_lib) Samples.raw2 = Ok s0
    /\ snd (clim (holo (run (L := Samples.array_lib)
                          ([Tick (1 # 30)]
                           ++ [SliderMoved clim_min 50; SliderMoved clim_max 20])
                          s0)))
       < fst (clim (holo (run (L := Samples.array_lib)
                            ([Tick (1 # 30)]
                             ++ [SliderMoved clim_min 50; SliderMoved clim_max 20])
                            s0))).
Proof.
  destruct (setup (L := Samples.array_lib) Samples.raw2) as [s0 |] eqn:E;
    [| discriminate E].
  exists s0. split; [reflexivity |].
  apply (@clim_window_can_invert Samples.array_lib Samples.raw2 s0 [Tick (1 # 30)] E).
Defined.

End StoreFacts.

(** ** Runs of ticks in viz_interactive.py *)

Module TickFacts.
Import Py Np Vispy Interactive NpFacts InteractiveFacts.

Lemma index_step (cur k m : Z) (n : Z) :
  (0 < n)%Z ->
  (((cur + k) mod n + m * k) mod n = (cur + (m + 1) * k) mod n)%Z.
Proof.
  intros Hn. rewrite Zplus_mod_idemp_l. f_equal. ring.
Qed.

Section Ticks.
Context {L : ArrayLib}.

Lemma run_ticks_cons dt dts s :
  run (map Tick (dt :: dts)) s = run (map Tick dts) (update dt s).
Proof. reflexivity. Qed.

(** A run of ticks with the store left alone: the angle grows by
    [rotation_speed] times the elapsed time, the frame index by [frame_skip]
    per tick modulo the length of the series, and after as many ticks as
    there are frames the index is back where it started. *)
Theorem ticks_accumulate (s : state) (dts : list Q) (k : Z) :
  (current_frame s < length (voxels s))%nat ->
  params s frame_skip == inject_Z k ->
  (1 <= k)%Z ->
  rotation_angle (run (map Tick dts) s)
  == rotation_angle s + params s rotation_speed * fold_right Qplus 0 dts
  /\ current_frame (run (map Tick dts) s)
     = Z.to_nat ((Z.of_nat (current_frame s) + Z.of_nat (length dts) * k)
                 mod Z.of_nat (length (voxels s)))
  /\ (length dts = length (voxels s) ->
      current_frame (run (map Tick dts) s) = current_frame s).
Proof.
  intros Hcur Hk H1.
  assert (Hgen : forall dts s,
            (current_frame s < length (voxels s))%nat ->
            params s frame_skip == inject_Z k ->
            rotation_angle (run (map Tick dts) s)
            == rotation_angle s + params s rotation_speed * fold_right Qplus 0 dts
            /\ current_frame (run (map Tick dts) s)
               = Z.to_nat ((Z.of_nat (current_frame s) + Z.of_nat (length dts) * k)
                           mod Z.of_nat (length (voxels s)))).
  { clear s dts Hcur Hk. induction dts as [| dt dts IH]; intros s Hcur Hk.
    - cbn [map fold_right length]. unfold run. cbn [fold_left]. split; [ring |].
      rewrite Z.mul_0_l, Z.add_0_r, Z.mod_small by lia. lia.
    - rewrite run_ticks_cons.
      assert (Hne : voxels s <> [])
        by (destruct (voxels s); [simpl in Hcur; lia | discriminate]).
      destruct (update_frame dt s) as (A & _ & B & _).
      destruct (update_body_runs dt s Hne) as (_ & I & R & _).
      pose proof (Animation.interactive_update_index s dt k Hne Hk H1) as I'.
      assert (Hn : (0 < Z.of_nat (length (voxels s)))%Z) by lia.
      destruct (IH (update dt s)) as [IHa IHi].
      + rewrite A, I'.
        pose proof (Z.mod_pos_bound (Z.of_nat (current_frame s) + k) _ Hn). lia.
      + rewrite B. exact Hk.
      + split.
        * rewrite IHa, R, B. cbn [fold_right]. ring.
        * rewrite IHi, A, I'. rewrite Z2Nat.id
            by (apply Z.mod_pos_bound; exact Hn).
          rewrite index_step by exact Hn. f_equal. f_equal. cbn [length]. lia. }
  destruct (Hgen dts s Hcur Hk) as [Ha Hi].
  split; [exact Ha |]. split; [exact Hi |].
  intros Hlen. rewrite Hi, Hlen.
  rewrite (Z.mul_comm (Z.of_nat (length (voxels s))) k).
  rewrite Z_mod_plus_full, Z.mod_small by lia. lia.
Qed.

End Ticks.

Lemma ticks_accumulate_witness :
  let s := Samples.interactive_state in
  let dts := [1 # 2; 1 # 4] in
  rotation_angle (run (L := Samples.array_lib) (map Tick dts) s)
  == rotation_angle s + params s rotation_speed * fold_right Qplus 0 dts
  /\ current_frame (run (L := Samples.array_lib) (map Tick dts) s)
     = current_frame s.
Proof.
  intros s dts.
  assert (Hcur : (current_frame s < length (voxels s))%nat) by (vm_compute; lia).
  assert (Hk : params s frame_skip == inject_Z 1) by reflexivity.
  destruct (@ticks_accumulate Samples.array_lib s dts 1%Z Hcur Hk) as (A & _ & C);
    [lia |].
  split; [exact A | apply C; reflexivity].
Defined.

End TickFacts.

(** ** viz_hologram.py: which voxels become particles *)

Module ParticleFacts.
Import Py Np Vispy Hologram NpFacts SamplerFacts.

Lemma In_combine_seq {A} (l : list A) start i a :
  In (i, a) (combine (seq start (length l)) l)
  <-> (start <= i)%nat /\ nth_error l (i - start) = Some a.
Proof.
  revert start. induction l as [| b l IH]; intros start; cbn [length seq combine In].
  - split; [tauto |]. intros [_ H]. destruct (i - start)%nat; discriminate.
  - rewrite IH. split.
    + intros [H | [H1 H2]].
      * injection H as <- <-. split; [lia |]. rewrite Nat.sub_diag. reflexivity.
      * split; [lia |].
        replace (i - start)%nat with (S (i - S start)) by lia. exact H2.
    + intros [H1 H2]. destruct (Nat.eq_dec i start) as [-> | Hne].
      * left. rewrite Nat.sub_diag in H2. cbn in H2.
        injection H2 as ->. reflexivity.
      * right. split; [lia |].
        replace (i - start)%nat with (S (i - S start)) in H2 by lia. exact H2.
Qed.

Lemma In_enumerate {A} (l : list A) i a :
  In (i, a) (enumerate l) <-> nth_error l i = Some a.
Proof.
  unfold enumerate. rewrite In_combine_seq, Nat.sub_0_r.
  split; [tauto | intros; split; [lia | assumption]].
Qed.

Lemma nth_error_nth_iff {A} (l : list A) i a d :
  nth_error l i = Some a <-> (i < length l)%nat /\ nth i l d = a.
Proof.
  split.
  - intros H. split.
    + apply nth_error_Some. rewrite H. discriminate.
    + apply nth_error_nth. exact H.
  - intros [H <-]. apply nth_error_nth'. exact H.
Qed.

(** [np.where(volume > threshold)] lists exactly the coordinates of the
    volume whose voxel exceeds the threshold. *)
Lemma where_gt_spec v threshold c :
  In c (where_gt v threshold) <-> in_bounds v c /\ threshold < at3 v c.
Proof.
  destruct c as [[x y] z]. unfold where_gt, in_bounds, at3. cbn [fst snd].
  rewrite in_flat_map. split.
  - intros [[x' plane] [Hx H]]. rewrite in_flat_map in H.
    destruct H as [[y' row] [Hy H]]. rewrite in_flat_map in H.
    destruct H as [[z' val] [Hz H]].
    destruct (Qltb threshold val) eqn:E; [| contradiction].
    destruct H as [H | []]. injection H as -> -> ->.
    apply In_enumerate in Hx, Hy, Hz.
    apply (nth_error_nth_iff _ _ _ []) in Hx. destruct Hx as [Hx <-].
    apply (nth_error_nth_iff _ _ _ []) in Hy. destruct Hy as [Hy <-].
    apply (nth_error_nth_iff _ _ _ 0) in Hz. destruct Hz as [Hz <-].
    apply Qltb_lt in E. repeat split; assumption.
  - intros [(Hx & Hy & Hz) Hv].
    exists (x, nth x v []). split.
    + apply In_enumerate, nth_error_nth'. exact Hx.
    + rewrite in_flat_map. exists (y, nth y (nth x v []) []). split.
      * apply In_enumerate, nth_error_nth'. exact Hy.
      * rewrite in_flat_map. exists (z, nth z (nth y (nth x v []) []) 0). split.
        -- apply In_enumerate, nth_error_nth'. exact Hz.
        -- apply Qltb_lt in Hv. rewrite Hv. left. reflexivity.
Qed.

Lemma within_at3 lo hi v c :
  Interactive.within lo hi v -> in_bounds v c -> lo <= at3 v c <= hi.
Proof.
  destruct c as [[x y] z]. unfold Interactive.within, in_bounds, at3.
  cbn [fst snd]. intros W (Hx & Hy & Hz).
  rewrite Forall_forall in W.
  assert (Wx := W _ (nth_In v [] Hx)). rewrite Forall_forall in Wx.
  assert (Wy := Wx _ (nth_In _ [] Hy)). rewrite Forall_forall in Wy.
  exact (Wy _ (nth_In _ 0 Hz)).
Qed.

Section Particles.
Context {L : SceneLib} `{!SceneLibLaws L}.

(** What [create_particles] returns when it returns particles: three
    parallel arrays; every particle sits on a voxel of the volume whose value
    [v] exceeds the threshold, has size [2 + 6 v] and alpha [v / 2]; when
    the matches do not exceed [max_points] no such voxel is left out; in a
    volume with values in [0,1] sizes stay at or below 8 and alphas at or
    below 1/2. *)
Theorem particles_mark_bright_voxels volume threshold max_points g pos cols szs :
  fst (create_particles volume threshold max_points g)
  = [Positions pos; Colors cols; Sizes szs] ->
  length cols = length pos
  /\ length szs = length pos
  /\ (forall i p,
        nth_error pos i = Some p ->
        exists c,
          p = float3 c
          /\ in_bounds volume c
          /\ threshold < at3 volume c
          /\ nth_error szs i = Some (2 + at3 volume c * 6)
          /\ option_map alpha (nth_error cols i)
             = Some (at3 volume c * (5 # 10)))
  /\ Forall (fun sz => 2 + threshold * 6 < sz) szs
  /\ Forall (fun col => threshold * (5 # 10) < alpha col) cols
  /\ ((length (where_gt volume threshold) <= max_points)%nat ->
      forall c, in_bounds volume c -> threshold < at3 volume c ->
                In (float3 c) pos)
  /\ (Interactive.within 0 1 volume ->
      Forall (fun sz => sz <= 8) szs
      /\ Forall (fun col => alpha col <= 1 # 2) cols).
Proof.
  intros H. unfold create_particles in H.
  set (hi := where_gt volume threshold) in *.
  destruct (Nat.eqb (length hi) 0) eqn:E; [discriminate |].
  pose proof (choice_spec (length hi) (Nat.min (length hi) max_points) g
                (Nat.le_min_l _ _)) as C.
  destruct (choice (length hi) (Nat.min (length hi) max_points) g)
    as [indices g'] eqn:Ec.
  cbn [fst] in C, H. cbv zeta in C. destruct C as (Clen & Cnd & Cb & Cperm).
  apply Ok_inj in H || idtac.
  injection H as <- <- <-.
  set (picked := map (fun i => nth i hi (0, 0, 0)%nat) indices).
  assert (Hpicked : Forall (fun c => in_bounds volume c /\ threshold < at3 volume c)
                           picked).
  { apply Forall_forall. intros c Hc. apply where_gt_spec. fold hi.
    unfold picked in Hc. apply in_map_iff in Hc. destruct Hc as (i & <- & Hi).
    apply nth_In. rewrite Forall_forall in Cb. exact (Cb _ Hi). }
  split; [rewrite !length_map; reflexivity |].
  split; [rewrite !length_map; reflexivity |].
  split.
  { intros i p Hp. rewrite nth_error_map in Hp.
    destruct (nth_error picked i) as [c |] eqn:Ei; [| discriminate].
    cbn [option_map] in Hp. injection Hp as <-.
    exists c. rewrite Forall_forall in Hpicked.
    destruct (Hpicked c (nth_error_In _ _ Ei)) as [Hb Hv].
    split; [reflexivity |]. split; [exact Hb |]. split; [exact Hv |].
    rewrite !nth_error_map, Ei. cbn [option_map]. split; [reflexivity |].
    f_equal. destruct (COLORMAP (at3 volume c)) as [[[r gg] b] a]. reflexivity. }
  split.
  { apply Forall_forall. intros sz Hsz.
    apply in_map_iff in Hsz. destruct Hsz as (v & <- & Hv).
    apply in_map_iff in Hv. destruct Hv as (c & <- & Hc).
    rewrite Forall_forall in Hpicked. destruct (Hpicked c Hc) as [_ Hlt]. lra. }
  split.
  { apply Forall_forall. intros col Hcol.
    apply in_map_iff in Hcol. destruct Hcol as (v & <- & Hv).
    apply in_map_iff in Hv. destruct Hv as (c & <- & Hc).
    rewrite Forall_forall in Hpicked. destruct (Hpicked c Hc) as [_ Hlt].
    destruct (COLORMAP (at3 volume c)) as [[[r gg] b] a].
    unfold set_alpha, alpha. cbn [snd]. lra. }
  split.
  { intros Hle c Hb Hv.
    assert (Hin : In c hi) by (apply where_gt_spec; split; assumption).
    destruct (In_nth _ _ (0, 0, 0)%nat Hin) as (i & Hi & Hnth).
    apply in_map_iff. exists c. split; [reflexivity |].
    unfold picked. apply in_map_iff. exists i. split; [exact Hnth |].
    apply (Permutation_in i (Permutation_sym (Cperm (Nat.min_l _ _ Hle)))).
    apply in_seq. lia. }
  intros W. split.
  { apply Forall_forall. intros sz Hsz.
    apply in_map_iff in Hsz. destruct Hsz as (v & <- & Hv).
    apply in_map_iff in Hv. destruct Hv as (c & <- & Hc).
    rewrite Forall_forall in Hpicked. destruct (Hpicked c Hc) as [Hb _].
    pose proof (within_at3 _ _ _ _ W Hb). lra. }
  { apply Forall_forall. intros col Hcol.
    apply in_map_iff in Hcol. destruct Hcol as (v & <- & Hv).
    apply in_map_iff in Hv. destruct Hv as (c & <- & Hc).
    rewrite Forall_forall in Hpicked. destruct (Hpicked c Hc) as [Hb _].
    pose proof (within_at3 _ _ _ _ W Hb).
    destruct (COLORMAP (at3 volume c)) as [[[r gg] b] a].
    unfold set_alpha, alpha. cbn [snd]. lra. }
Qed.

End Particles.

Lemma particles_mark_bright_voxels_witness :
  let ret := fst (create_particles (L := Samples.scene_lib)
                    Samples.ramp (8 # 10) 2 0%nat) in
  let pos := positions_of (nth 0 ret PyNone) in
  let cols := colors_of (nth 1 ret PyNone) in
  let szs := sizes_of (nth 2 ret PyNone) in
  ret = [Positions pos; Colors cols; Sizes szs]
  /\ pos = [float3 (1, 1, 1)%nat; float3 (1, 1, 0)%nat]
  /\ Forall (fun sz => 2 + (8 # 10) * 6 < sz) szs
  /\ Forall (fun col => (8 # 10) * (5 # 10) < alpha col) cols.
Proof.
  intros ret pos cols szs.
  assert (H : ret = [Positions pos; Colors cols; Sizes szs]) by reflexivity.
  destruct (@particles_mark_bright_voxels Samples.scene_lib scene_lib_laws
              Samples.ramp (8 # 10) 2%nat 0%nat pos cols szs H)
    as (_ & _ & _ & S & A & _).
  split; [exact H |]. split; [reflexivity |]. split; [exact S | exact A].
Defined.

End ParticleFacts.

(** ** viz_hologram.py: start-up and runs of ticks *)

Module HologramRun.
Import Py Np Vispy Hologram NpFacts SamplerFacts SceneFacts ParticleFacts.

Section Run.
Context {L : SceneLib}.

Lemma where_gt_nil v threshold :
  (forall c, in_bounds v c -> at3 v c <= threshold) ->
  where_gt v threshold = [].
Proof.
  intros H. destruct (where_gt v threshold) as [| c l] eqn:E; [reflexivity |].
  assert (Hc : In c (where_gt v threshold)) by (rewrite E; left; reflexivity).
  apply where_gt_spec in Hc. destruct Hc as [Hb Hv].
  specialize (H c Hb). lra.
Qed.

Lemma setup_dark frame0 rest ch_pos g :
  (forall c, in_bounds frame0 c -> at3 frame0 c <= 8 # 10) ->
  setup (frame0 :: rest) ch_pos g = Raise ValueError.
Proof.
  intros H. unfold setup. cbn [getitem nth_error bind].
  destruct (create_particles_none frame0 (8 # 10) 3000 g (where_gt_nil _ _ H))
    as [A _].
  rewrite A. reflexivity.
Qed.

(** How the script starts.  An empty series ends it with [IndexError] at
    line 85 (the same error at line 35 is caught by the [try] around the
    layer loop).  A first frame without a voxel above 0.8 ends it with
    [ValueError] at the unpacking of line 85.  Otherwise the set-up goes
    through, with a particle visual centred like the layers and the
    electrodes shifted by half the frame shape. *)
Theorem hologram_setup_outcome voxels ch_pos g :
  (voxels = [] -> setup voxels ch_pos g = Raise IndexError)
  /\ (forall frame0 rest,
        voxels = frame0 :: rest ->
        (forall c, in_bounds frame0 c -> at3 frame0 c <= 8 # 10) ->
        setup voxels ch_pos g = Raise ValueError)
  /\ (forall frame0 rest c,
        voxels = frame0 :: rest ->
        in_bounds frame0 c -> 8 # 10 < at3 frame0 c ->
        exists s pm,
          setup voxels ch_pos g = Ok s
          /\ Hologram.voxels s = voxels
          /\ mesh_layers s = create_layers voxels 0 iso_levels
          /\ particles s = Some pm
          /\ Positions (pos pm)
             = nth 0 (fst (create_particles frame0 (8 # 10) 3000 g)) PyNone
          /\ markers_transform pm
             = [Translate (neg3 (half_shape (shape frame0)))]
          /\ pos (elec_markers s)
             = map (fun p => sub3 p (half_shape (shape frame0))) ch_pos
          /\ markers_transform (elec_markers s) = identity
          /\ current_frame s = 0%nat
          /\ rotation s = 0).
Proof.
  split; [intros ->; reflexivity |]. split.
  - intros frame0 rest -> H. apply setup_dark, H.
  - intros frame0 rest c -> Hb Hv. unfold setup. cbn [getitem nth_error bind].
    assert (Hne : where_gt frame0 (8 # 10) <> []).
    { intros E. assert (Hc : In c (where_gt frame0 (8 # 10)))
        by (apply where_gt_spec; split; assumption).
      rewrite E in Hc. contradiction. }
    destruct (create_particles_some frame0 (8 # 10) 3000 g Hne)
      as (p & cl & sz & A).
    destruct (create_particles frame0 (8 # 10) 3000 g) as [ret g'].
    cbn [fst] in A |- *. subst ret. cbn [unpack3 bind nth].
    eexists _, _. split; [reflexivity |].
    cbn [Hologram.voxels mesh_layers particles pos markers_transform
         elec_markers current_frame rotation positions_of].
    repeat split.
Qed.

Lemma update_voxels dt s :
  Hologram.voxels s <> [] ->
  Hologram.voxels (update dt s) = Hologram.voxels s
  /\ current_frame (update dt s)
     = ((current_frame s + 1) mod length (Hologram.voxels s))%nat
  /\ (particles s = None ->
      particles (update dt s) = None
      /\ rotation (update dt s) = rotation s + dt * ROTATION_SPEED)
  /\ (particles s <> None ->
      particles (update dt s) <> None
      /\ rotation (update dt s) = rotation s).
Proof.
  intros Hne. destruct (particles s) as [pm |] eqn:Ep.
  - destruct (update_with_particles dt s pm Ep Hne) as (A & B & C & _ & _ & _ & D).
    split; [exact A |]. split; [exact D |]. split; [discriminate |].
    intros _. split; [rewrite B, Ep; discriminate | exact C].
  - destruct (Hologram.voxels s) as [| frame0 rest] eqn:Ev; [congruence |].
    assert (Hg : getitem (Hologram.voxels s) 0 = Ok frame0)
      by (rewrite Ev; reflexivity).
    destruct (update_without_particles dt s frame0 Ep Hg)
      as (A & B & _ & C & D & _).
    rewrite Ev in A, D.
    split; [exact A |]. split; [exact D |].
    split; [intros _; split; assumption | congruence].
Qed.

(** Runs of ticks.  The frame index advances by one per tick around the
    series, whether or not the tick gets past the particle block, and is back
    where it started after as many ticks as there are frames.  The rotation
    grows by [ROTATION_SPEED] times the elapsed time when there is no
    particle visual, and not at all when there is one. *)
Theorem hologram_ticks_cycle (s : state) (dts : list Q) :
  (current_frame s < length (Hologram.voxels s))%nat ->
  current_frame (run dts s)
  = ((current_frame s + length dts) mod length (Hologram.voxels s))%nat
  /\ (length dts = length (Hologram.voxels s) ->
      current_frame (run dts s) = current_frame s)
  /\ (particles s = None ->
      rotation (run dts s)
      == rotation s + ROTATION_SPEED * fold_right Qplus 0 dts)
  /\ (particles s <> None -> rotation (run dts s) = rotation s).
Proof.
  intros Hcur.
  assert (Hgen : forall dts s,
            (current_frame s < length (Hologram.voxels s))%nat ->
            current_frame (run dts s)
            = ((current_frame s + length dts) mod length (Hologram.voxels s))%nat
            /\ (particles s = None ->
                rotation (run dts s)
                == rotation s + ROTATION_SPEED * fold_right Qplus 0 dts)
            /\ (particles s <> None -> rotation (run dts s) = rotation s)).
  { clear s dts Hcur. induction dts as [| dt dts IH]; intros s Hcur.
    - unfold run. cbn [fold_left length fold_right].
      rewrite Nat.add_0_r, Nat.mod_small by exact Hcur.
      split; [reflexivity |]. split; [intros _; ring | reflexivity].
    - assert (Hne : Hologram.voxels s <> [])
        by (destruct (Hologram.voxels s); [simpl in Hcur; lia | discriminate]).
      destruct (update_voxels dt s Hne) as (V & I & N & P).
      assert (Hn : length (Hologram.voxels s) <> 0%nat)
        by (destruct (Hologram.voxels s); [congruence | discriminate]).
      destruct (IH (update dt s)) as (IHi & IHn & IHp).
      { rewrite V, I. apply Nat.mod_upper_bound. exact Hn. }
      change (run (dt :: dts) s) with (run dts (update dt s)).
      split.
      { rewrite IHi, V, I, Nat.Div0.add_mod_idemp_l. f_equal.
        cbn [length]. lia. }
      split.
      { intros Hp. destruct (N Hp) as [Np Nr].
        rewrite (IHn Np), Nr. cbn [fold_right]. ring. }
      { intros Hp. destruct (P Hp) as [Pp Pr].
        rewrite (IHp Pp). exact Pr. } }
  destruct (Hgen dts s Hcur) as (Hi & Hn & Hp).
  split; [exact Hi |]. split; [| split; assumption].
  intros Hlen. rewrite Hi, Hlen.
  replace (current_frame s + length (Hologram.voxels s))%nat
    with (current_frame s + 1 * length (Hologram.voxels s))%nat by lia.
  rewrite Nat.Div0.mod_add. apply Nat.mod_small. exact Hcur.
Qed.

End Run.

Lemma hologram_setup_outcome_witness :
  setup (L := Samples.scene_lib) [Samples.flat (1 # 2); Samples.ramp] [] 0%nat
  = Raise ValueError
  /\ exists s pm,
       setup (L := Samples.scene_lib) [Samples.ramp] [(1, 1, 1)] 0%nat = Ok s
       /\ particles s = Some pm
       /\ markers_transform pm
          = [Translate (neg3 (half_shape (shape Samples.ramp)))].
Proof.
  destruct (@hologram_setup_outcome Samples.scene_lib
              [Samples.flat (1 # 2); Samples.ramp] [] 0%nat) as (_ & A & _).
  destruct (@hologram_setup_outcome Samples.scene_lib
              [Samples.ramp] [(1, 1, 1)] 0%nat) as (_ & _ & B).
  split.
  - apply (A (Samples.flat (1 # 2)) [Samples.ramp] eq_refl).
    intros [[x y] z] (Hx & Hy & Hz). cbn [fst snd] in Hx, Hy, Hz.
    destruct x as [| [| x]]; [| | simpl in Hx; lia];
      (destruct y as [| [| y]]; [| | simpl in Hy; lia]);
      (destruct z as [| [| z]]; [| | simpl in Hz; lia]);
      vm_compute; discriminate.
  - destruct (B Samples.ramp [] (1, 1, 1)%nat eq_refl) as (s & pm & E & _ & _ & P & _ & T & _).
    + vm_compute. repeat split; lia.
    + vm_compute. reflexivity.
    + exists s, pm. split; [exact E |]. split; [exact P | exact T].
Defined.

Lemma hologram_ticks_cycle_witness :
  let s := Samples.scene_state in
  let dts := [1 # 30; 1 # 30] in
  (current_frame s < length (Hologram.voxels s))%nat
  /\ current_frame (run (L := Samples.scene_lib) dts s) = current_frame s
  /\ rotation (run (L := Samples.scene_lib) dts s) = rotation s.
Proof.
  intros s dts.
  assert (Hcur : (current_frame s < length (Hologram.voxels s))%nat)
    by (vm_compute; lia).
  destruct (@hologram_ticks_cycle Samples.scene_lib s dts Hcur)
    as (_ & A & _ & B).
  split; [exact Hcur |]. split; [apply A; reflexivity |].
  apply B. vm_compute. discriminate.
Defined.

End HologramRun.

(** ** viz_interactive.py: start-up, and [process_voxels] as a function *)

Module ProcessFacts.
Import Py Np Vispy Interactive NpFacts InteractiveFacts StoreFacts.

Lemma mapM_app {A B} (f : A -> result B) xs ys :
  mapM f (xs ++ ys)
  = (a <- mapM f xs ;; b <- mapM f ys ;; Ok (a ++ b)).
Proof.
  induction xs as [| x xs IH]; cbn [app mapM bind].
  - destruct (mapM f ys); reflexivity.
  - destruct (f x) as [y |]; cbn [bind]; [| reflexivity].
    rewrite IH. destruct (mapM f xs) as [a |]; cbn [bind]; [| reflexivity].
    destruct (mapM f ys); reflexivity.
Qed.

Section Process.
Context {L : ArrayLib}.

Lemma log_mix_app p xs ys : log_mix p (xs ++ ys) = log_mix p xs ++ log_mix p ys.
Proof. unfold log_mix. destruct (Qltb 0 (p log_scale)); [apply map_app | reflexivity]. Qed.

Lemma log_mix_length p xs : length (log_mix p xs) = length xs.
Proof. unfold log_mix. destruct (Qltb 0 (p log_scale)); [apply length_map | reflexivity]. Qed.

Lemma smooth_app p xs ys : smooth p (xs ++ ys) = smooth p xs ++ smooth p ys.
Proof. rewrite !smooth_map. apply map_app. Qed.

Lemma process_voxels_app p xs ys :
  process_voxels p (xs ++ ys)
  = (a <- process_voxels p xs ;; b <- process_voxels p ys ;; Ok (a ++ b)).
Proof.
  unfold process_voxels. rewrite log_mix_app, mapM_app.
  destruct (mapM (normalize_frame p) (log_mix p xs)) as [a |]; cbn [bind];
    [| reflexivity].
  destruct (mapM (normalize_frame p) (log_mix p ys)) as [b |]; cbn [bind];
    [| reflexivity].
  rewrite map_app, smooth_app. reflexivity.
Qed.

Lemma normalize_frame_raises p frame :
  (p percentile_min < 0 \/ 100 < p percentile_min
   \/ p percentile_max < 0 \/ 100 < p percentile_max) ->
  normalize_frame p frame = Raise ValueError.
Proof.
  intros H. unfold normalize_frame.
  rewrite (percentile2_raises _ _ _ H). reflexivity.
Qed.

Lemma normalize_frame_empty p frame :
  0 <= p percentile_min <= 100 -> 0 <= p percentile_max <= 100 ->
  ravel frame = [] ->
  normalize_frame p frame = Raise IndexError.
Proof.
  intros [A B] [C D] E. unfold normalize_frame.
  rewrite E, (percentile2_empty _ _ A B C D). reflexivity.
Qed.

Lemma percentile_raise_kinds a q e :
  percentile a q = Raise e -> e = ValueError \/ e = IndexError.
Proof.
  unfold percentile. destruct (negb _); [intros H; left; congruence |].
  destruct (Nat.eqb (length a) 0); [intros H; right; congruence | discriminate].
Qed.

Lemma normalize_frame_raise_kinds p frame e :
  normalize_frame p frame = Raise e -> e = ValueError \/ e = IndexError.
Proof.
  unfold normalize_frame, percentile2.
  destruct (negb _); [intros H; left; cbn [bind] in H; congruence |].
  destruct (percentile (ravel frame) (p percentile_min)) as [v1 |] eqn:E1;
    cbn [bind].
  - destruct (percentile (ravel frame) (p percentile_max)) as [v2 |] eqn:E2;
      cbn [bind]; [discriminate |].
    intros H. injection H as <-. exact (percentile_raise_kinds _ _ _ E2).
  - intros H. injection H as <-. exact (percentile_raise_kinds _ _ _ E1).
Qed.

Lemma mapM_raises_in {A B} (f : A -> result B) xs e :
  mapM f xs = Raise e -> exists x, In x xs /\ f x = Raise e.
Proof.
  induction xs as [| x xs IH]; cbn [mapM]; [discriminate |].
  destruct (f x) as [y |] eqn:E; cbn [bind].
  - destruct (mapM f xs) as [ys |]; cbn [bind]; [discriminate |].
    intros H. destruct (IH H) as (x' & Hin & Hx').
    exists x'. split; [right; exact Hin | exact Hx'].
  - intros H. exists x. split; [left; reflexivity | congruence].
Qed.

Lemma mapM_raises_same {A B} (f : A -> result B) xs e :
  (forall x, In x xs -> (exists y, f x = Ok y) \/ f x = Raise e) ->
  Exists (fun x => f x = Raise e) xs ->
  mapM f xs = Raise e.
Proof.
  intros Hall Hex. induction Hex as [x xs Hx | x xs Hex IH]; cbn [mapM].
  - rewrite Hx. reflexivity.
  - destruct (Hall x (or_introl eq_refl)) as [[y ->] | ->]; cbn [bind];
      [| reflexivity].
    rewrite IH; [reflexivity |].
    intros x' Hin. apply Hall. right. exact Hin.
Qed.

Lemma log_mix_frame_empty p raw :
  Exists (fun frame => ravel frame = []) raw ->
  Exists (fun frame => ravel frame = []) (log_mix p raw).
Proof.
  unfold log_mix. destruct (Qltb 0 (p log_scale)); [| trivial].
  intros H. apply Exists_exists in H. destruct H as (frame & Hin & E).
  apply Exists_exists. eexists. split; [apply in_map; exact Hin |].
  apply ravel_vmap_nil. exact E.
Qed.

Lemma process_voxels_empty_frame p raw :
  0 <= p percentile_min <= 100 -> 0 <= p percentile_max <= 100 ->
  Exists (fun frame => ravel frame = []) raw ->
  process_voxels p raw = Raise IndexError.
Proof.
  intros Hmin Hmax Hex. unfold process_voxels.
  rewrite (mapM_raises_same (normalize_frame p) (log_mix p raw) IndexError);
    [reflexivity | |].
  - intros frame _. destruct (ravel frame) as [| x l] eqn:E.
    + right. apply normalize_frame_empty; assumption.
    + left. destruct Hmin, Hmax.
      apply normalize_frame_ok; [rewrite E; discriminate | assumption ..].
  - apply Exists_impl with (P := fun frame => ravel frame = []).
    + intros frame E. apply normalize_frame_empty; assumption.
    + apply log_mix_frame_empty, Hex.
Qed.

Lemma process_voxels_nil p : process_voxels p [] = Ok [].
Proof.
  unfold process_voxels, log_mix, smooth.
  destruct (Qltb 0 (p log_scale)), (Qltb 0 (p smoothing)); reflexivity.
Qed.

(** [process_voxels] works frame by frame: the processed series of a
    concatenation is the concatenation of the processed series (with the
    first exception of the first part, else of the second), so an output
    frame depends on its own input frame and the parameters only, not on the
    rest of the series. *)
Theorem process_voxels_framewise p :
  (forall xs ys,
      process_voxels p (xs ++ ys)
      = (a <- process_voxels p xs ;; b <- process_voxels p ys ;; Ok (a ++ b)))
  /\ (forall raw out i frame,
         process_voxels p raw = Ok out ->
         nth_error raw i = Some frame ->
         exists o, nth_error out i = Some o
                   /\ process_voxels p [frame] = Ok [o]).
Proof.
  split; [apply process_voxels_app |].
  intros raw out i frame H Hi.
  destruct (nth_error_split _ _ Hi) as (l1 & l2 & -> & Hlen).
  change (l1 ++ frame :: l2) with (l1 ++ [frame] ++ l2) in H.
  rewrite process_voxels_app in H.
  destruct (process_voxels p l1) as [a |] eqn:Ea; cbn [bind] in H;
    [| discriminate].
  rewrite process_voxels_app in H.
  destruct (process_voxels p [frame]) as [b |] eqn:Eb; cbn [bind] in H;
    [| discriminate].
  destruct (process_voxels p l2) as [c |] eqn:Ec; cbn [bind] in H;
    [| discriminate].
  apply Ok_inj in H. subst out.
  pose proof (process_voxels_length _ _ _ Ea) as La.
  pose proof (process_voxels_length _ _ _ Eb) as Lb.
  destruct b as [| o [| o' b]]; try discriminate.
  exists o. split; [| reflexivity].
  rewrite nth_error_app2 by lia.
  replace (i - length a)%nat with 0%nat by lia. reflexivity.
Qed.

(** The outcomes of [process_voxels].  On an empty series nothing is
    evaluated and the result is empty.  On any other series [np.percentile]
    (line 68) raises [ValueError] when one of the two percentiles lies
    outside [0,100], whatever the data, and [IndexError] when the percentiles
    are inside and some frame holds no voxel.  With the percentiles inside and
    a voxel in every frame the result has one frame per input frame.  No
    other exception is raised. *)
Theorem process_voxels_outcome p raw :
  (raw = [] -> process_voxels p raw = Ok [])
  /\ (raw <> [] ->
      (p percentile_min < 0 \/ 100 < p percentile_min
       \/ p percentile_max < 0 \/ 100 < p percentile_max) ->
      process_voxels p raw = Raise ValueError)
  /\ (0 <= p percentile_min <= 100 ->
      0 <= p percentile_max <= 100 ->
      Exists (fun frame => ravel frame = []) raw ->
      process_voxels p raw = Raise IndexError)
  /\ (0 <= p percentile_min <= 100 ->
      0 <= p percentile_max <= 100 ->
      has_voxels raw ->
      exists out, process_voxels p raw = Ok out /\ length out = length raw)
  /\ (forall e, process_voxels p raw = Raise e ->
                e = ValueError \/ e = IndexError).
Proof.
  split; [intros ->; apply process_voxels_nil |].
  split.
  { intros Hne Hq. unfold process_voxels.
    destruct (log_mix p raw) as [| frame rest] eqn:E.
    - apply (f_equal (@length _)) in E. rewrite log_mix_length in E.
      destruct raw; [congruence | discriminate].
    - cbn [mapM]. rewrite (normalize_frame_raises p frame Hq). reflexivity. }
  split; [apply process_voxels_empty_frame |].
  split.
  { intros [A B] [C D] Hv.
    destruct (process_voxels_ok p raw Hv A B C D) as [out E].
    exists out. split; [exact E | apply (process_voxels_length _ _ _ E)]. }
  intros e. unfold process_voxels.
  destruct (mapM (normalize_frame p) (log_mix p raw)) as [bases |] eqn:E;
    cbn [bind]; [discriminate |].
  intros H. injection H as <-.
  destruct (mapM_raises_in _ _ _ E) as (frame & _ & Hf).
  exact (normalize_frame_raise_kinds _ _ _ Hf).
Qed.

(** A second click on "Reprocess" changes nothing: the series is always
    recomputed from the raw copy, never from the processed one. *)
Theorem reprocess_idempotent (s : state) :
  reprocess (fst (reprocess s)) = reprocess s
  /\ voxels_raw (fst (reprocess s)) = voxels_raw s.
Proof.
  split; [| apply reprocess_voxels_raw].
  unfold reprocess.
  destruct (process_voxels (params s) (voxels_raw s)) as [v |] eqn:E.
  - cbn [with_voxels current_frame].
    destruct (nth_error v (current_frame s)) as [frame |] eqn:En;
      cbn [fst with_holo with_voxels params voxels_raw current_frame holo];
      rewrite E; cbn [with_voxels current_frame]; rewrite En; reflexivity.
  - cbn [fst]. rewrite E. reflexivity.
Qed.

(** How the script starts.  An empty recording ends it with [IndexError]
    at [voxels[0]] (line 260), and a recording with a frame that holds no
    voxel with [IndexError] from [np.percentile] (line 68).  Any other
    recording is processed with the default parameters and shown at frame 0,
    the volume and the electrodes centred on the middle of the frame, the
    sliders at their defaults. *)
Theorem interactive_setup_outcome loaded :
  (loaded = [] -> setup loaded = Raise IndexError)
  /\ (Exists (fun frame => ravel frame = []) loaded ->
      setup loaded = Raise IndexError)
  /\ (loaded <> [] ->
      has_voxels loaded ->
      exists s,
        setup loaded = Ok s
        /\ voxels_raw s = map (vmap Qabs) loaded
        /\ process_voxels default_params (voxels_raw s) = Ok (voxels s)
        /\ length (voxels s) = length loaded
        /\ params s = default_params
        /\ sliders s = initial_sliders default_params
        /\ range_checked s
        /\ live_synced s
        /\ nth_error (voxels s) 0 = Some (data (holo s))
        /\ current_frame s = 0%nat
        /\ rotation_angle s = 0
        /\ center s = half_shape (shape (data (holo s)))
        /\ transform (holo s) = [Translate (neg3 (center s))]
        /\ elecs_transform s = [Translate (neg3 (center s))]).
Proof.
  split.
  { intros ->. unfold setup. cbn [map].
    rewrite process_voxels_nil. reflexivity. }
  split.
  { intros Hex. unfold setup.
    rewrite (process_voxels_empty_frame default_params (map (vmap Qabs) loaded));
      [reflexivity | split; discriminate | split; discriminate |].
    apply Exists_exists in Hex. destruct Hex as (frame & Hin & E).
    apply Exists_exists. eexists. split; [apply in_map; exact Hin |].
    apply ravel_vmap_nil. exact E. }
  intros Hne Hv.
  assert (Hv' : has_voxels (map (vmap Qabs) loaded)).
  { unfold has_voxels in *. rewrite Forall_map.
    apply Forall_impl with (2 := Hv). intros frame H E. apply H.
    apply ravel_vmap_nil in E. exact E. }
  destruct (process_voxels_ok default_params (map (vmap Qabs) loaded) Hv')
    as [v E]; [vm_compute; discriminate ..|].
  pose proof (process_voxels_length _ _ _ E) as Hl. rewrite length_map in Hl.
  destruct v as [| first_frame rest].
  { destruct loaded; [congruence | discriminate]. }
  unfold setup. rewrite E. cbn [bind].
  eexists. split; [reflexivity |].
  cbn [voxels_raw voxels params sliders holo data current_frame
       rotation_angle center transform elecs_transform nth_error].
  split; [reflexivity |]. split; [exact E |]. split; [exact Hl |].
  split; [reflexivity |]. split; [reflexivity |].
  split; [apply initial_range_checked; reflexivity |].
  split; [repeat split |].
  repeat split.
Qed.

End Process.

Lemma process_voxels_framewise_witness :
  exists o,
    nth_error (voxels Samples.interactive_state) 1 = Some o
    /\ process_voxels (L := Samples.array_lib) Samples.exact_params
         [Samples.flat (1 # 2)] = Ok [o].
Proof.
  apply (proj2 (@process_voxels_framewise Samples.array_lib Samples.exact_params)
           Samples.raw2 (voxels Samples.interactive_state) 1%nat
           (Samples.flat (1 # 2)));
    vm_compute; reflexivity.
Defined.

Lemma process_voxels_outcome_witness :
  process_voxels (L := Samples.array_lib)
    (set_param percentile_max 101 default_params) Samples.raw2
  = Raise ValueError
  /\ process_voxels (L := Samples.array_lib) default_params
       [Samples.ramp; [[[]]]]
     = Raise IndexError
  /\ exists out,
       process_voxels (L := Samples.array_lib) default_params Samples.raw2 = Ok out
       /\ length out = 2%nat.
Proof.
  split; [| split].
  - apply (proj1 (proj2 (@process_voxels_outcome Samples.array_lib
                           (set_param percentile_max 101 default_params)
                           Samples.raw2))).
    + discriminate.
    + right. right. right. reflexivity.
  - apply (proj1 (proj2 (proj2 (@process_voxels_outcome Samples.array_lib
                                  default_params [Samples.ramp; [[[]]]]))));
      [split; discriminate | split; discriminate |].
    right. left. reflexivity.
  - apply (proj1 (proj2 (proj2 (proj2 (@process_voxels_outcome Samples.array_lib
                                         default_params Samples.raw2)))));
      [split; discriminate | split; discriminate |].
    repeat constructor; discriminate.
Defined.

Lemma interactive_setup_outcome_witness :
  setup (L := Samples.array_lib) [] = Raise IndexError
  /\ setup (L := Samples.array_lib) [Samples.ramp; [[[]]]] = Raise IndexError
  /\ exists s,
       setup (L := Samples.array_lib) Samples.raw2 = Ok s
       /\ length (voxels s) = 2%nat
       /\ current_frame s = 0%nat.
Proof.
  split; [| split].
  - apply (proj1 (@interactive_setup_outcome Samples.array_lib []) eq_refl).
  - apply (proj1 (proj2 (@interactive_setup_outcome Samples.array_lib
                           [Samples.ramp; [[[]]]]))).
    right. left. reflexivity.
  - destruct (proj2 (proj2 (@interactive_setup_outcome Samples.array_lib
                              Samples.raw2)))
      as (s & E & _ & _ & Hl & _ & _ & _ & _ & _ & Hc & _);
      [discriminate | repeat constructor; discriminate |].
    exists s. split; [exact E |]. split; [exact Hl | exact Hc].
Defined.

End ProcessFacts.

(** ** viz_hologram.py: the normalisation of the loaded array *)

Module NormalizeFacts.
Import Py Np Vispy Hologram NpFacts InteractiveFacts ParticleFacts.

Lemma insert_sorted_Forall (P : Q -> Prop) x l :
  P x -> Forall P l -> Forall P (insert_sorted x l).
Proof.
  intros Hx. induction 1 as [| y l Hy Hl IH]; cbn [insert_sorted].
  - constructor; [exact Hx | constructor].
  - destruct (Qle_bool x y); constructor; auto.
Qed.

Lemma insert_sorted_sorted x l :
  StronglySorted Qle l -> StronglySorted Qle (insert_sorted x l).
Proof.
  induction 1 as [| y l Hs IH Hy]; cbn [insert_sorted].
  - constructor; constructor.
  - destruct (Qle_bool x y) eqn:E.
    + apply Qle_bool_iff in E. constructor.
      * constructor; assumption.
      * constructor; [exact E |].
        apply Forall_impl with (2 := Hy). intros z Hz. apply Qle_trans with y; assumption.
    + assert (Hyx : y <= x).
      { apply Qlt_le_weak, Qnot_le_lt. intro H. apply Qle_bool_iff in H. congruence. }
      constructor; [exact IH |].
      apply insert_sorted_Forall; assumption.
Qed.

Lemma sort_sorted l : StronglySorted Qle (sort l).
Proof.
  unfold sort. induction l as [| x l IH]; cbn [fold_right];
    [constructor | apply insert_sorted_sorted, IH].
Qed.

Lemma insert_sorted_length x l : length (insert_sorted x l) = S (length l).
Proof.
  induction l as [| y l IH]; cbn [insert_sorted]; [reflexivity |].
  destruct (Qle_bool x y); cbn [length]; [reflexivity | rewrite IH; reflexivity].
Qed.

Lemma sort_length l : length (sort l) = length l.
Proof.
  unfold sort. induction l as [| x l IH]; cbn [fold_right length];
    [reflexivity | rewrite insert_sorted_length, IH; reflexivity].
Qed.

Lemma sorted_nth s :
  StronglySorted Qle s ->
  forall i j, (i <= j)%nat -> (j < length s)%nat -> nth i s 0 <= nth j s 0.
Proof.
  induction 1 as [| y l Hs IH Hy]; intros i j Hij Hj; [simpl in Hj; lia |].
  destruct j as [| j].
  - replace i with 0%nat by lia. apply Qle_refl.
  - cbn [length] in Hj. destruct i as [| i]; cbn [nth].
    + rewrite Forall_forall in Hy. apply Hy, nth_In. lia.
    + apply IH; lia.
Qed.

(** Where the virtual index [v] falls between two positions of the sorted
    data. *)
Lemma floor_in_range (n : nat) (v : Q) :
  0 <= v -> v < inject_Z (Z.of_nat n) - 1 ->
  (0 <= Qfloor v)%Z /\ (Qfloor v + 1 < Z.of_nat n)%Z.
Proof.
  intros H0 H1. split.
  - change 0%Z with (Qfloor 0). apply Qfloor_resp_le, H0.
  - assert (H : inject_Z (Qfloor v) < inject_Z (Z.of_nat n) - 1).
    { apply Qle_lt_trans with v; [apply Qfloor_le | exact H1]. }
    assert (H' : inject_Z (Qfloor v + 1) < inject_Z (Z.of_nat n)).
    { rewrite inject_Z_plus. change (inject_Z 1) with 1. lra. }
    rewrite <- Zlt_Qlt in H'. exact H'.
Qed.

Lemma fraction_unit (v : Q) : 0 <= v - inject_Z (Qfloor v) /\ v - inject_Z (Qfloor v) <= 1.
Proof.
  pose proof (Qfloor_le v) as A. pose proof (Qlt_floor v) as B.
  rewrite inject_Z_plus in B. change (inject_Z 1) with 1 in B. split; lra.
Qed.

(** The interpolated value lies between its two neighbours. *)
Lemma interp_between (a b t : Q) :
  a <= b -> 0 <= t -> t <= 1 -> a <= a + (b - a) * t /\ a + (b - a) * t <= b.
Proof.
  intros Hab H0 H1. split.
  - assert (0 <= (b - a) * t) by (apply Qmult_le_0_compat; lra). lra.
  - assert (0 <= (b - a) * (1 - t)) by (apply Qmult_le_0_compat; lra).
    setoid_replace (a + (b - a) * t) with (b - (b - a) * (1 - t)) by ring. lra.
Qed.

Lemma interp_mono s (v1 v2 : Q) :
  StronglySorted Qle s ->
  0 <= v1 -> v1 <= v2 -> v2 < inject_Z (Z.of_nat (length s)) - 1 ->
  nth (Z.to_nat (Qfloor v1)) s 0
  + (nth (Z.to_nat (Qfloor v1 + 1)) s 0 - nth (Z.to_nat (Qfloor v1)) s 0)
    * (v1 - inject_Z (Qfloor v1))
  <= nth (Z.to_nat (Qfloor v2)) s 0
     + (nth (Z.to_nat (Qfloor v2 + 1)) s 0 - nth (Z.to_nat (Qfloor v2)) s 0)
       * (v2 - inject_Z (Qfloor v2)).
Proof.
  intros Hs H0 H12 H2.
  assert (H1 : v1 < inject_Z (Z.of_nat (length s)) - 1) by lra.
  assert (H0' : 0 <= v2) by lra.
  destruct (floor_in_range _ _ H0 H1) as [A1 B1].
  destruct (floor_in_range _ _ H0' H2) as [A2 B2].
  pose proof (Qfloor_resp_le _ _ H12) as Hf.
  destruct (fraction_unit v1) as [T1 T1'].
  destruct (fraction_unit v2) as [T2 T2'].
  set (l1 := Qfloor v1) in *. set (l2 := Qfloor v2) in *.
  assert (S1 : nth (Z.to_nat l1) s 0 <= nth (Z.to_nat (l1 + 1)) s 0)
    by (apply sorted_nth; [exact Hs | lia | lia]).
  assert (S2 : nth (Z.to_nat l2) s 0 <= nth (Z.to_nat (l2 + 1)) s 0)
    by (apply sorted_nth; [exact Hs | lia | lia]).
  destruct (Z.eq_dec l1 l2) as [E | E].
  - rewrite <- E in *.
    set (a := nth (Z.to_nat l1) s 0) in *.
    set (b := nth (Z.to_nat (l1 + 1)) s 0) in *.
    assert (0 <= (b - a) * (v2 - v1)) by (apply Qmult_le_0_compat; lra).
    setoid_replace (a + (b - a) * (v2 - inject_Z l1))
      with (a + (b - a) * (v1 - inject_Z l1) + (b - a) * (v2 - v1)) by ring.
    lra.
  - assert (S12 : nth (Z.to_nat (l1 + 1)) s 0 <= nth (Z.to_nat l2) s 0)
      by (apply sorted_nth; [exact Hs | lia | lia]).
    destruct (interp_between _ _ _ S1 T1 T1') as [_ U1].
    destruct (interp_between _ _ _ S2 T2 T2') as [L2 _].
    lra.
Qed.

(** [np.percentile] is monotone in the percentile asked for. *)
Lemma percentile_mono a q1 q2 v1 v2 :
  0 <= q1 -> q1 <= q2 -> q2 <= 100 ->
  percentile a q1 = Ok v1 -> percentile a q2 = Ok v2 -> v1 <= v2.
Proof.
  intros H0 H12 H2 E1 E2.
  destruct a as [| x a'].
  { destruct (percentile_nil _ _ E1). }
  set (a := x :: a') in *.
  revert E1 E2. unfold percentile.
  destruct (Qle_bool 0 q1 && Qle_bool q1 100); cbn [negb]; [| discriminate].
  destruct (Qle_bool 0 q2 && Qle_bool q2 100); cbn [negb]; [| discriminate].
  pose proof (sort_sorted a) as Hs.
  pose proof (sort_length a) as Hl.
  set (s := sort a) in *.
  assert (Hn : (0 < length s)%nat) by (rewrite Hl; unfold a; simpl; lia).
  set (N := inject_Z (Z.of_nat (length s))).
  assert (HN : 1 <= N).
  { unfold N. change 1 with (inject_Z 1). rewrite <- Zle_Qle. lia. }
  set (w1 := q1 / 100 * (N - 1)). set (w2 := q2 / 100 * (N - 1)).
  assert (Hw0 : 0 <= w1).
  { unfold w1. apply Qmult_le_0_compat; [| lra].
    apply Qle_shift_div_l; [reflexivity | lra]. }
  assert (Hw12 : w1 <= w2).
  { unfold w1, w2. apply Qmult_le_compat_r; [| lra].
    apply Qmult_le_compat_r; [exact H12 |]. apply Qinv_le_0_compat. discriminate. }
  destruct (Qle_bool (N - 1) w2) eqn:C2; intros E1 E2;
    apply Ok_inj in E1; apply Ok_inj in E2; rewrite <- E1, <- E2; clear E1 E2.
  - setoid_replace (nth (length s - 1) s 0
                    + (nth (length s - 1) s 0 - nth (length s - 1) s 0)
                      * (w2 - inject_Z (Qfloor w2)))
      with (nth (length s - 1) s 0) by ring.
    destruct (Qle_bool (N - 1) w1) eqn:C1.
    + apply Qle_lteq. right. ring.
    + assert (Hlt : w1 < N - 1).
      { apply Qnot_le_lt. intro H. apply Qle_bool_iff in H. congruence. }
      destruct (floor_in_range _ _ Hw0 Hlt) as [A B].
      destruct (fraction_unit w1) as [T T'].
      assert (S1 : nth (Z.to_nat (Qfloor w1)) s 0
                   <= nth (Z.to_nat (Qfloor w1 + 1)) s 0)
        by (apply sorted_nth; [exact Hs | lia | lia]).
      assert (S2 : nth (Z.to_nat (Qfloor w1 + 1)) s 0 <= nth (length s - 1) s 0)
        by (apply sorted_nth; [exact Hs | lia | lia]).
      destruct (interp_between _ _ _ S1 T T') as [_ U]. lra.
  - assert (Hlt : w2 < N - 1).
    { apply Qnot_le_lt. intro H. apply Qle_bool_iff in H. congruence. }
    assert (C1 : Qle_bool (N - 1) w1 = false).
    { destruct (Qle_bool (N - 1) w1) eqn:C1; [| reflexivity].
      apply Qle_bool_iff in C1. lra. }
    rewrite C1. apply interp_mono; assumption.
Qed.

Lemma clip_collapsed x lo hi : lo == hi -> clip x lo hi == hi.
Proof.
  intros E. unfold clip. apply Q.min_r.
  apply Qle_trans with lo; [rewrite E; apply Qle_refl | apply Q.le_max_r].
Qed.

Lemma rescale_unit vmin vmax x :
  vmin <= vmax -> 0 <= rescale vmin vmax x /\ rescale vmin vmax x <= 1.
Proof.
  intros H. unfold rescale.
  destruct (clip_bounds x vmin vmax H) as [A B].
  assert (D : 0 < vmax - vmin + (1 # 100000000)) by lra.
  split.
  - apply Qle_shift_div_l; [exact D | lra].
  - apply Qle_shift_div_r; [exact D | lra].
Qed.

Lemma rescale_collapsed vmin vmax x : vmin == vmax -> rescale vmin vmax x == 0.
Proof.
  intros E. unfold rescale. rewrite (clip_collapsed x vmin vmax E).
  setoid_replace (vmax - vmin) with 0 by lra.
  unfold Qdiv. ring.
Qed.

Lemma ravel_series_map f (loaded : series) :
  concat (map ravel (map (vmap f) loaded)) = map f (concat (map ravel loaded)).
Proof.
  rewrite map_map, concat_map, map_map. f_equal.
  apply map_ext. intros frame. apply ravel_vmap.
Qed.

Section Normalize.
Context {A : Interactive.ArrayLib} `{!Interactive.PowerLaws A}.

(** Lines 17-22 on a recording whose squares stay finite: no exception,
    the two percentiles in order. *)
Lemma normalize_runs (loaded : series) :
  concat (map ravel loaded) <> [] ->
  Forall (fun x => Interactive.power (Qabs x) 2 <= FLOAT32_MAX)
         (concat (map ravel loaded)) ->
  exists vmin vmax,
    percentile (concat (map ravel
       (map (vmap (fun x => Interactive.power (Qabs x) 2)) loaded))) 5 = Ok vmin
    /\ percentile (concat (map ravel
         (map (vmap (fun x => Interactive.power (Qabs x) 2)) loaded))) (995 # 10)
       = Ok vmax
    /\ vmin <= vmax
    /\ normalize loaded
       = Ok (Finite
               (map (vmap (fun x => Interactive.power (rescale vmin vmax x) (5 # 10)))
                    (map (vmap (fun x => Interactive.power (Qabs x) 2)) loaded))).
Proof.
  intros Hne Hfin. unfold normalize. cbv zeta.
  set (all := concat (map ravel
                 (map (vmap (fun x => Interactive.power (Qabs x) 2)) loaded))).
  assert (Eall : all = map (fun x => Interactive.power (Qabs x) 2)
                           (concat (map ravel loaded)))
    by apply ravel_series_map.
  assert (Hall : all <> []).
  { rewrite Eall. intros E. apply map_eq_nil in E. exact (Hne E). }
  assert (Hex : existsb (fun x => Qltb FLOAT32_MAX x) all = false).
  { destruct (existsb (fun x => Qltb FLOAT32_MAX x) all) eqn:E; [| reflexivity].
    apply existsb_exists in E. destruct E as (y & Hy & Hlt).
    rewrite Eall in Hy. apply in_map_iff in Hy. destruct Hy as (x & <- & Hx).
    rewrite Forall_forall in Hfin. specialize (Hfin x Hx).
    apply Qltb_lt in Hlt. exfalso. exact (Qlt_not_le _ _ Hlt Hfin). }
  destruct (percentile_ok all 5 Hall) as [vmin E1]; [lra | lra |].
  destruct (percentile_ok all (995 # 10) Hall) as [vmax E2]; [lra | lra |].
  exists vmin, vmax. split; [exact E1 |]. split; [exact E2 |].
  split; [apply (percentile_mono all 5 (995 # 10)); (lra || assumption) |].
  rewrite Hex, (percentile2_ok _ _ _ _ _ E1 E2). reflexivity.
Qed.

(** Lines 17-22.  A recording without a voxel ends the script with
    [IndexError] at line 19; one with a value whose square exceeds the
    float32 range overflows.  On every other recording the block returns,
    keeps the number of frames and leaves every voxel in [0,1], the range
    that [iso_levels] and the particle threshold assume.  When all voxels of
    such a recording hold one value the two percentiles coincide and every
    voxel becomes 0, so that the set-up that follows cannot start: no voxel
    exceeds the particle threshold. *)
Theorem hologram_normalize_unit (loaded : series) :
  (concat (map ravel loaded) = [] -> normalize loaded = Raise IndexError)
  /\ (Exists (fun x => FLOAT32_MAX < Interactive.power (Qabs x) 2)
             (concat (map ravel loaded)) ->
      normalize loaded = Ok Overflowed)
  /\ (concat (map ravel loaded) <> [] ->
      Forall (fun x => Interactive.power (Qabs x) 2 <= FLOAT32_MAX)
             (concat (map ravel loaded)) ->
      exists out,
        normalize loaded = Ok (Finite out)
        /\ length out = length loaded
        /\ Forall (Interactive.within 0 1) out
        /\ (forall c,
              Forall (eq c) (concat (map ravel loaded)) ->
              Forall (Interactive.within 0 0) out
              /\ forall (LS : SceneLib) ch_pos g,
                   setup out ch_pos g = Raise ValueError)).
Proof.
  split.
  { intros E. unfold normalize. cbv zeta.
    rewrite ravel_series_map, E. reflexivity. }
  split.
  { intros Hex. unfold normalize. cbv zeta. rewrite ravel_series_map.
    assert (E : existsb (fun x => Qltb FLOAT32_MAX x)
                  (map (fun x => Interactive.power (Qabs x) 2)
                       (concat (map ravel loaded))) = true).
    { apply Exists_exists in Hex. destruct Hex as (x & Hx & Hlt).
      apply existsb_exists. exists (Interactive.power (Qabs x) 2).
      split; [| apply Qltb_lt; exact Hlt].
      apply in_map_iff. exists x. split; [reflexivity | exact Hx]. }
    rewrite E. reflexivity. }
  intros Hne Hfin.
  destruct (normalize_runs loaded Hne Hfin) as (vmin & vmax & E1 & E2 & Hle & E).
  eexists. split; [exact E |].
  split; [rewrite !length_map; reflexivity |].
  split.
  { apply Forall_forall. intros frame Hf.
    apply in_map_iff in Hf. destruct Hf as (f0 & <- & _).
    apply vmap_within. intros x.
    apply Interactive.power_unit; [| reflexivity].
    destruct (rescale_unit vmin vmax x Hle). split; assumption. }
  intros c Hc.
  set (f := fun x => Interactive.power (Qabs x) 2) in *.
  rewrite ravel_series_map in E1, E2.
  assert (Hall : Forall (eq (f c)) (map f (concat (map ravel loaded)))).
  { apply Forall_forall. intros y Hy.
    apply in_map_iff in Hy. destruct Hy as (x & <- & Hx).
    rewrite Forall_forall in Hc. rewrite <- (Hc x Hx). reflexivity. }
  assert (Hne' : map f (concat (map ravel loaded)) <> []).
  { intros E0. apply map_eq_nil in E0. exact (Hne E0). }
  assert (Heq : vmin == vmax).
  { rewrite (percentile_const (f c) _ _ _ Hall Hne' E1).
    rewrite (percentile_const (f c) _ _ _ Hall Hne' E2).
    reflexivity. }
  assert (Hzero : Forall (Interactive.within 0 0)
            (map (vmap (fun x => Interactive.power (rescale vmin vmax x) (5 # 10)))
                 (map (vmap f) loaded))).
  { apply Forall_forall. intros frame Hf.
    apply in_map_iff in Hf. destruct Hf as (f0 & <- & _).
    apply vmap_within. intros x.
    pose proof (Interactive.power_zero (rescale vmin vmax x) (5 # 10)
                  (rescale_collapsed vmin vmax x Heq) eq_refl) as Hz.
    split; lra. }
  split; [exact Hzero |].
  intros LS ch_pos g. destruct loaded as [| frame0 rest]; [exfalso; apply Hne; reflexivity |].
  cbn [map]. apply HologramRun.setup_dark. intros c0 Hb.
  cbn [map] in Hzero. apply Forall_inv in Hzero.
  pose proof (within_at3 _ _ _ _ Hzero Hb). lra.
Qed.

End Normalize.

Lemma unit_lib_laws : Interactive.PowerLaws Samples.unit_lib.
Proof.
  split; intros x c Hx Hc; cbn [Interactive.power Samples.unit_lib];
    destruct (Qeq_bool c 2).
  - split; [apply Qmult_le_0_compat; lra | nra].
  - exact Hx.
  - rewrite Hx. ring.
  - exact Hx.
Qed.

Lemma hologram_normalize_unit_witness :
  normalize (A := Samples.unit_lib) [[[[]]]] = Raise IndexError
  /\ normalize (A := Samples.unit_lib) [[[[100000000000000000000]]]]
     = Ok Overflowed
  /\ exists out,
       normalize (A := Samples.unit_lib) Samples.raw2 = Ok (Finite out)
       /\ length out = 2%nat
       /\ Forall (Interactive.within 0 1) out.
Proof.
  split; [| split].
  - apply (proj1 (@hologram_normalize_unit Samples.unit_lib unit_lib_laws
                    [[[[]]]])).
    reflexivity.
  - apply (proj1 (proj2 (@hologram_normalize_unit Samples.unit_lib unit_lib_laws
                           [[[[100000000000000000000]]]]))).
    left. reflexivity.
  - destruct (proj2 (proj2 (@hologram_normalize_unit Samples.unit_lib
                              unit_lib_laws Samples.raw2)))
      as (out & E & Hl & W & _).
    + discriminate.
    + unfold Samples.raw2, Samples.ramp, Samples.flat, ravel.
      cbn [map concat app].
      repeat (constructor; [vm_compute; discriminate |]). constructor.
    + exists out. split; [exact E |]. split; [exact Hl | exact W].
Defined.

End NormalizeFacts.
